(** * TiledCompound: replication of a periodic tile and repair of its bonds

    A shallow embedding of [mbuild/lib/recipes/tiled_compound.py].

    Python objects live in a store: a particle is a cell of the store and a
    reference to it is the cell's address, so that two structures holding the
    same address alias the same particle.  Coordinates are exact rationals:
    the rounding of the source's floating-point arithmetic is not modelled.
    A Euclidean distance is kept as the number under its square root, which
    lets every comparison of the source be decided exactly; the comparisons
    are shown below to be those of the real square roots.  The order in
    which a Python set is iterated is not specified: the queues of the scan
    are kept in insertion order, and the statements about the final bond
    graph speak of membership only. *)

From Stdlib Require Import Reals Qreals Lra.
From Stdlib Require Import List Bool Arith ZArith QArith Qabs Qround Lia Sorted.
From Stdlib Require Lqa.
From Stdlib Require Import String Ascii DecimalString DecimalPos DecimalZ.
Import ListNotations.

Set Implicit Arguments.

(* ------------------------------------------------------------------ *)
(** ** Numbers *)
(* ------------------------------------------------------------------ *)

Module Num.

Definition Qlt_bool (a b : Q) : bool := negb (Qle_bool b a).

(** A float that may be [np.inf]. *)
Inductive ext : Type := Fin (q : Q) | Inf.

Definition ext_min (a b : ext) : ext :=
  match a, b with
  | Inf, _ => b
  | _, Inf => a
  | Fin x, Fin y => if Qle_bool x y then a else b
  end.

(** [np.min] of a sequence of floats. *)
Definition np_min (l : list ext) : ext := fold_right ext_min Inf l.

(** [x / 2]; [np.inf / 2] is [np.inf]. *)
Definition half (a : ext) : ext :=
  match a with
  | Inf => Inf
  | Fin x => Fin (x / 2)
  end.

(** The distance [sqrt radicand]. *)
Record dist : Type := Sqrt { radicand : Q }.

(** [sqrt r > t].  For [0 <= r] this is [t < 0 \/ t * t < r]. *)
Definition dist_gt (d : dist) (t : ext) : bool :=
  match t with
  | Inf => false
  | Fin t => Qlt_bool t 0 || Qlt_bool (t * t) (radicand d)
  end.

(** [sqrt a <= sqrt b]. *)
Definition dist_le (a b : dist) : bool := Qle_bool (radicand a) (radicand b).

End Num.
Import Num.

(* ------------------------------------------------------------------ *)
(** ** Geometry *)
(* ------------------------------------------------------------------ *)

Definition vec3 : Type := (Q * Q * Q)%type.
Definition flags3 : Type := (bool * bool * bool)%type.
Definition int3 : Type := (Z * Z * Z)%type.

Definition vadd (a b : vec3) : vec3 :=
  let '(x, y, z) := a in let '(u, v, w) := b in (x + u, y + v, z + w).

Definition vsub (a b : vec3) : vec3 :=
  let '(x, y, z) := a in let '(u, v, w) := b in (x - u, y - v, z - w).

(** [np.multiply(ijk, lengths)] *)
Definition np_multiply (ijk : int3) (l : vec3) : vec3 :=
  let '(i, j, k) := ijk in let '(x, y, z) := l in
  (inject_Z i * x, inject_Z j * y, inject_Z k * z).

Definition sum_sq (d : vec3) : Q :=
  let '(x, y, z) := d in x * x + y * y + z * z.

(** [np.linalg.norm] *)
Definition np_linalg_norm (v : vec3) : dist := Sqrt (sum_sq v).

Record Box : Type := mkBox { lengths : vec3; angles : vec3 }.

(* ------------------------------------------------------------------ *)
(** ** Objects *)
(* ------------------------------------------------------------------ *)

Definition addr : Type := nat.
Definition bond : Type := (addr * addr)%type.

(** A leaf particle.  [index] is the scratch attribute the tiling writes;
    [None] stands for an attribute that is absent or holds [None]. *)
Record Particle : Type := mkParticle {
  pos : vec3;
  index : option nat;
  port_particle : bool
}.

Definition Store : Type := list Particle.

Definition blank : Particle := mkParticle (0, 0, 0) None false.

Definition deref (h : Store) (a : addr) : Particle := nth a h blank.

Fixpoint update (h : Store) (a : addr) (f : Particle -> Particle) : Store :=
  match h, a with
  | [], _ => []
  | p :: t, O => f p :: t
  | p :: t, S a' => p :: update t a' f
  end.

Definition set_index (i : option nat) (p : Particle) : Particle :=
  mkParticle (pos p) i (port_particle p).

Definition set_pos (v : vec3) (p : Particle) : Particle :=
  mkParticle v (index p) (port_particle p).

(** The periodic k-d tree: the indexed points with the bounds and the
    periodic axes they wrap along. *)
Record PeriodicKDTree : Type := mkTree {
  data : list vec3;
  bounds : vec3;
  wraps : flags3
}.

(** A Compound seen from its root: the leaf particles in enumeration order
    (port particles included), the bond graph, the Port children (each the
    addresses of its particles), and the labels added to it. *)
Record Compound : Type := mkCompound {
  name : string;
  particle_refs : list addr;
  bond_graph : list bond;
  ports : list (list addr);
  periodicity : flags3;
  box : option Box;
  labels : list (string * list addr);
  particle_kdtree : option PeriodicKDTree
}.

Inductive Exception : Type :=
| ValueError (msg : string)
| MBuildError (msg : string)
| IndexError
| AttributeError.

(** The three objects the constructor reads and writes. *)
Record State : Type := mkState {
  heap : Store;
  tile : Compound;
  self : Compound
}.

(* ------------------------------------------------------------------ *)
(** ** The collaborators the constructor calls *)
(* ------------------------------------------------------------------ *)

(** Modelled from the spec: [Compound.particles(include_ports)], the leaf
    particles in enumeration order, port particles left out on request. *)
Definition particles (include_ports : bool) (h : Store) (c : Compound)
  : list addr :=
  if include_ports then particle_refs c
  else filter (fun a => negb (port_particle (deref h a))) (particle_refs c).

(** Modelled from the spec: [Compound.bonds()], the edges of the bond graph. *)
Definition bonds (c : Compound) : list bond := bond_graph c.

(** Bonds are unordered pairs. *)
Definition same_bond (b1 b2 : bond) : bool :=
  ((fst b1 =? fst b2) && (snd b1 =? snd b2))
  || ((fst b1 =? snd b2) && (snd b1 =? fst b2)).

Definition has_edge (g : list bond) (b : bond) : bool :=
  existsb (same_bond b) g.

Definition add_edge (g : list bond) (b : bond) : list bond :=
  if has_edge g b then g else g ++ [b].

Definition remove_edge (g : list bond) (b : bond) : list bond :=
  filter (fun e => negb (same_bond b e)) g.

Definition compose (g1 g2 : list bond) : list bond := fold_left add_edge g2 g1.

Definition with_bond_graph (c : Compound) (g : list bond) : Compound :=
  mkCompound (name c) (particle_refs c) g (ports c) (periodicity c) (box c)
             (labels c) (particle_kdtree c).

Definition with_box (c : Compound) (b : option Box) : Compound :=
  mkCompound (name c) (particle_refs c) (bond_graph c) (ports c)
             (periodicity c) b (labels c) (particle_kdtree c).

Definition with_particle_kdtree (c : Compound) (t : option PeriodicKDTree)
  : Compound :=
  mkCompound (name c) (particle_refs c) (bond_graph c) (ports c)
             (periodicity c) (box c) (labels c) t.

(** Modelled from the spec: [Compound.add_bond(pair)]. *)
Definition add_bond (c : Compound) (b : bond) : Compound :=
  with_bond_graph c (add_edge (bond_graph c) b).

(** Modelled from the spec: [Compound.remove_bond(pair)]. *)
Definition remove_bond (c : Compound) (b : bond) : Compound :=
  with_bond_graph c (remove_edge (bond_graph c) b).

(** Modelled from the spec: [Compound.add(child, label)] with containment:
    the child's particles and bonds become the parent's, under the label. *)
Definition add (parent child : Compound) (label : string) : Compound :=
  mkCompound (name parent)
             (particle_refs parent ++ particle_refs child)
             (compose (bond_graph parent) (bond_graph child))
             (ports parent) (periodicity parent) (box parent)
             (labels parent ++ [(label, particle_refs child)])
             (particle_kdtree parent).

(** Modelled from the spec: [Compound.add(port, containment=False)], which
    only records a label for the port. *)
Definition add_reference (parent : Compound) (port : list addr) : Compound :=
  mkCompound (name parent) (particle_refs parent) (bond_graph parent)
             (ports parent) (periodicity parent) (box parent)
             (labels parent ++ [("Port[$]"%string, port)])
             (particle_kdtree parent).

Definition qmin (a b : Q) : Q := if Qle_bool a b then a else b.
Definition qmax (a b : Q) : Q := if Qle_bool a b then b else a.

Definition extent (xs : list Q) : Q :=
  match xs with
  | [] => 0
  | x :: t => fold_left qmax t x - fold_left qmin t x
  end.

(** Modelled from the spec: [Compound.get_boundingbox()], the tight bounding
    box of the particles. *)
Definition get_boundingbox (h : Store) (c : Compound) : Box :=
  let ps := map (fun a => pos (deref h a)) (particles false h c) in
  mkBox (extent (map (fun p => fst (fst p)) ps),
         extent (map (fun p => snd (fst p)) ps),
         extent (map (fun p => snd p) ps))
        (90, 90, 90).

Definition rename (memo : list (addr * addr)) (a : addr) : addr :=
  match find (fun e => fst e =? a) memo with
  | Some e => snd e
  | None => a
  end.

(** Modelled from the spec: [clone(compound)], a deep copy.  Every particle
    is copied into a fresh cell, [index] included, and the bond graph, the
    ports and the labels are redirected to the copies. *)
Definition clone (h : Store) (c : Compound) : Store * Compound :=
  let fresh := seq (List.length h) (List.length (particle_refs c)) in
  let r := rename (combine (particle_refs c) fresh) in
  (h ++ map (deref h) (particle_refs c),
   mkCompound (name c) fresh
              (map (fun b => (r (fst b), r (snd b))) (bond_graph c))
              (map (map r) (ports c))
              (periodicity c) (box c)
              (map (fun l => (fst l, map r (snd l))) (labels c))
              None).

(** Modelled from the spec: [Compound.translate(by)]. *)
Definition translate (h : Store) (c : Compound) (by_ : vec3) : Store :=
  fold_left (fun h' a => update h' a (fun p => set_pos (vadd (pos p) by_) p))
            (particle_refs c) h.

(** One coordinate of the minimum image.  Along an axis that is periodic
    with a length [L] above zero this is the least [|a - b - n * L|] over
    the integers [n]: the remainder of [|a - b|] by [L], or what is left
    of [L] when that is less.  Along any other axis it is [|a - b|]. *)
Definition image_delta (periodic : bool) (L a b : Q) : Q :=
  let d := Qabs (a - b) in
  if periodic && Qlt_bool 0 L then
    let r := d - inject_Z (Qfloor (d / L)) * L in
    qmin r (L - r)
  else d.

Definition periodic_distance (per : flags3) (L p q : vec3) : dist :=
  let '(px, py, pz) := per in
  let '(lx, ly, lz) := L in
  let '(x, y, z) := p in
  let '(u, v, w) := q in
  Sqrt (sum_sq (image_delta px lx x u, image_delta py ly y v,
                image_delta pz lz z w)).

(** Modelled from the spec: [Compound.min_periodic_distance(xyz0, xyz1)],
    the minimum-image distance under the compound's box and periodicity:
    the shortest distance over the translations of one point by whole
    multiples of the box lengths along the periodic axes.  The box is
    taken to have right angles, so that its vectors lie along the axes. *)
Definition min_periodic_distance (c : Compound) (xyz0 xyz1 : vec3) : dist :=
  match box c with
  | Some b => periodic_distance (periodicity c) (lengths b) xyz0 xyz1
  | None => np_linalg_norm (vsub xyz0 xyz1)
  end.

(** Modelled from the spec: [PeriodicKDTree.from_compound], built over the
    positions of the particles that are not port particles. *)
Definition from_compound (h : Store) (c : Compound) : PeriodicKDTree :=
  mkTree (map (fun a => pos (deref h a)) (particles false h c))
         (match box c with Some b => lengths b | None => (0, 0, 0) end)
         (periodicity c).

Fixpoint insert_by_dist (e : dist * nat) (l : list (dist * nat))
  : list (dist * nat) :=
  match l with
  | [] => [e]
  | x :: t => if dist_le (fst e) (fst x) then e :: l
              else x :: insert_by_dist e t
  end.

Definition sort_by_dist (l : list (dist * nat)) : list (dist * nat) :=
  fold_right insert_by_dist [] l.

Definition ranked (t : PeriodicKDTree) (x : vec3) : list (dist * nat) :=
  sort_by_dist
    (combine (map (periodic_distance (wraps t) (bounds t) x) (data t))
             (seq 0 (List.length (data t)))).

(** Modelled from the spec: [PeriodicKDTree.query(x, k)], the distances and
    the positions in [data] of the [k] nearest points under the periodic
    metric, nearest first. *)
Definition query (t : PeriodicKDTree) (x : vec3) (k : nat)
  : list dist * list nat :=
  let near := firstn k (ranked t x) in (map fst near, map snd near).

(* ------------------------------------------------------------------ *)
(** ** TiledCompound *)
(* ------------------------------------------------------------------ *)

(** What a call leaves behind: the objects as they are when it returns or
    raises, and the exception if it raised. *)
Record Outcome : Type := mkOutcome {
  final : State;
  raised : option Exception
}.

(** The object the caller receives: none when the constructor raised. *)
Definition result (o : Outcome) : option Compound :=
  match raised o with
  | None => Some (self (final o))
  | Some _ => None
  end.

(** [Compound.__init__()] with no arguments. *)
Definition Compound_init : Compound :=
  mkCompound "Compound" [] [] [] (false, false, false) None [] None.

(** [str(d)] of an integer. *)
Definition str (d : Z) : string := NilZero.string_of_int (Z.to_int d).

(** [kwargs.get(key, default)] *)
Definition kwargs_get (key : string) (default : nat)
  (kwargs : list (string * nat)) : nat :=
  match find (fun e => String.eqb (fst e) key) kwargs with
  | Some e => snd e
  | None => default
  end.

(** The box of a compound whose box is set. *)
Definition the_box (c : Compound) : Box :=
  match box c with
  | Some b => b
  | None => mkBox (0, 0, 0) (0, 0, 0)
  end.

Definition all_positive (n : int3) : bool :=
  let '(x, y, z) := n in (0 <? x)%Z && (0 <? y)%Z && (0 <? z)%Z.

(** [np.all(np.logical_or(n_tiles == 1, periodicity))] *)
Definition periodic_where_tiled (n : int3) (per : flags3) : bool :=
  let '(x, y, z) := n in let '(px, py, pz) := per in
  ((x =? 1)%Z || px) && ((y =? 1)%Z || py) && ((z =? 1)%Z || pz).

(** [all(n_tiles == 1)] *)
Definition all_ones (n : int3) : bool :=
  let '(x, y, z) := n in (x =? 1)%Z && (y =? 1)%Z && (z =? 1)%Z.

(** [range(n)] *)
Definition range (n : Z) : list Z := map Z.of_nat (seq 0 (Z.to_nat n)).

(** [it.product(range(nx), range(ny), range(nz))] *)
Definition product (n : int3) : list int3 :=
  let '(x, y, z) := n in
  flat_map (fun i => flat_map (fun j => map (fun k => (i, j, k)) (range z))
                              (range y))
           (range x).

Definition tile_label (nm : string) (ijk : int3) : string :=
  let '(i, j, k) := ijk in
  (nm ++ "_" ++ str i ++ "-" ++ str j ++ "-" ++ str k)%string.

Definition _add_tile (slf new_tile : Compound) (ijk : int3) : Compound :=
  add slf new_tile (tile_label (name slf) ijk).

Definition _hoist_ports (slf new_tile : Compound) : Compound :=
  fold_left add_reference (ports new_tile) slf.

(** Lines 37-38: a tile without a box is given its bounding box. *)
Definition ensure_box (h : Store) (t : Compound) : Compound :=
  match box t with
  | None => with_box t (Some (get_boundingbox h t))
  | Some _ => t
  end.

(** Lines 30-51: the checks, the box of the tile, the attributes of [self]. *)
Definition prepare (h : Store) (t : Compound) (n_tiles : int3)
  (nm : option string) : Outcome :=
  let s0 := mkState h t Compound_init in
  if negb (all_positive n_tiles) then
    mkOutcome s0 (Some (ValueError "Number of tiles must be positive."))
  else
    let t1 := ensure_box h t in
    let s1 := mkState h t1 Compound_init in
    if negb (periodic_where_tiled n_tiles (periodicity t1)) then
      mkOutcome s1 (Some (ValueError
        "Tile not periodic in at least one of the specified dimensions."))
    else
      let nm' := match nm with
                 | Some s => s
                 | None =>
                     let '(x, y, z) := n_tiles in
                     (name t1 ++ str x ++ "-" ++ str y ++ "-" ++ str z)%string
                 end in
      let slf := mkCompound nm' [] [] [] (periodicity t1)
                   (Some (mkBox (np_multiply n_tiles (lengths (the_box t1)))
                                (angles (the_box t1))))
                   [] None in
      mkOutcome (mkState h t1 slf) None.

(** Lines 63-64: the temporary ids, written on the particles of the tile. *)
Definition assign_indices (h : Store) (refs : list addr) : Store :=
  fold_left (fun h' e => update h' (snd e) (set_index (Some (fst e))))
            (combine (seq 0 (List.length refs)) refs) h.

(** Lines 69-73: one pass of the replication loop. *)
Definition place (s : State) (ijk : int3) : State :=
  let (h1, new_tile) := clone (heap s) (tile s) in
  let h2 := translate h1 new_tile
              (np_multiply ijk (lengths (the_box (tile s)))) in
  mkState h2 (tile s) (_hoist_ports (_add_tile (self s) new_tile ijk) new_tile).

(** Lines 63-73. *)
Definition replicate (s : State) (n_tiles : int3) : State :=
  let s1 := mkState (assign_indices (heap s)
                       (particles true (heap s) (tile s)))
                    (tile s) (self s) in
  fold_left place (product n_tiles) s1.

(** Lines 78-84. *)
Definition dist_thresh (t : Compound) : ext :=
  let '(px, py, pz) := periodicity t in
  let '(lx, ly, lz) := lengths (the_box t) in
  let threshold_calc :=
    [ if px then Fin lx else Inf;
      if py then Fin ly else Inf;
      if pz then Fin lz else Inf ] in
  half (np_min threshold_calc).

Definition index_eqb (a b : option nat) : bool :=
  match a, b with
  | Some x, Some y => x =? y
  | None, None => true
  | _, _ => false
  end.

Definition index_pair_eqb (a b : option nat * option nat) : bool :=
  index_eqb (fst a) (fst b) && index_eqb (snd a) (snd b).

Definition bond_eqb (a b : bond) : bool :=
  (fst a =? fst b) && (snd a =? snd b).

(** [s.add(x)] on a set kept in insertion order. *)
Definition set_add {A : Type} (eqb : A -> A -> bool) (x : A) (s : list A)
  : list A :=
  if existsb (eqb x) s then s else s ++ [x].

(** [x in s] *)
Definition set_mem {A : Type} (eqb : A -> A -> bool) (x : A) (s : list A)
  : bool :=
  existsb (eqb x) s.

(** Lines 87-90. *)
Definition periodic_bonds (h : Store) (t : Compound) (thresh : ext)
  : list (option nat * option nat) :=
  fold_left
    (fun acc b =>
       let particle1 := deref h (fst b) in
       let particle2 := deref h (snd b) in
       if dist_gt (np_linalg_norm (vsub (pos particle1) (pos particle2)))
                  thresh
       then set_add index_pair_eqb (index particle1, index particle2) acc
       else acc)
    (bonds t) [].

(** [all_particles[idxs]] *)
Fixpoint take (all_particles : list addr) (idxs : list nat)
  : option (list addr) :=
  match idxs with
  | [] => Some []
  | i :: rest =>
      match nth_error all_particles i, take all_particles rest with
      | Some a, Some r => Some (a :: r)
      | _, _ => None
      end
  end.

(** Lines 147-159. *)
Definition _find_particle_image (h : Store) (slf : Compound)
  (query_ match_ : addr) (all_particles : list addr)
  (kwargs : list (string * nat)) : Exception + addr :=
  let k := kwargs_get "k" 10 kwargs in
  match particle_kdtree slf with
  | None => inl AttributeError
  | Some tree =>
      let (_, idxs) := query tree (pos (deref h query_)) k in
      match take all_particles idxs with
      | None => inl IndexError
      | Some neighbors =>
          match find (fun particle =>
                        index_eqb (index (deref h particle))
                                  (index (deref h match_)))
                     neighbors with
          | Some particle => inr particle
          | None => inl (MBuildError
              "Unable to find matching particle image while stitching bonds.")
          end
      end
  end.

(** The test of lines 100-106, negated: the bond is a candidate. *)
Definition in_periodic_bonds (h : Store)
  (pbs : list (option nat * option nat)) (b : bond) : bool :=
  let i1 := index (deref h (fst b)) in
  let i2 := index (deref h (snd b)) in
  set_mem index_pair_eqb (i1, i2) pbs || set_mem index_pair_eqb (i2, i1) pbs.

(** The test of lines 109-110. *)
Definition too_long (h : Store) (slf : Compound) (thresh : ext) (b : bond)
  : bool :=
  dist_gt (min_periodic_distance slf (pos (deref h (fst b)))
                                 (pos (deref h (snd b))))
          thresh.

(** Lines 99-122: the scan over the bonds, which only fills the two sets. *)
Fixpoint scan (h : Store) (slf : Compound)
  (pbs : list (option nat * option nat)) (thresh : ext)
  (all_particles : list addr) (kwargs : list (string * nat))
  (todo : list bond) (bonds_to_remove bonds_to_add : list bond)
  : Exception + (list bond * list bond) :=
  match todo with
  | [] => inr (bonds_to_remove, bonds_to_add)
  | (particle1, particle2) :: rest =>
      if negb (in_periodic_bonds h pbs (particle1, particle2)) then
        scan h slf pbs thresh all_particles kwargs rest
             bonds_to_remove bonds_to_add
      else if too_long h slf thresh (particle1, particle2) then
        let bonds_to_remove :=
          set_add bond_eqb (particle1, particle2) bonds_to_remove in
        match _find_particle_image h slf particle1 particle2
                                   all_particles kwargs with
        | inl e => inl e
        | inr image2 =>
            match _find_particle_image h slf particle2 particle1
                                       all_particles kwargs with
            | inl e => inl e
            | inr image1 =>
                let bonds_to_add :=
                  if negb (set_mem bond_eqb (image2, particle1) bonds_to_add)
                  then set_add bond_eqb (particle1, image2) bonds_to_add
                  else bonds_to_add in
                let bonds_to_add :=
                  if negb (set_mem bond_eqb (image1, particle2) bonds_to_add)
                  then set_add bond_eqb (particle2, image1) bonds_to_add
                  else bonds_to_add in
                scan h slf pbs thresh all_particles kwargs rest
                     bonds_to_remove bonds_to_add
            end
        end
      else
        scan h slf pbs thresh all_particles kwargs rest
             bonds_to_remove bonds_to_add
  end.

(** Lines 93-94: the state in which the scan runs. *)
Definition indexed (s : State) : State :=
  mkState (heap s) (tile s)
          (with_particle_kdtree (self s)
             (Some (from_compound (heap s) (self s)))).

(** Lines 131-132. *)
Definition clear_indices (h : Store) (refs : list addr) : Store :=
  fold_left (fun h' a => update h' a (set_index None)) refs h.

(** Lines 75-133: the repair of the replicated structure. *)
Definition repair (s : State) (kwargs : list (string * nat)) : Outcome :=
  let thresh := dist_thresh (tile s) in
  let pbs := periodic_bonds (heap s) (tile s) thresh in
  let s1 := indexed s in
  let all_particles := particles false (heap s1) (self s1) in
  match scan (heap s1) (self s1) pbs thresh all_particles kwargs
             (bonds (self s1)) [] [] with
  | inl e => mkOutcome s1 (Some e)
  | inr (bonds_to_remove, bonds_to_add) =>
      let slf2 := fold_left remove_bond bonds_to_remove (self s1) in
      let slf3 := fold_left add_bond bonds_to_add slf2 in
      let h4 := clear_indices (heap s1) (particles true (heap s1) slf3) in
      mkOutcome (mkState h4 (tile s1) (with_particle_kdtree slf3 None)) None
  end.

(** [TiledCompound.__init__(self, tile, n_tiles, name=None, **kwargs)] *)
Definition TiledCompound_init (h : Store) (t : Compound) (n_tiles : int3)
  (nm : option string) (kwargs : list (string * nat)) : Outcome :=
  let o := prepare h t n_tiles nm in
  match raised o with
  | Some _ => o
  | None =>
      let s := final o in
      if all_ones n_tiles then
        mkOutcome
          (mkState (heap s) (tile s)
                   (_hoist_ports (_add_tile (self s) (tile s) (0, 0, 0)%Z)
                                 (tile s)))
          None
      else repair (replicate s n_tiles) kwargs
  end.

(* ------------------------------------------------------------------ *)
(** ** Vocabulary of the statements *)
(* ------------------------------------------------------------------ *)

(** The box lengths of a tile along the axes where it is periodic. *)
Definition periodic_lengths (t : Compound) : list Q :=
  let '(px, py, pz) := periodicity t in
  let '(lx, ly, lz) := lengths (the_box t) in
  (if px then [lx] else []) ++ (if py then [ly] else [])
  ++ (if pz then [lz] else []).

(** The raw distance between the two ends of a bond. *)
Definition raw_length (h : Store) (b : bond) : dist :=
  np_linalg_norm (vsub (pos (deref h (fst b))) (pos (deref h (snd b)))).

(** The Euclidean distance between two points, as a real number. *)
Definition euclidean (p q : vec3) : R :=
  let '(x, y, z) := p in
  let '(u, v, w) := q in
  sqrt ((Q2R x - Q2R u) * (Q2R x - Q2R u)
        + (Q2R y - Q2R v) * (Q2R y - Q2R v)
        + (Q2R z - Q2R w) * (Q2R z - Q2R w))%R.

(** A real distance exceeds a cutoff; no distance exceeds [np.inf]. *)
Definition exceeds (d : R) (t : ext) : Prop :=
  match t with
  | Inf => False
  | Fin q => (Q2R q < d)%R
  end.

(** The template indices at the two ends of a bond. *)
Definition index_pair (h : Store) (b : bond) : option nat * option nat :=
  (index (deref h (fst b)), index (deref h (snd b))).

(** The state after the replication loop (line 73). *)
Definition replicated (h : Store) (t : Compound) (n_tiles : int3)
  (nm : option string) : State :=
  replicate (final (prepare h t n_tiles nm)) n_tiles.

(** The state in which the bonds are scanned (line 99). *)
Definition stitching (h : Store) (t : Compound) (n_tiles : int3)
  (nm : option string) : State :=
  indexed (replicated h t n_tiles nm).

(** The periodic bond set and the cutoff of a state. *)
Definition cutoff (s : State) : ext := dist_thresh (tile s).
Definition bond_set (s : State) : list (option nat * option nat) :=
  periodic_bonds (heap s) (tile s) (cutoff s).

(** The two tests of the scan, on the bonds of a state. *)
Definition candidate (s : State) (b : bond) : bool :=
  in_periodic_bonds (heap s) (bond_set s) b.
Definition stretched (s : State) (b : bond) : bool :=
  too_long (heap s) (self s) (cutoff s) b.

(** The image search of the scan, in a state. *)
Definition find_image (s : State) (kwargs : list (string * nat))
  (query_ match_ : addr) : Exception + addr :=
  _find_particle_image (heap s) (self s) query_ match_
                       (particles false (heap s) (self s)) kwargs.

(** The scan of a state: the two queues, or the exception. *)
Definition scanned (s : State) (kwargs : list (string * nat))
  : Exception + (list bond * list bond) :=
  scan (heap s) (self s) (bond_set s) (cutoff s)
       (particles false (heap s) (self s)) kwargs (bonds (self s)) [] [].

(** The neighbours an image search looks through: [all_particles[idxs]]
    for the [idxs] the tree returns. *)
Definition retrieved (t : PeriodicKDTree) (h : Store) (query_ : addr)
  (all_particles : list addr) (kwargs : list (string * nat))
  : option (list addr) :=
  take all_particles
       (snd (query t (pos (deref h query_)) (kwargs_get "k" 10 kwargs))).

(** The particles an image search is to look through: those at the first
    [k] positions of the ranking of the tree by distance to the query. *)
Definition k_nearest (t : PeriodicKDTree) (h : Store) (query_ : addr)
  (all_particles : list addr) (kwargs : list (string * nat)) : list addr :=
  map (fun i => nth i all_particles 0%nat)
      (map snd (firstn (kwargs_get "k" 10 kwargs)
                       (ranked t (pos (deref h query_))))).

(** The same for the search of a state, over the tree of its particles. *)
Definition neighbours (s : State) (kwargs : list (string * nat))
  (query_ : addr) : list addr :=
  k_nearest (from_compound (heap s) (self s)) (heap s) query_
            (particles false (heap s) (self s)) kwargs.

(** The distance the tree measures from a point to a particle. *)
Definition tree_distance (t : PeriodicKDTree) (h : Store) (x : vec3)
  (a : addr) : dist :=
  periodic_distance (wraps t) (bounds t) x (pos (deref h a)).

Definition stitching_error : Exception :=
  MBuildError "Unable to find matching particle image while stitching bonds.".

Definition matches (h : Store) (match_ particle : addr) : bool :=
  index_eqb (index (deref h particle)) (index (deref h match_)).

(** The order of the ranking. *)
Definition nearer (x y : dist * nat) : Prop := dist_le (fst x) (fst y) = true.

(** A bond is rewired when both tests of the scan pass. *)
Definition rewired (h : Store) (slf : Compound)
  (pbs : list (option nat * option nat)) (thresh : ext) (b : bond) : Prop :=
  in_periodic_bonds h pbs b = true /\ too_long h slf thresh b = true.

(** A store keeps the cells of an earlier one when these are still there
    with the position and the port flag they had. *)
Definition keeps (h h' : Store) : Prop :=
  (List.length h <= List.length h')%nat
  /\ forall a, (a < List.length h)%nat ->
       pos (deref h' a) = pos (deref h a)
       /\ port_particle (deref h' a) = port_particle (deref h a).

(** A particle moved by a vector. *)
Definition moved (by_ : vec3) (p : Particle) : Particle :=
  set_pos (vadd (pos p) by_) p.

(** The block of cells one pass of the replication loop appends. *)
Definition block (s : State) (ijk : int3) : Store :=
  map (moved (np_multiply ijk (lengths (the_box (tile s)))))
      (map (deref (heap s)) (particle_refs (tile s))).

(** Where [clone] sends a particle of the tile when the copies start at
    [base]: the memo of the deep copy, read at one address. *)
Definition relocate (refs : list addr) (base : nat) (a : addr) : addr :=
  rename (combine refs (seq base (List.length refs))) a.

(** The first address of the block of copies number [c] of a tiling. *)
Definition block_base (h : Store) (t : Compound) (c : nat) : nat :=
  (List.length h + c * List.length (particle_refs t))%nat.

(** The default name of line 46. *)
Definition default_name (t : Compound) (n_tiles : int3) : string :=
  let '(x, y, z) := n_tiles in
  (name t ++ str x ++ "-" ++ str y ++ "-" ++ str z)%string.

(** Two pairs of template indices that agree up to their order. *)
Definition same_index_pair (a b : option nat * option nat) : Prop :=
  a = b \/ a = (snd b, fst b).

(** A tile whose particles are distinct cells of the store and whose bonds
    join particles of the tile. *)
Definition well_formed (h : Store) (t : Compound) : Prop :=
  NoDup (particle_refs t)
  /\ Forall (fun a => (a < List.length h)%nat) (particle_refs t)
  /\ Forall (fun b => In (fst b) (particle_refs t)
                      /\ In (snd b) (particle_refs t)) (bond_graph t).

(** No bond is queued in both orientations. *)
Definition one_way (adds : list bond) : Prop :=
  forall a b : addr, In (a, b) adds -> a <> b -> ~ In (b, a) adds.

(** A string without the character [-]. *)
Fixpoint no_dash (s : string) : Prop :=
  match s with
  | EmptyString => True
  | String c r => c <> "-"%char /\ no_dash r
  end.

(* ------------------------------------------------------------------ *)
(** ** Small tiles *)
(* ------------------------------------------------------------------ *)

Module Example.

Definition cube : Box := mkBox (10, 10, 10) (90, 90, 90).

(** Two particles. *)
Definition two (a b : vec3) : Store :=
  [mkParticle a None false; mkParticle b None false].

(** A tile of two bonded particles. *)
Definition dimer (per : flags3) (bx : option Box) : Compound :=
  mkCompound "T" [0; 1]%nat [(0, 1)%nat] [] per bx [] None.

(** A bond across the face of the cube: its ends are 8 apart, and 2 apart
    through the face. *)
Definition across : Store := two (1, 0, 0) (9, 0, 0).

(** A bond along the diagonal: its ends are [sqrt 48] apart, through the
    faces as well, which is more than half the edge of the cube. *)
Definition diagonal : Store := two (0, 0, 0) (4, 4, 4).

(** A bond inside the cube: its ends are 2 apart. *)
Definition inside : Store := two (1, 0, 0) (3, 0, 0).

(** Two particles that span a box of lengths (8, 4, 2). *)
Definition slanted : Store := two (1, 1, 1) (9, 5, 3).

Definition periodic : Compound := dimer (true, true, true) (Some cube).
Definition boxless : Compound := dimer (false, false, false) None.

Definition once : int3 := (1, 1, 1)%Z.
Definition twice : int3 := (2, 1, 1)%Z.
Definition eightfold : int3 := (2, 2, 2)%Z.

(** [k=2] and [k=1]. *)
Definition narrow : list (string * nat) := [("k"%string, 2%nat)].
Definition single : list (string * nat) := [("k"%string, 1%nat)].

(** The bond across the face, tiled twice along x, as the scan finds it. *)
Definition scene : State := stitching across periodic twice None.
Definition scene_tree : PeriodicKDTree :=
  from_compound (heap scene) (self scene).
Definition scene_particles : list addr :=
  particles false (heap scene) (self scene).

End Example.

(* ------------------------------------------------------------------ *)
(** ** Numbers and sorting *)
(* ------------------------------------------------------------------ *)

Local Open Scope nat_scope.

Lemma Qlt_bool_iff (a b : Q) : Qlt_bool a b = true <-> (a < b)%Q.
Proof.
  unfold Qlt_bool. rewrite negb_true_iff. split; intro H.
  - apply Qnot_le_lt. intro C. apply Qle_bool_iff in C. congruence.
  - destruct (Qle_bool b a) eqn:E; [|reflexivity].
    apply Qle_bool_iff in E. exfalso. exact (Qlt_not_le _ _ H E).
Qed.

Lemma Qle_bool_false (a b : Q) : Qle_bool a b = false -> (b <= a)%Q.
Proof.
  intro H. apply Qlt_le_weak. apply Qlt_bool_iff.
  unfold Qlt_bool. now rewrite H.
Qed.

Lemma dist_le_refl (a : dist) : dist_le a a = true.
Proof. apply Qle_bool_iff. apply Qle_refl. Qed.

Lemma dist_le_trans (a b c : dist) :
  dist_le a b = true -> dist_le b c = true -> dist_le a c = true.
Proof.
  unfold dist_le. rewrite !Qle_bool_iff. apply Qle_trans.
Qed.

Lemma dist_le_total (a b : dist) : dist_le a b = false -> dist_le b a = true.
Proof.
  unfold dist_le. intro H. apply Qle_bool_iff. now apply Qle_bool_false.
Qed.

Lemma In_insert_by_dist (e x : dist * nat) (l : list (dist * nat)) :
  In x (insert_by_dist e l) <-> x = e \/ In x l.
Proof.
  induction l as [|y l IH]; simpl.
  - intuition congruence.
  - destruct (dist_le (fst e) (fst y)); simpl.
    + intuition congruence.
    + rewrite IH. intuition congruence.
Qed.

Lemma In_sort_by_dist (x : dist * nat) (l : list (dist * nat)) :
  In x (sort_by_dist l) <-> In x l.
Proof.
  induction l as [|y l IH]; simpl; [tauto|].
  rewrite In_insert_by_dist, IH. intuition congruence.
Qed.

Lemma insert_by_dist_sorted (e : dist * nat) (l : list (dist * nat)) :
  StronglySorted nearer l -> StronglySorted nearer (insert_by_dist e l).
Proof.
  induction 1 as [|y l Hs IH Hall]; simpl.
  - constructor; constructor.
  - destruct (dist_le (fst e) (fst y)) eqn:E.
    + constructor; [constructor; assumption|].
      constructor; [exact E|].
      rewrite Forall_forall in *. intros z Hz.
      unfold nearer. eapply dist_le_trans; [exact E|]. now apply Hall.
    + constructor; [assumption|].
      rewrite Forall_forall in *. intros z Hz.
      apply In_insert_by_dist in Hz. destruct Hz as [-> | Hz].
      * now apply dist_le_total.
      * now apply Hall.
Qed.

Lemma sort_by_dist_sorted (l : list (dist * nat)) :
  StronglySorted nearer (sort_by_dist l).
Proof.
  induction l; simpl; [constructor|]. now apply insert_by_dist_sorted.
Qed.

Lemma In_combine_seq {A B : Type} (f : A -> B) (l : list A) (s i : nat)
  (y : B) :
  In (y, i) (combine (map f l) (seq s (List.length l))) <->
  exists v, s <= i /\ nth_error l (i - s) = Some v /\ y = f v.
Proof.
  revert s. induction l as [|x l IH]; intro s; simpl.
  - split; [tauto|]. intros (v & _ & H & _).
    destruct (i - s)%nat; discriminate.
  - rewrite IH. split.
    + intros [H|(v & Hle & Hn & ->)].
      * injection H as <- <-. exists x. rewrite Nat.sub_diag. auto.
      * exists v. split; [lia|]. split; [|reflexivity].
        replace (i - s)%nat with (S (i - S s)) by lia. exact Hn.
    + intros (v & Hle & Hn & ->).
      destruct (Nat.eq_dec s i) as [->|Hne].
      * left. rewrite Nat.sub_diag in Hn. simpl in Hn. congruence.
      * right. exists v. split; [lia|]. split; [|reflexivity].
        replace (i - s)%nat with (S (i - S s)) in Hn by lia. exact Hn.
Qed.

(** Every entry of the ranking is a point of the tree with its distance. *)
Lemma In_ranked (t : PeriodicKDTree) (x : vec3) (d : dist) (i : nat) :
  In (d, i) (ranked t x) <->
  exists v, nth_error (data t) i = Some v
            /\ d = periodic_distance (wraps t) (bounds t) x v.
Proof.
  unfold ranked. rewrite In_sort_by_dist, In_combine_seq.
  rewrite Nat.sub_0_r. split.
  - intros (v & _ & H1 & H2). eauto.
  - intros (v & H1 & H2). exists v. auto with arith.
Qed.

Lemma ranked_sorted (t : PeriodicKDTree) (x : vec3) :
  StronglySorted nearer (ranked t x).
Proof. apply sort_by_dist_sorted. Qed.

Lemma StronglySorted_firstn {A : Type} (R : A -> A -> Prop) (k : nat)
  (l : list A) :
  StronglySorted R l -> StronglySorted R (firstn k l).
Proof.
  intro H. revert k. induction H as [|x l Hs IH Hall]; intro k.
  - rewrite firstn_nil. constructor.
  - destruct k; simpl; constructor; [apply IH|].
    rewrite Forall_forall in *. intros y Hy. apply Hall.
    rewrite <- (firstn_skipn k l). apply in_or_app. now left.
Qed.

Lemma StronglySorted_map_fst (l : list (dist * nat)) :
  StronglySorted nearer l ->
  StronglySorted (fun a b => dist_le a b = true) (map fst l).
Proof.
  induction 1 as [|x l Hs IH Hall]; simpl; constructor; [assumption|].
  rewrite Forall_forall in *. intros d Hd.
  apply in_map_iff in Hd. destruct Hd as (y & <- & Hy). now apply Hall.
Qed.

(** In a sorted list, the first entry that passes a test comes no later
    than any other entry that passes it. *)
Lemma find_sorted_least (P : dist * nat -> bool) (l : list (dist * nat))
  (e : dist * nat) :
  StronglySorted nearer l -> find P l = Some e ->
  forall e', In e' l -> P e' = true -> nearer e e'.
Proof.
  induction 1 as [|x l Hs IH Hall]; simpl; [discriminate|].
  intros Hf e' Hin HP. destruct (P x) eqn:Px.
  - injection Hf as <-. destruct Hin as [<-|Hin].
    + apply dist_le_refl.
    + rewrite Forall_forall in Hall. now apply Hall.
  - destruct Hin as [<-|Hin]; [congruence|]. now apply IH.
Qed.

Lemma find_firstn {A : Type} (P : A -> bool) (k : nat) (l : list A) (e : A) :
  find P (firstn k l) = Some e -> find P l = Some e.
Proof.
  revert k. induction l as [|x l IH]; intro k.
  - now rewrite firstn_nil.
  - destruct k; simpl; [discriminate|].
    destruct (P x); [auto|]. apply IH.
Qed.

Lemma find_map_inv {A B : Type} (P : B -> bool) (g : A -> B) (l : list A)
  (y : B) :
  find P (map g l) = Some y ->
  exists x, find (fun x => P (g x)) l = Some x /\ g x = y.
Proof.
  induction l as [|x l IH]; simpl; [discriminate|].
  destruct (P (g x)).
  - intro H. injection H as <-. eauto.
  - exact IH.
Qed.

Lemma find_split {A : Type} (P : A -> bool) (l : list A) (x : A) :
  find P l = Some x ->
  exists pre post, l = pre ++ x :: post
                   /\ Forall (fun y => P y = false) pre /\ P x = true.
Proof.
  induction l as [|y l IH]; simpl; [discriminate|].
  destruct (P y) eqn:Py.
  - intro H. injection H as <-. exists [], l. auto.
  - intro H. destruct (IH H) as (pre & post & -> & Hpre & Hx).
    exists (y :: pre), post. auto.
Qed.

Lemma find_none_Forall {A : Type} (P : A -> bool) (l : list A) :
  find P l = None -> Forall (fun y => P y = false) l.
Proof.
  induction l as [|y l IH]; simpl; [constructor|].
  destruct (P y) eqn:Py; [discriminate|]. auto.
Qed.

Lemma take_map (all_particles : list addr) (idxs : list nat)
  (ns : list addr) :
  take all_particles idxs = Some ns ->
  ns = map (fun i => nth i all_particles 0) idxs
  /\ Forall (fun i => i < List.length all_particles) idxs.
Proof.
  revert ns. induction idxs as [|i idxs IH]; simpl; intros ns H.
  - injection H as <-. auto.
  - destruct (nth_error all_particles i) as [a|] eqn:Ha; [|discriminate].
    destruct (take all_particles idxs) as [r|]; [|discriminate].
    injection H as <-. destruct (IH r eq_refl) as [-> Hall]. split.
    + f_equal. symmetry. now apply nth_error_nth.
    + constructor; [|assumption]. apply nth_error_Some. congruence.
Qed.

Lemma take_total (all_particles : list addr) (idxs : list nat) :
  Forall (fun i => i < List.length all_particles) idxs ->
  exists ns, take all_particles idxs = Some ns.
Proof.
  induction 1 as [|i idxs Hi _ [r IH]]; simpl; [eauto|].
  destruct (nth_error all_particles i) eqn:Ha.
  - rewrite IH. eauto.
  - apply nth_error_None in Ha. lia.
Qed.

Lemma take_length (all_particles : list addr) (idxs : list nat)
  (ns : list addr) :
  take all_particles idxs = Some ns -> List.length ns = List.length idxs.
Proof.
  intro H. apply take_map in H. destruct H as [-> _]. apply length_map.
Qed.

(** The positions the tree returns are positions of [data]. *)
Lemma query_in_range (t : PeriodicKDTree) (x : vec3) (k : nat) :
  Forall (fun i => i < List.length (data t)) (snd (query t x k)).
Proof.
  unfold query. simpl. rewrite Forall_forall. intros i Hi.
  apply in_map_iff in Hi. destruct Hi as ([d j] & <- & Hin). simpl.
  assert (Hr : In (d, j) (ranked t x)).
  { rewrite <- (firstn_skipn k (ranked t x)). apply in_or_app. now left. }
  apply In_ranked in Hr. destruct Hr as (v & Hv & _).
  apply nth_error_Some. congruence.
Qed.

Lemma query_length (t : PeriodicKDTree) (x : vec3) (k : nat) :
  List.length (snd (query t x k)) <= k.
Proof.
  unfold query. simpl. rewrite length_map. apply firstn_le_length.
Qed.

(** The distances the tree returns are in ascending order. *)
Lemma query_ascending (t : PeriodicKDTree) (x : vec3) (k : nat) :
  StronglySorted (fun a b => dist_le a b = true) (fst (query t x k)).
Proof.
  unfold query. simpl. apply StronglySorted_map_fst.
  apply StronglySorted_firstn. apply ranked_sorted.
Qed.

(** What an image search returns, in terms of the neighbours retrieved. *)
Lemma find_particle_image_cases (h : Store) (slf : Compound)
  (t : PeriodicKDTree) (q m : addr) (all_particles : list addr)
  (kwargs : list (string * nat)) (neighbors : list addr) :
  particle_kdtree slf = Some t ->
  retrieved t h q all_particles kwargs = Some neighbors ->
  _find_particle_image h slf q m all_particles kwargs =
  match find (matches h m) neighbors with
  | Some particle => inr particle
  | None => inl stitching_error
  end.
Proof.
  unfold _find_particle_image, retrieved. intros -> H.
  destruct (query t (pos (deref h q)) (kwargs_get "k" 10 kwargs))
    as [ds idxs]. simpl in H. rewrite H. reflexivity.
Qed.

Lemma length_insert_by_dist (e : dist * nat) (l : list (dist * nat)) :
  List.length (insert_by_dist e l) = S (List.length l).
Proof.
  induction l as [|x l IH]; simpl; [reflexivity|].
  destruct (dist_le (fst e) (fst x)); simpl; [reflexivity|]. now rewrite IH.
Qed.

Lemma length_ranked (t : PeriodicKDTree) (x : vec3) :
  List.length (ranked t x) = List.length (data t).
Proof.
  unfold ranked, sort_by_dist.
  set (l := combine _ _).
  assert (E : List.length l = List.length (data t)).
  { unfold l. rewrite length_combine, length_map, length_seq.
    apply Nat.min_id. }
  rewrite <- E. clear E. induction l as [|e l IH]; simpl; [reflexivity|].
  now rewrite length_insert_by_dist, IH.
Qed.

Lemma StronglySorted_app_inv {A : Type} (R : A -> A -> Prop)
  (l1 l2 : list A) :
  StronglySorted R (l1 ++ l2) ->
  forall x y, In x l1 -> In y l2 -> R x y.
Proof.
  induction l1 as [|z l1 IH]; simpl; intros Hs x y Hx Hy; [contradiction|].
  inversion Hs as [|? ? Hs' Hall]; subst. destruct Hx as [<-|Hx].
  - rewrite Forall_forall in Hall. apply Hall. apply in_or_app. now right.
  - now apply IH.
Qed.

Lemma find_none_of_Forall {A : Type} (P : A -> bool) (l : list A) :
  Forall (fun y => P y = false) l -> find P l = None.
Proof.
  induction 1 as [|y l Hy _ IH]; simpl; [reflexivity|]. now rewrite Hy.
Qed.

Section ImageSearch.

Variables (h : Store) (t : PeriodicKDTree) (all_particles : list addr).
Hypothesis tree_of_particles :
  data t = map (fun a => pos (deref h a)) all_particles.

Lemma ranked_entry (x : vec3) (e : dist * nat) :
  In e (ranked t x) ->
  fst e = tree_distance t h x (nth (snd e) all_particles 0)
  /\ snd e < List.length all_particles.
Proof.
  destruct e as [d i]. intro H. apply In_ranked in H.
  destruct H as (v & Hv & ->). rewrite tree_of_particles in Hv.
  rewrite nth_error_map in Hv.
  destruct (nth_error all_particles i) as [a|] eqn:Ha; [|discriminate].
  injection Hv as <-. simpl. split.
  - unfold tree_distance. do 3 f_equal. symmetry. now apply nth_error_nth.
  - apply nth_error_Some. congruence.
Qed.

Lemma particle_ranked (x : vec3) (a : addr) :
  In a all_particles ->
  exists j, nth j all_particles 0 = a
            /\ In (tree_distance t h x a, j) (ranked t x).
Proof.
  intro H. apply In_nth_error in H. destruct H as [j Hj]. exists j.
  split; [now apply nth_error_nth|]. apply In_ranked.
  exists (pos (deref h a)). split; [|reflexivity].
  rewrite tree_of_particles, nth_error_map, Hj. reflexivity.
Qed.

Lemma retrieved_total (q : addr) (kwargs : list (string * nat)) :
  exists neighbors, retrieved t h q all_particles kwargs = Some neighbors.
Proof.
  unfold retrieved. apply take_total.
  replace (List.length all_particles) with (List.length (data t)).
  - apply query_in_range.
  - rewrite tree_of_particles. apply length_map.
Qed.

Lemma retrieved_distances (q : addr) (kwargs : list (string * nat))
  (neighbors : list addr) :
  retrieved t h q all_particles kwargs = Some neighbors ->
  map (tree_distance t h (pos (deref h q))) neighbors
  = fst (query t (pos (deref h q)) (kwargs_get "k" 10 kwargs)).
Proof.
  unfold retrieved. intro H. apply take_map in H. destruct H as [-> _].
  unfold query. simpl. rewrite !map_map. apply map_ext_in.
  intros e He. symmetry. apply ranked_entry.
  rewrite <- (firstn_skipn (kwargs_get "k" 10 kwargs) (ranked t _)).
  apply in_or_app. now left.
Qed.

(** The neighbours retrieved are the particles at the first [k] positions
    of the ranking. *)
Lemma retrieved_k_nearest (q : addr) (kwargs : list (string * nat)) :
  retrieved t h q all_particles kwargs
  = Some (k_nearest t h q all_particles kwargs).
Proof.
  destruct (retrieved_total q kwargs) as [ns Hns]. rewrite Hns. f_equal.
  unfold retrieved in Hns. apply take_map in Hns. destruct Hns as [-> _].
  reflexivity.
Qed.

Lemma k_nearest_length (q : addr) (kwargs : list (string * nat)) :
  List.length (k_nearest t h q all_particles kwargs)
  = Nat.min (kwargs_get "k" 10 kwargs) (List.length all_particles).
Proof.
  unfold k_nearest. rewrite !length_map, length_firstn, length_ranked.
  now rewrite tree_of_particles, length_map.
Qed.

(** A particle that is not retrieved is no nearer than one that is. *)
Lemma k_nearest_closest (q : addr) (kwargs : list (string * nat))
  (a b : addr) :
  In a (k_nearest t h q all_particles kwargs) ->
  In b all_particles ->
  ~ In b (k_nearest t h q all_particles kwargs) ->
  dist_le (tree_distance t h (pos (deref h q)) a)
          (tree_distance t h (pos (deref h q)) b) = true.
Proof.
  unfold k_nearest. set (x := pos (deref h q)).
  set (k := kwargs_get "k" 10 kwargs). intros Ha Hb Hnot.
  rewrite map_map in Ha, Hnot.
  apply in_map_iff in Ha. destruct Ha as (e & <- & He).
  destruct (particle_ranked x b Hb) as (j & Hj & Hin).
  rewrite <- (firstn_skipn k (ranked t x)) in Hin.
  apply in_app_or in Hin. destruct Hin as [Hin|Hin].
  { exfalso. apply Hnot. apply in_map_iff.
    exists (tree_distance t h x b, j). auto. }
  pose proof (ranked_sorted t x) as Hs.
  rewrite <- (firstn_skipn k (ranked t x)) in Hs.
  pose proof (@StronglySorted_app_inv _ _ _ _ Hs e _ He Hin) as Hn.
  unfold nearer in Hn. simpl in Hn.
  assert (Hr : In e (ranked t x)).
  { rewrite <- (firstn_skipn k (ranked t x)). apply in_or_app. now left. }
  apply ranked_entry in Hr. destruct Hr as [Hr _]. now rewrite <- Hr.
Qed.

End ImageSearch.

(** C10: the image search returns the first of the retrieved neighbours,
    which come in ascending distance, whose template index is that of
    [match]; no particle of the structure with that template index is
    nearer to the query under the periodic metric of the tree. *)
Theorem find_image_returns_nearest (h : Store) (slf : Compound)
  (t : PeriodicKDTree) (q m : addr) (all_particles : list addr)
  (kwargs : list (string * nat)) (p : addr) :
  particle_kdtree slf = Some t ->
  data t = map (fun a => pos (deref h a)) all_particles ->
  _find_particle_image h slf q m all_particles kwargs = inr p ->
  exists neighbors pre post,
    retrieved t h q all_particles kwargs = Some neighbors
    /\ StronglySorted (fun a b => dist_le a b = true)
         (map (tree_distance t h (pos (deref h q))) neighbors)
    /\ neighbors = pre ++ p :: post
    /\ Forall (fun a => matches h m a = false) pre
    /\ matches h m p = true
    /\ forall a, In a all_particles -> matches h m a = true ->
         dist_le (tree_distance t h (pos (deref h q)) p)
                 (tree_distance t h (pos (deref h q)) a) = true.
Proof.
  intros Ht Hd Hf.
  destruct (retrieved_total h t all_particles Hd q kwargs) as [ns Hns].
  rewrite (find_particle_image_cases h slf q m all_particles kwargs Ht Hns)
    in Hf.
  destruct (find (matches h m) ns) as [p'|] eqn:Hfind; [|discriminate].
  injection Hf as ->.
  destruct (find_split _ _ Hfind) as (pre & post & Hsplit & Hpre & Hp).
  exists ns, pre, post. split; [exact Hns|]. split.
  { rewrite (retrieved_distances h t all_particles Hd q kwargs Hns).
    apply query_ascending. }
  split; [exact Hsplit|]. split; [exact Hpre|]. split; [exact Hp|].
  intros a Ha Hm.
  set (x := pos (deref h q)) in *.
  unfold retrieved in Hns. apply take_map in Hns. destruct Hns as [Hns _].
  unfold query in Hns. simpl in Hns. rewrite map_map in Hns.
  rewrite Hns in Hfind. apply find_map_inv in Hfind.
  destruct Hfind as (e & He & Hge). apply find_firstn in He.
  destruct (particle_ranked h t all_particles Hd x a Ha) as (j & Hj & Hin).
  assert (Hn : nearer e (tree_distance t h x a, j)).
  { eapply find_sorted_least; [apply ranked_sorted|exact He|exact Hin|].
    simpl. now rewrite Hj. }
  apply find_some in He. destruct He as [He _].
  apply (ranked_entry h t all_particles Hd) in He. destruct He as [He _].
  unfold nearer in Hn. simpl in Hn. rewrite He, Hge in Hn. exact Hn.
Qed.

(* ------------------------------------------------------------------ *)
(** ** The comparisons are those of the real distances *)
(* ------------------------------------------------------------------ *)

Lemma Q2R_0 : Q2R 0 = 0%R.
Proof. unfold Q2R. simpl. lra. Qed.

Lemma sum_sq_nonneg (v : vec3) : (0 <= sum_sq v)%Q.
Proof.
  destruct v as [[x y] z]. unfold sum_sq.
  assert (S : forall a : Q, (0 <= Q2R (a * a))%R).
  { intro a. rewrite Q2R_mult. apply Rle_0_sqr. }
  pose proof (S x). pose proof (S y). pose proof (S z).
  apply Rle_Qle. rewrite !Q2R_plus, Q2R_0. lra.
Qed.

Lemma dist_gt_sqrt (r t : Q) :
  (0 <= r)%Q ->
  dist_gt (Sqrt r) (Fin t) = true <-> (Q2R t < sqrt (Q2R r))%R.
Proof.
  intro Hr. apply Qle_Rle in Hr. rewrite Q2R_0 in Hr.
  unfold dist_gt. simpl. rewrite orb_true_iff, !Qlt_bool_iff. split.
  - intros [H|H].
    + apply Qlt_Rlt in H. rewrite Q2R_0 in H.
      pose proof (sqrt_pos (Q2R r)). lra.
    + apply Qlt_Rlt in H. rewrite Q2R_mult in H.
      destruct (Rlt_le_dec (Q2R t) 0) as [Hn|Hp].
      * pose proof (sqrt_pos (Q2R r)). lra.
      * rewrite <- (sqrt_square (Q2R t)) by exact Hp.
        apply sqrt_lt_1; [nra|lra|exact H].
  - intro H. destruct (Qlt_le_dec t 0) as [Hn|Hp]; [now left|right].
    apply Rlt_Qlt. rewrite Q2R_mult. apply Qle_Rle in Hp.
    rewrite Q2R_0 in Hp.
    rewrite <- (sqrt_sqrt (Q2R r)) by exact Hr. nra.
Qed.

Lemma dist_le_sqrt (a b : Q) :
  (0 <= a)%Q -> (0 <= b)%Q ->
  dist_le (Sqrt a) (Sqrt b) = true <-> (sqrt (Q2R a) <= sqrt (Q2R b))%R.
Proof.
  intros Ha Hb. apply Qle_Rle in Ha, Hb. rewrite Q2R_0 in Ha, Hb.
  unfold dist_le. simpl. rewrite Qle_bool_iff. split.
  - intro H. apply Qle_Rle in H. now apply sqrt_le_1.
  - intro H. apply Rle_Qle. now apply sqrt_le_0.
Qed.

(** The test of line 89: the norm of the difference exceeds the cutoff. *)
Lemma raw_length_gt (h : Store) (b : bond) (t : Q) :
  dist_gt (raw_length h b) (Fin t) = true
  <-> (Q2R t < sqrt (Q2R (radicand (raw_length h b))))%R.
Proof. apply dist_gt_sqrt. apply sum_sq_nonneg. Qed.

Lemma min_periodic_distance_nonneg (slf : Compound) (p q : vec3) :
  (0 <= radicand (min_periodic_distance slf p q))%Q.
Proof.
  unfold min_periodic_distance. destruct (box slf) as [b|].
  - destruct (periodicity slf) as [[px py] pz],
      (lengths b) as [[lx ly] lz], p as [[x y] z], q as [[u v] w].
    exact (sum_sq_nonneg (image_delta px lx x u, image_delta py ly y v,
                          image_delta pz lz z w)).
  - apply sum_sq_nonneg.
Qed.

(** The test of line 110: the minimum-image distance exceeds the cutoff. *)
Lemma too_long_gt (h : Store) (slf : Compound) (b : bond) (t : Q) :
  too_long h slf (Fin t) b = true
  <-> (Q2R t < sqrt (Q2R (radicand
         (min_periodic_distance slf (pos (deref h (fst b)))
                                (pos (deref h (snd b)))))))%R.
Proof.
  unfold too_long.
  pose proof (min_periodic_distance_nonneg slf (pos (deref h (fst b)))
                (pos (deref h (snd b)))) as H.
  destruct (min_periodic_distance slf _ _) as [r]. simpl in *.
  now apply dist_gt_sqrt.
Qed.

(* ------------------------------------------------------------------ *)
(** ** The bond graph *)
(* ------------------------------------------------------------------ *)

Lemma same_bond_refl (b : bond) : same_bond b b = true.
Proof. unfold same_bond. now rewrite !Nat.eqb_refl. Qed.

Lemma same_bond_cases (a b : bond) :
  same_bond a b = true <-> a = b \/ a = (snd b, fst b).
Proof.
  destruct a as [a1 a2], b as [b1 b2]. unfold same_bond. simpl.
  rewrite orb_true_iff, !andb_true_iff, !Nat.eqb_eq.
  split; intros [H|H]; [left|right|left|right];
    solve [destruct H; congruence | injection H; auto].
Qed.

Lemma same_bond_swap (p q : addr) : same_bond (p, q) (q, p) = true.
Proof. apply same_bond_cases. now right. Qed.

Lemma bond_eqb_eq (a b : bond) : bond_eqb a b = true <-> a = b.
Proof.
  destruct a, b. unfold bond_eqb. simpl.
  rewrite andb_true_iff, !Nat.eqb_eq. split; [intros []|intro H; injection H];
    intros; subst; auto.
Qed.

Lemma set_mem_bond (x : bond) (s : list bond) :
  set_mem bond_eqb x s = true <-> In x s.
Proof.
  unfold set_mem. rewrite existsb_exists. split.
  - intros (y & Hy & E). apply bond_eqb_eq in E. now subst.
  - intro H. exists x. split; [assumption|]. now apply bond_eqb_eq.
Qed.

Lemma In_set_add {A : Type} (eqb : A -> A -> bool) (x y : A) (s : list A) :
  (forall a b, eqb a b = true -> a = b) ->
  In y (set_add eqb x s) <-> y = x \/ In y s.
Proof.
  intro Heq. unfold set_add. destruct (existsb (eqb x) s) eqn:E.
  - split; [auto|]. intros [-> | H]; [|assumption].
    apply existsb_exists in E. destruct E as (z & Hz & Ez).
    apply Heq in Ez. now subst.
  - rewrite in_app_iff. simpl. intuition congruence.
Qed.

Lemma In_set_add_bond (x y : bond) (s : list bond) :
  In y (set_add bond_eqb x s) <-> y = x \/ In y s.
Proof. apply In_set_add. intros a b. apply bond_eqb_eq. Qed.

Lemma has_edge_In (g : list bond) (b : bond) :
  In b g -> has_edge g b = true.
Proof.
  intro H. apply existsb_exists. exists b. split; [assumption|].
  apply same_bond_refl.
Qed.

Lemma has_edge_In_swap (g : list bond) (p q : addr) :
  In (q, p) g -> has_edge g (p, q) = true.
Proof.
  intro H. apply existsb_exists. exists (q, p). split; [assumption|].
  apply same_bond_swap.
Qed.

Lemma In_add_edge (g : list bond) (x b : bond) :
  In b (add_edge g x) <-> In b g \/ (b = x /\ has_edge g x = false).
Proof.
  unfold add_edge. destruct (has_edge g x).
  - intuition congruence.
  - rewrite in_app_iff. simpl. intuition congruence.
Qed.

Lemma has_edge_add_edge (g : list bond) (x : bond) :
  has_edge (add_edge g x) x = true.
Proof.
  unfold add_edge. destruct (has_edge g x) eqn:E; [assumption|].
  unfold has_edge. rewrite existsb_app. simpl.
  now rewrite same_bond_refl, orb_true_r.
Qed.

Lemma has_edge_add_edge_mono (g : list bond) (x b : bond) :
  has_edge g b = true -> has_edge (add_edge g x) b = true.
Proof.
  unfold add_edge. destruct (has_edge g x); [auto|].
  unfold has_edge. rewrite existsb_app. intros ->. reflexivity.
Qed.

Lemma In_remove_edge (g : list bond) (x b : bond) :
  In b (remove_edge g x) <-> In b g /\ same_bond x b = false.
Proof.
  unfold remove_edge. rewrite filter_In, negb_true_iff. tauto.
Qed.

Lemma In_remove_all (rem g : list bond) (b : bond) :
  In b (fold_left remove_edge rem g) <->
  In b g /\ forall r, In r rem -> same_bond r b = false.
Proof.
  revert g. induction rem as [|x rem IH]; intro g; simpl.
  - intuition.
  - rewrite IH, In_remove_edge. split.
    + intros [[H1 H2] H3]. split; [assumption|].
      intros r [<-|Hr]; auto.
    + intros [H1 H2]. auto.
Qed.

Lemma In_add_all (adds g : list bond) (b : bond) :
  In b (fold_left add_edge adds g) -> In b g \/ In b adds.
Proof.
  revert g. induction adds as [|x adds IH]; intro g; simpl; [auto|].
  intro H. apply IH in H. destruct H as [H|H]; [|auto].
  apply In_add_edge in H. destruct H as [H|[-> _]]; auto.
Qed.

Lemma add_all_keeps (adds g : list bond) (b : bond) :
  In b g -> In b (fold_left add_edge adds g).
Proof.
  revert g. induction adds as [|x adds IH]; intro g; simpl; [auto|].
  intro H. apply IH. apply In_add_edge. now left.
Qed.

Lemma has_edge_add_all_mono (adds g : list bond) (b : bond) :
  has_edge g b = true -> has_edge (fold_left add_edge adds g) b = true.
Proof.
  revert g. induction adds as [|x adds IH]; intro g; simpl; [auto|].
  intro H. apply IH. now apply has_edge_add_edge_mono.
Qed.

Lemma has_edge_add_all (adds g : list bond) (b : bond) :
  has_edge adds b = true -> has_edge (fold_left add_edge adds g) b = true.
Proof.
  revert g. induction adds as [|x adds IH]; intro g; simpl; [discriminate|].
  rewrite orb_true_iff. intros [H|H]; [|now apply IH].
  apply has_edge_add_all_mono.
  apply same_bond_cases in H. destruct H as [-> | ->].
  - apply has_edge_add_edge.
  - pose proof (has_edge_add_edge g x) as E.
    unfold has_edge in *. rewrite existsb_exists in *.
    destruct E as (y & Hy & Ey). exists y. split; [assumption|].
    apply same_bond_cases in Ey. apply same_bond_cases.
    destruct x as [x1 x2], y as [y1 y2]. simpl in *.
    destruct Ey as [Ey|Ey]; injection Ey as E1 E2; subst; auto.
Qed.

Lemma bond_graph_remove_all (rem : list bond) (c : Compound) :
  bond_graph (fold_left remove_bond rem c)
  = fold_left remove_edge rem (bond_graph c).
Proof.
  revert c. induction rem as [|x rem IH]; intro c; simpl; [reflexivity|].
  now rewrite IH.
Qed.

Lemma bond_graph_add_all (adds : list bond) (c : Compound) :
  bond_graph (fold_left add_bond adds c)
  = fold_left add_edge adds (bond_graph c).
Proof.
  revert c. induction adds as [|x adds IH]; intro c; simpl; [reflexivity|].
  now rewrite IH.
Qed.

Lemma particle_refs_remove_all (rem : list bond) (c : Compound) :
  particle_refs (fold_left remove_bond rem c) = particle_refs c.
Proof.
  revert c. induction rem as [|x rem IH]; intro c; simpl; [reflexivity|].
  now rewrite IH.
Qed.

Lemma particle_refs_add_all (adds : list bond) (c : Compound) :
  particle_refs (fold_left add_bond adds c) = particle_refs c.
Proof.
  revert c. induction adds as [|x adds IH]; intro c; simpl; [reflexivity|].
  now rewrite IH.
Qed.

(* ------------------------------------------------------------------ *)
(** ** The two tests do not depend on the orientation of a bond *)
(* ------------------------------------------------------------------ *)

Lemma image_delta_sym (periodic : bool) (L a b : Q) :
  image_delta periodic L a b = image_delta periodic L b a.
Proof. unfold image_delta. now rewrite (Qabs_Qminus a b). Qed.

Lemma periodic_distance_sym (per : flags3) (L p q : vec3) :
  periodic_distance per L p q = periodic_distance per L q p.
Proof.
  destruct per as [[px py] pz], L as [[lx ly] lz], p as [[x y] z],
    q as [[u v] w]. simpl.
  now rewrite (image_delta_sym px lx x u), (image_delta_sym py ly y v),
    (image_delta_sym pz lz z w).
Qed.

Lemma square_diff_sym (x u : Q) :
  ((x - u) * (x - u))%Q = ((u - x) * (u - x))%Q.
Proof.
  destruct x as [xn xd], u as [un ud].
  unfold Qminus, Qplus, Qopp, Qmult. simpl. f_equal.
  - ring.
  - now rewrite (Pos.mul_comm xd ud).
Qed.

Lemma norm_sub_sym (p q : vec3) :
  np_linalg_norm (vsub p q) = np_linalg_norm (vsub q p).
Proof.
  destruct p as [[x y] z], q as [[u v] w]. unfold np_linalg_norm. simpl.
  now rewrite (square_diff_sym x u), (square_diff_sym y v),
    (square_diff_sym z w).
Qed.

Lemma min_periodic_distance_sym (c : Compound) (p q : vec3) :
  min_periodic_distance c p q = min_periodic_distance c q p.
Proof.
  unfold min_periodic_distance. destruct (box c).
  - apply periodic_distance_sym.
  - apply norm_sub_sym.
Qed.

Lemma too_long_swap (h : Store) (slf : Compound) (thresh : ext)
  (p q : addr) :
  too_long h slf thresh (q, p) = too_long h slf thresh (p, q).
Proof.
  unfold too_long. simpl. now rewrite min_periodic_distance_sym.
Qed.

Lemma in_periodic_bonds_swap (h : Store)
  (pbs : list (option nat * option nat)) (p q : addr) :
  in_periodic_bonds h pbs (q, p) = in_periodic_bonds h pbs (p, q).
Proof. unfold in_periodic_bonds. simpl. apply orb_comm. Qed.

Lemma tests_same_bond (h : Store) (slf : Compound)
  (pbs : list (option nat * option nat)) (thresh : ext) (a b : bond) :
  same_bond a b = true ->
  in_periodic_bonds h pbs a = in_periodic_bonds h pbs b
  /\ too_long h slf thresh a = too_long h slf thresh b.
Proof.
  intro H. apply same_bond_cases in H. destruct b as [p q].
  destruct H as [-> | ->]; simpl; [auto|].
  split; [apply in_periodic_bonds_swap|apply too_long_swap].
Qed.

(* ------------------------------------------------------------------ *)
(** ** The scan *)
(* ------------------------------------------------------------------ *)

Section Scan.

Variables (h : Store) (slf : Compound).
Variables (pbs : list (option nat * option nat)) (thresh : ext).
Variables (all_particles : list addr) (kwargs : list (string * nat)).

Local Abbreviation cand := (in_periodic_bonds h pbs).
Local Abbreviation long := (too_long h slf thresh).
Local Abbreviation image := (fun q m : addr =>
  _find_particle_image h slf q m all_particles kwargs).
Local Abbreviation run := (scan h slf pbs thresh all_particles kwargs).
Local Abbreviation rew := (rewired h slf pbs thresh).

Lemma scan_raises (todo rem adds : list bond) (e : Exception) :
  run todo rem adds = inl e ->
  exists b, In b todo /\ rew b
            /\ (image (fst b) (snd b) = inl e
                \/ image (snd b) (fst b) = inl e).
Proof.
  revert rem adds. induction todo as [|[p1 p2] todo IH]; intros rem adds;
    simpl; [discriminate|].
  destruct (cand (p1, p2)) eqn:Hc; simpl.
  2:{ intro H. apply IH in H. destruct H as (b & Hb & Hr). eauto. }
  destruct (long (p1, p2)) eqn:Hl.
  2:{ intro H. apply IH in H. destruct H as (b & Hb & Hr). eauto. }
  destruct (image p1 p2) as [e1|i2] eqn:H1.
  { intro H. injection H as ->. exists (p1, p2). unfold rewired. simpl.
    auto. }
  destruct (image p2 p1) as [e2|i1] eqn:H2.
  { intro H. injection H as ->. exists (p1, p2). unfold rewired. simpl.
    auto. }
  intro H. apply IH in H. destruct H as (b & Hb & Hr). eauto.
Qed.

Lemma scan_must_raise (todo rem adds : list bond) (b : bond) :
  In b todo -> rew b ->
  (exists e, image (fst b) (snd b) = inl e)
  \/ (exists e, image (snd b) (fst b) = inl e) ->
  exists e, run todo rem adds = inl e.
Proof.
  revert rem adds. induction todo as [|[p1 p2] todo IH]; intros rem adds;
    [contradiction|].
  intros Hin [Hc Hl] Hfail. simpl.
  destruct Hin as [<-|Hin].
  - simpl in *. rewrite Hc, Hl. simpl.
    destruct Hfail as [[e He]|[e He]].
    + rewrite He. eauto.
    + destruct (image p1 p2); [eauto|]. rewrite He. eauto.
  - destruct (cand (p1, p2)); simpl; [|apply IH; unfold rewired; auto].
    destruct (long (p1, p2)); [|apply IH; unfold rewired; auto].
    destruct (image p1 p2); [eauto|].
    destruct (image p2 p1); [eauto|].
    apply IH; unfold rewired; auto.
Qed.

Lemma scan_queues (todo rem adds rem' adds' : list bond) :
  run todo rem adds = inr (rem', adds') ->
  (forall b, In b rem' <-> In b rem \/ (In b todo /\ rew b))
  /\ (forall x, In x adds -> In x adds')
  /\ (forall b, In b todo -> rew b ->
        exists image2 image1,
          image (fst b) (snd b) = inr image2
          /\ image (snd b) (fst b) = inr image1
          /\ has_edge adds' (fst b, image2) = true
          /\ has_edge adds' (snd b, image1) = true)
  /\ (forall x, In x adds' ->
        In x adds
        \/ exists b, In b todo /\ rew b
                     /\ (image (fst b) (snd b) = inr (snd x)
                           /\ fst x = fst b
                         \/ image (snd b) (fst b) = inr (snd x)
                            /\ fst x = snd b)).
Proof.
  revert rem adds. induction todo as [|[p1 p2] todo IH]; intros rem adds;
    simpl.
  { intro H. injection H as <- <-. split; [|split; [|split]].
    - intro b. simpl. tauto.
    - auto.
    - intros b [].
    - auto. }
  assert (Skip : run todo rem adds = inr (rem', adds') ->
                 ~ rew (p1, p2) ->
                 (forall b, In b rem' <->
                            In b rem
                            \/ ((p1, p2) = b \/ In b todo) /\ rew b)
                 /\ (forall x, In x adds -> In x adds')
                 /\ (forall b, (p1, p2) = b \/ In b todo -> rew b ->
                       exists image2 image1,
                         image (fst b) (snd b) = inr image2
                         /\ image (snd b) (fst b) = inr image1
                         /\ has_edge adds' (fst b, image2) = true
                         /\ has_edge adds' (snd b, image1) = true)
                 /\ (forall x, In x adds' ->
                       In x adds
                       \/ exists b, ((p1, p2) = b \/ In b todo) /\ rew b
                            /\ (image (fst b) (snd b) = inr (snd x)
                                  /\ fst x = fst b
                                \/ image (snd b) (fst b) = inr (snd x)
                                   /\ fst x = snd b))).
  { intros H Hn. destruct (IH _ _ H) as (R & M & W & O).
    split; [|split; [exact M|split]].
    - intro b. rewrite R. split.
      + intros [Hb|[Hb Hr]]; auto.
      + intros [Hb|[[<-|Hb] Hr]]; auto. contradiction.
    - intros b [<-|Hb] Hr; [contradiction|]. now apply W.
    - intros x Hx. destruct (O x Hx) as [Hx'|(b & Hb & Hr)]; [auto|].
      right. exists b. tauto. }
  destruct (cand (p1, p2)) eqn:Hc; simpl.
  2:{ intro H. apply Skip; [exact H|]. intros [C _]. congruence. }
  destruct (long (p1, p2)) eqn:Hl.
  2:{ intro H. apply Skip; [exact H|]. intros [_ C]. congruence. }
  clear Skip.
  destruct (image p1 p2) as [e1|i2] eqn:H1; [discriminate|].
  destruct (image p2 p1) as [e2|i1] eqn:H2; [discriminate|].
  set (adds1 := if negb (set_mem bond_eqb (i2, p1) adds)
                then set_add bond_eqb (p1, i2) adds else adds).
  set (adds2 := if negb (set_mem bond_eqb (i1, p2) adds1)
                then set_add bond_eqb (p2, i1) adds1 else adds1).
  intro H. destruct (IH _ _ H) as (R & M & W & O).
  assert (M1 : forall x, In x adds -> In x adds1).
  { intros x Hx. unfold adds1.
    destruct (negb (set_mem bond_eqb (i2, p1) adds)); [|assumption].
    apply In_set_add_bond. now right. }
  assert (M2 : forall x, In x adds1 -> In x adds2).
  { intros x Hx. unfold adds2.
    destruct (negb (set_mem bond_eqb (i1, p2) adds1)); [|assumption].
    apply In_set_add_bond. now right. }
  assert (E1 : In (p1, i2) adds1 \/ In (i2, p1) adds1).
  { unfold adds1. destruct (set_mem bond_eqb (i2, p1) adds) eqn:E; simpl.
    - right. now apply set_mem_bond.
    - left. apply In_set_add_bond. now left. }
  assert (E2 : In (p2, i1) adds2 \/ In (i1, p2) adds2).
  { unfold adds2. destruct (set_mem bond_eqb (i1, p2) adds1) eqn:E; simpl.
    - right. now apply set_mem_bond.
    - left. apply In_set_add_bond. now left. }
  assert (Hr : rew (p1, p2)) by (split; assumption).
  split; [|split; [|split]].
  - intro b. rewrite R, In_set_add_bond. split.
    + intros [[-> | Hb]|[Hb Hrb]]; auto.
    + intros [Hb|[[<-|Hb] Hrb]]; auto.
  - intros x Hx. apply M, M2, M1, Hx.
  - intros b [<-|Hb] Hrb; [|now apply W]. simpl.
    exists i2, i1. split; [assumption|]. split; [assumption|]. split.
    + destruct E1 as [E|E]; apply M2, M in E.
      * now apply has_edge_In.
      * now apply has_edge_In_swap.
    + destruct E2 as [E|E]; apply M in E.
      * now apply has_edge_In.
      * now apply has_edge_In_swap.
  - intros x Hx. destruct (O x Hx) as [Hx'|(b & Hb & Hrb & Hi)].
    + unfold adds2 in Hx'.
      destruct (negb (set_mem bond_eqb (i1, p2) adds1)).
      * apply In_set_add_bond in Hx'. destruct Hx' as [-> | Hx'].
        { right. exists (p1, p2). simpl. auto. }
        unfold adds1 in Hx'.
        destruct (negb (set_mem bond_eqb (i2, p1) adds)); [|auto].
        apply In_set_add_bond in Hx'. destruct Hx' as [-> | Hx']; [|auto].
        right. exists (p1, p2). simpl. auto.
      * unfold adds1 in Hx'.
        destruct (negb (set_mem bond_eqb (i2, p1) adds)); [|auto].
        apply In_set_add_bond in Hx'. destruct Hx' as [-> | Hx']; [|auto].
        right. exists (p1, p2). simpl. auto.
    + right. exists b. auto.
Qed.

End Scan.

(* ------------------------------------------------------------------ *)
(** ** The constructor, phase by phase *)
(* ------------------------------------------------------------------ *)

Lemma init_repairs (h : Store) (t : Compound) (n_tiles : int3)
  (nm : option string) (kwargs : list (string * nat)) :
  raised (prepare h t n_tiles nm) = None -> all_ones n_tiles = false ->
  TiledCompound_init h t n_tiles nm kwargs
  = repair (replicated h t n_tiles nm) kwargs.
Proof.
  intros Hp Ho. unfold TiledCompound_init, replicated.
  now rewrite Hp, Ho.
Qed.

Lemma repair_scanned (s : State) (kwargs : list (string * nat)) :
  repair s kwargs =
  match scanned (indexed s) kwargs with
  | inl e => mkOutcome (indexed s) (Some e)
  | inr (bonds_to_remove, bonds_to_add) =>
      let slf3 := fold_left add_bond bonds_to_add
                    (fold_left remove_bond bonds_to_remove
                               (self (indexed s))) in
      mkOutcome
        (mkState (clear_indices (heap s) (particles true (heap s) slf3))
                 (tile s) (with_particle_kdtree slf3 None))
        None
  end.
Proof. reflexivity. Qed.

Lemma rewired_tests (s : State) (b : bond) :
  rewired (heap s) (self s) (bond_set s) (cutoff s) b
  <-> candidate s b = true /\ stretched s b = true.
Proof. reflexivity. Qed.

(** In the state of the scan the tree indexes the particles searched, so
    an image search either returns a particle or raises the stitching
    error. *)
Lemma find_image_indexed (s : State) (kwargs : list (string * nat))
  (q m : addr) :
  exists neighbors,
    retrieved (from_compound (heap s) (self s)) (heap s) q
              (particles false (heap s) (self s)) kwargs = Some neighbors
    /\ find_image (indexed s) kwargs q m =
       match find (matches (heap s) m) neighbors with
       | Some particle => inr particle
       | None => inl stitching_error
       end.
Proof.
  destruct (retrieved_total (heap s) (from_compound (heap s) (self s))
              (particles false (heap s) (self s)) eq_refl q kwargs)
    as [ns Hns].
  exists ns. split; [exact Hns|].
  unfold find_image.
  apply (find_particle_image_cases (heap s) (self (indexed s)) q m
           (particles false (heap s) (self s)) kwargs eq_refl Hns).
Qed.

Lemma find_image_error (s : State) (kwargs : list (string * nat))
  (q m : addr) (e : Exception) :
  find_image (indexed s) kwargs q m = inl e -> e = stitching_error.
Proof.
  destruct (find_image_indexed s kwargs q m) as (ns & _ & ->).
  destruct (find _ ns); [discriminate|]. now intros [= <-].
Qed.

Lemma scanned_error (s : State) (kwargs : list (string * nat))
  (e : Exception) :
  scanned (indexed s) kwargs = inl e -> e = stitching_error.
Proof.
  intro H. apply scan_raises in H.
  destruct H as (b & _ & _ & [H|H]); now apply find_image_error in H.
Qed.

Lemma find_image_matches (h : Store) (slf : Compound) (q m : addr)
  (all_particles : list addr) (kwargs : list (string * nat)) (p : addr) :
  _find_particle_image h slf q m all_particles kwargs = inr p ->
  matches h m p = true /\ In p all_particles.
Proof.
  unfold _find_particle_image. destruct (particle_kdtree slf); [|discriminate].
  destruct (query _ _ _) as [ds idxs].
  destruct (take all_particles idxs) as [ns|] eqn:Hns; [|discriminate].
  destruct (find _ ns) as [p'|] eqn:Hf; [|discriminate].
  intros [= <-]. apply find_some in Hf. destruct Hf as [Hin Hm].
  split; [exact Hm|].
  apply take_map in Hns. destruct Hns as [-> Hall].
  apply in_map_iff in Hin. destruct Hin as (i & <- & Hi).
  apply nth_In. rewrite Forall_forall in Hall. now apply Hall.
Qed.

(** The image search of the scan, in terms of the neighbours it looks
    through. *)
Lemma find_image_neighbours (s : State) (kwargs : list (string * nat))
  (q m : addr) :
  find_image (indexed s) kwargs q m
  = match find (matches (heap s) m) (neighbours (indexed s) kwargs q) with
    | Some particle => inr particle
    | None => inl stitching_error
    end.
Proof.
  unfold find_image.
  apply (find_particle_image_cases (heap s) (self (indexed s)) q m
           (particles false (heap s) (self s)) kwargs eq_refl).
  apply (retrieved_k_nearest (heap s) (from_compound (heap s) (self s))
           (particles false (heap s) (self s)) eq_refl).
Qed.

Lemma find_image_stitching (h : Store) (t : Compound) (n_tiles : int3)
  (nm : option string) (kwargs : list (string * nat)) (q m : addr) :
  find_image (stitching h t n_tiles nm) kwargs q m
  = match find (matches (heap (stitching h t n_tiles nm)) m)
               (neighbours (stitching h t n_tiles nm) kwargs q) with
    | Some particle => inr particle
    | None => inl stitching_error
    end.
Proof. exact (find_image_neighbours (replicated h t n_tiles nm) kwargs q m). Qed.


Lemma final_bonds (s : State) (kwargs : list (string * nat))
  (rem adds : list bond) :
  scanned (indexed s) kwargs = inr (rem, adds) ->
  raised (repair s kwargs) = None
  /\ bonds (self (final (repair s kwargs)))
     = fold_left add_edge adds (fold_left remove_edge rem (bonds (self s))).
Proof.
  intro H. rewrite repair_scanned, H. simpl. split; [reflexivity|].
  unfold bonds. simpl. now rewrite bond_graph_add_all, bond_graph_remove_all.
Qed.

(** C8: the scan only fills the two queues.  When it raises, the
    constructor raises the stitching error and the bond list is the one
    the replication left; when it completes, the final bond list is the
    replicated one with every queued bond removed first and every queued
    bond added afterwards. *)
Theorem bonds_change_only_after_scan (h : Store) (t : Compound)
  (n_tiles : int3) (nm : option string) (kwargs : list (string * nat)) :
  raised (prepare h t n_tiles nm) = None ->
  all_ones n_tiles = false ->
  match scanned (stitching h t n_tiles nm) kwargs with
  | inl e =>
      raised (TiledCompound_init h t n_tiles nm kwargs) = Some e
      /\ e = stitching_error
      /\ bonds (self (final (TiledCompound_init h t n_tiles nm kwargs)))
         = bonds (self (replicated h t n_tiles nm))
  | inr (bonds_to_remove, bonds_to_add) =>
      raised (TiledCompound_init h t n_tiles nm kwargs) = None
      /\ bonds (self (final (TiledCompound_init h t n_tiles nm kwargs)))
         = fold_left add_edge bonds_to_add
             (fold_left remove_edge bonds_to_remove
                (bonds (self (replicated h t n_tiles nm))))
  end
  /\ (forall msg,
        raised (TiledCompound_init h t n_tiles nm kwargs)
          = Some (MBuildError msg) ->
        bonds (self (final (TiledCompound_init h t n_tiles nm kwargs)))
        = bonds (self (replicated h t n_tiles nm))).
Proof.
  intros Hp Ho. rewrite (init_repairs h t n_tiles nm kwargs Hp Ho).
  unfold stitching.
  destruct (scanned (indexed (replicated h t n_tiles nm)) kwargs)
    as [e|[rem adds]] eqn:Hs.
  - assert (E : repair (replicated h t n_tiles nm) kwargs
                = mkOutcome (indexed (replicated h t n_tiles nm)) (Some e)).
    { rewrite repair_scanned, Hs. reflexivity. }
    rewrite E. simpl. split; [|reflexivity].
    split; [reflexivity|]. split; [|reflexivity].
    now apply scanned_error in Hs.
  - destruct (final_bonds _ _ Hs) as [Hr Hb]. split; [now split|].
    intros msg Hm. congruence.
Qed.

(** C7: a bond is queued for removal only if its template indices, in
    either order, are in the periodic bond set and its minimum-image
    distance under the output box exceeds the cutoff, and every bond added
    replaces such a bond; a replicated bond that fails either test is not
    queued and is in the final bond list. *)
Theorem only_long_periodic_bonds_rewired (h : Store) (t : Compound)
  (n_tiles : int3) (nm : option string) (kwargs : list (string * nat))
  (bonds_to_remove bonds_to_add : list bond) :
  raised (prepare h t n_tiles nm) = None ->
  all_ones n_tiles = false ->
  scanned (stitching h t n_tiles nm) kwargs
    = inr (bonds_to_remove, bonds_to_add) ->
  (forall b, In b bonds_to_remove ->
     In b (bonds (self (replicated h t n_tiles nm)))
     /\ candidate (stitching h t n_tiles nm) b = true
     /\ stretched (stitching h t n_tiles nm) b = true)
  /\ (forall x, In x bonds_to_add ->
        exists b, In b (bonds (self (replicated h t n_tiles nm)))
                  /\ candidate (stitching h t n_tiles nm) b = true
                  /\ stretched (stitching h t n_tiles nm) b = true
                  /\ (fst x = fst b \/ fst x = snd b))
  /\ (forall b, In b (bonds (self (replicated h t n_tiles nm))) ->
        candidate (stitching h t n_tiles nm) b = false
        \/ stretched (stitching h t n_tiles nm) b = false ->
        ~ In b bonds_to_remove
        /\ In b (bonds (self (final
                   (TiledCompound_init h t n_tiles nm kwargs))))).
Proof.
  intros Hp Ho Hs. rewrite (init_repairs h t n_tiles nm kwargs Hp Ho).
  destruct (final_bonds _ _ Hs) as [_ Hb].
  destruct (scan_queues _ _ _ _ _ _ _ _ _ Hs) as (R & _ & _ & O).
  assert (Rem : forall b, In b bonds_to_remove ->
            In b (bonds (self (replicated h t n_tiles nm)))
            /\ candidate (stitching h t n_tiles nm) b = true
            /\ stretched (stitching h t n_tiles nm) b = true).
  { intros b Hin. apply R in Hin. destruct Hin as [[]|[Hin Hr]].
    split; [exact Hin|]. apply rewired_tests. exact Hr. }
  split; [exact Rem|]. split.
  - intros x Hx. destruct (O x Hx) as [[]|(b & Hin & Hr & Hx')].
    exists b. destruct Hr as [Hc Hl].
    split; [exact Hin|]. split; [exact Hc|]. split; [exact Hl|].
    destruct Hx' as [[_ E]|[_ E]]; auto.
  - intros b Hin Hfail.
    assert (Hnot : forall r, In r bonds_to_remove -> same_bond r b = false).
    { intros r Hr. destruct (same_bond r b) eqn:E; [|reflexivity].
      destruct (Rem r Hr) as (_ & Hc & Hl).
      destruct (tests_same_bond (heap (stitching h t n_tiles nm))
                  (self (stitching h t n_tiles nm))
                  (bond_set (stitching h t n_tiles nm))
                  (cutoff (stitching h t n_tiles nm)) r b E) as [E1 E2].
      unfold candidate, stretched in *.
      destruct Hfail; congruence. }
    split.
    + intro Hr. apply Hnot in Hr. rewrite same_bond_refl in Hr.
      discriminate.
    + rewrite Hb. apply add_all_keeps. apply In_remove_all. auto.
Qed.

(* ------------------------------------------------------------------ *)
(** ** The store *)
(* ------------------------------------------------------------------ *)

Lemma length_update (h : Store) (a : addr) (f : Particle -> Particle) :
  List.length (update h a f) = List.length h.
Proof.
  revert a. induction h as [|p h IH]; intros [|a]; simpl; auto.
Qed.

Lemma deref_update (h : Store) (a a' : addr) (f : Particle -> Particle) :
  deref (update h a f) a'
  = if (a =? a') && (a <? List.length h) then f (deref h a)
    else deref h a'.
Proof.
  unfold deref. revert a a'. induction h as [|p h IH]; intros a a'.
  - simpl. rewrite andb_false_r. reflexivity.
  - destruct a as [|a], a' as [|a']; simpl; try reflexivity.
    rewrite IH. reflexivity.
Qed.

Lemma deref_beyond (h : Store) (a : addr) :
  List.length h <= a -> deref h a = blank.
Proof. intro H. unfold deref. now apply nth_overflow. Qed.

Lemma deref_app_old (h1 h2 : Store) (a : addr) :
  a < List.length h1 -> deref (h1 ++ h2) a = deref h1 a.
Proof. intro H. unfold deref. now apply app_nth1. Qed.

Lemma deref_app_new (h1 h2 : Store) (i : nat) :
  deref (h1 ++ h2) (List.length h1 + i) = deref h2 i.
Proof.
  unfold deref. rewrite app_nth2 by lia. f_equal. lia.
Qed.

Lemma update_app_head (h1 h2 : Store) (p : Particle)
  (f : Particle -> Particle) :
  update (h1 ++ p :: h2) (List.length h1) f = h1 ++ f p :: h2.
Proof.
  induction h1 as [|q h1 IH]; simpl; [reflexivity|]. now rewrite IH.
Qed.

Lemma clear_indices_cleared (refs : list addr) (h : Store) (a : addr) :
  In a refs \/ index (deref h a) = None ->
  index (deref (clear_indices h refs) a) = None.
Proof.
  unfold clear_indices. revert h.
  induction refs as [|r refs IH]; intros h H; simpl.
  - destruct H as [[]|H]. exact H.
  - apply IH. rewrite deref_update.
    destruct ((r =? a) && (r <? List.length h)) eqn:E; [now right|].
    destruct H as [[-> | H]|H]; auto.
    right. rewrite Nat.eqb_refl in E. simpl in E.
    apply Nat.ltb_ge in E. now rewrite deref_beyond.
Qed.

Lemma clear_indices_geometry (refs : list addr) (h : Store) (a : addr) :
  pos (deref (clear_indices h refs) a) = pos (deref h a)
  /\ port_particle (deref (clear_indices h refs) a)
     = port_particle (deref h a).
Proof.
  unfold clear_indices. revert h.
  induction refs as [|r refs IH]; intro h; simpl; [auto|].
  destruct (IH (update h r (set_index None))) as [E1 E2].
  rewrite E1, E2, deref_update.
  destruct ((r =? a) && (r <? List.length h)) eqn:E; [|auto].
  apply andb_true_iff in E. destruct E as [E _].
  apply Nat.eqb_eq in E. subst. auto.
Qed.

Lemma length_clear_indices (refs : list addr) (h : Store) :
  List.length (clear_indices h refs) = List.length h.
Proof.
  unfold clear_indices. revert h.
  induction refs as [|r refs IH]; intro h; simpl; [reflexivity|].
  now rewrite IH, length_update.
Qed.

Lemma assign_indices_geometry (refs : list addr) (h : Store) (a : addr) :
  pos (deref (assign_indices h refs) a) = pos (deref h a)
  /\ port_particle (deref (assign_indices h refs) a)
     = port_particle (deref h a).
Proof.
  unfold assign_indices.
  generalize (combine (seq 0 (List.length refs)) refs). intro l. revert h.
  induction l as [|[i r] l IH]; intro h; simpl; [auto|].
  destruct (IH (update h r (set_index (Some i)))) as [E1 E2].
  rewrite E1, E2, deref_update.
  destruct ((r =? a) && (r <? List.length h)) eqn:E; [|auto].
  apply andb_true_iff in E. destruct E as [E _].
  apply Nat.eqb_eq in E. subst. auto.
Qed.

Lemma length_assign_indices (refs : list addr) (h : Store) :
  List.length (assign_indices h refs) = List.length h.
Proof.
  unfold assign_indices.
  generalize (combine (seq 0 (List.length refs)) refs). intro l. revert h.
  induction l as [|[i r] l IH]; intro h; simpl; [reflexivity|].
  now rewrite IH, length_update.
Qed.

Lemma keeps_refl (h : Store) : keeps h h.
Proof. split; auto. Qed.

Lemma keeps_trans (h1 h2 h3 : Store) :
  keeps h1 h2 -> keeps h2 h3 -> keeps h1 h3.
Proof.
  intros [L1 K1] [L2 K2]. split; [lia|]. intros a Ha.
  destruct (K1 a Ha) as [A1 B1]. destruct (K2 a) as [A2 B2]; [lia|].
  split; congruence.
Qed.

Lemma keeps_assign_indices (refs : list addr) (h : Store) :
  keeps h (assign_indices h refs).
Proof.
  split; [now rewrite length_assign_indices|].
  intros a _. apply assign_indices_geometry.
Qed.

Lemma keeps_clear_indices (refs : list addr) (h : Store) :
  keeps h (clear_indices h refs).
Proof.
  split; [now rewrite length_clear_indices|].
  intros a _. apply clear_indices_geometry.
Qed.

Lemma keeps_app (h l : Store) : keeps h (h ++ l).
Proof.
  split; [rewrite length_app; lia|].
  intros a Ha. now rewrite deref_app_old.
Qed.

Lemma translate_fresh (l h : Store) (c : Compound) (by_ : vec3) :
  particle_refs c = seq (List.length h) (List.length l) ->
  translate (h ++ l) c by_ = h ++ map (moved by_) l.
Proof.
  unfold translate. intros ->. revert h.
  induction l as [|p l IH]; intro h; simpl; [reflexivity|].
  rewrite update_app_head.
  replace (h ++ _ :: l) with ((h ++ [moved by_ p]) ++ l)
    by (rewrite <- app_assoc; reflexivity).
  replace (S (List.length h)) with (List.length (h ++ [moved by_ p]))
    by (rewrite length_app; simpl; lia).
  rewrite IH. now rewrite <- app_assoc.
Qed.

Lemma heap_place (s : State) (ijk : int3) :
  heap (place s ijk) = heap s ++ block s ijk.
Proof.
  unfold place, clone, block. simpl.
  apply translate_fresh. simpl. now rewrite length_map.
Qed.

Lemma tile_place (s : State) (ijk : int3) : tile (place s ijk) = tile s.
Proof. reflexivity. Qed.

Lemma hoist_ports_fields (slf new_tile : Compound) :
  particle_refs (_hoist_ports slf new_tile) = particle_refs slf
  /\ bond_graph (_hoist_ports slf new_tile) = bond_graph slf
  /\ name (_hoist_ports slf new_tile) = name slf
  /\ particle_kdtree (_hoist_ports slf new_tile) = particle_kdtree slf
  /\ forall x, In x (labels slf) -> In x (labels (_hoist_ports slf new_tile)).
Proof.
  unfold _hoist_ports. generalize (ports new_tile). intro l. revert slf.
  induction l as [|p l IH]; intro slf; simpl; [auto|].
  destruct (IH (add_reference slf p)) as (A & B & C & D & E).
  rewrite A, B, C, D. repeat split; try reflexivity.
  intros x Hx. apply E. simpl. apply in_or_app. now left.
Qed.

Lemma refs_place (s : State) (ijk : int3) :
  particle_refs (self (place s ijk))
  = particle_refs (self s)
    ++ seq (List.length (heap s)) (List.length (particle_refs (tile s))).
Proof.
  unfold place, clone. simpl.
  now rewrite (proj1 (hoist_ports_fields _ _)).
Qed.

Lemma name_place (s : State) (ijk : int3) :
  name (self (place s ijk)) = name (self s).
Proof.
  unfold place, clone. simpl.
  now rewrite (proj1 (proj2 (proj2 (hoist_ports_fields _ _)))).
Qed.

Lemma labels_place (s : State) (ijk : int3) (x : string * list addr) :
  In x (labels (self s))
  \/ x = (tile_label (name (self s)) ijk,
          seq (List.length (heap s)) (List.length (particle_refs (tile s)))) ->
  In x (labels (self (place s ijk))).
Proof.
  intro H. unfold place, clone. simpl.
  apply (proj2 (proj2 (proj2 (proj2 (hoist_ports_fields _ _))))).
  simpl. apply in_or_app. destruct H as [H | ->]; [now left|].
  right. now left.
Qed.

Section Replication.

Variable s0 : State.
Local Abbreviation P := (List.length (particle_refs (tile s0))).

Lemma tile_places (l : list int3) (s : State) :
  tile (fold_left place l s) = tile s.
Proof.
  revert s. induction l as [|ijk l IH]; intro s; simpl; [reflexivity|].
  now rewrite IH.
Qed.

Lemma name_places (l : list int3) (s : State) :
  name (self (fold_left place l s)) = name (self s).
Proof.
  revert s. induction l as [|ijk l IH]; intro s; simpl; [reflexivity|].
  now rewrite IH, name_place.
Qed.

Lemma keeps_places (l : list int3) (s : State) :
  keeps (heap s) (heap (fold_left place l s)).
Proof.
  revert s. induction l as [|ijk l IH]; intro s; simpl; [apply keeps_refl|].
  eapply keeps_trans; [|apply IH]. rewrite heap_place. apply keeps_app.
Qed.

Lemma length_block (s : State) (ijk : int3) :
  List.length (block s ijk) = List.length (particle_refs (tile s)).
Proof. unfold block. now rewrite !length_map. Qed.

Lemma deref_block (s : State) (ijk : int3) (p : nat) (a : addr) :
  nth_error (particle_refs (tile s)) p = Some a ->
  deref (block s ijk) p
  = moved (np_multiply ijk (lengths (the_box (tile s)))) (deref (heap s) a).
Proof.
  intro H. unfold block, deref at 1. apply nth_error_nth.
  now rewrite !nth_error_map, H.
Qed.

Lemma length_heap_places (l : list int3) (s : State) :
  tile s = tile s0 ->
  List.length (heap (fold_left place l s))
  = List.length (heap s) + List.length l * P.
Proof.
  revert s. induction l as [|ijk l IH]; intros s Ht; simpl; [lia|].
  rewrite IH by (now rewrite tile_place).
  rewrite heap_place, length_app, length_block, Ht. lia.
Qed.

Lemma refs_places (l : list int3) (s : State) :
  tile s = tile s0 ->
  particle_refs (self (fold_left place l s))
  = particle_refs (self s)
    ++ seq (List.length (heap s)) (List.length l * P).
Proof.
  revert s. induction l as [|ijk l IH]; intros s Ht; simpl.
  - now rewrite app_nil_r.
  - rewrite IH by (now rewrite tile_place).
    rewrite refs_place, heap_place, length_app, length_block, Ht.
    rewrite <- app_assoc. f_equal. now rewrite seq_app.
Qed.

Lemma labels_kept (l : list int3) (s : State) (x : string * list addr) :
  In x (labels (self s)) -> In x (labels (self (fold_left place l s))).
Proof.
  revert s. induction l as [|ijk l IH]; intros s H; simpl; [exact H|].
  apply IH. apply labels_place. now left.
Qed.

Lemma labels_places (l : list int3) (s : State) (k : nat) (ijk : int3) :
  tile s = tile s0 ->
  nth_error l k = Some ijk ->
  In (tile_label (name (self s)) ijk,
      seq (List.length (heap s) + k * P) P)
     (labels (self (fold_left place l s))).
Proof.
  revert s k. induction l as [|ijk0 l IH]; intros s k Ht Hk.
  - destruct k; discriminate.
  - destruct k as [|k]; simpl in *.
    + injection Hk as ->. apply labels_kept. apply labels_place. right.
      rewrite Ht. do 2 f_equal. lia.
    + specialize (IH (place s ijk0) k (eq_trans (tile_place s ijk0) Ht) Hk).
      rewrite name_place, heap_place, length_app, length_block, Ht in IH.
      replace (List.length (heap s) + (P + k * P))
        with (List.length (heap s) + P + k * P) by lia.
      exact IH.
Qed.

Lemma cells_places (l : list int3) (s : State) (k p : nat) (ijk : int3)
  (a : addr) :
  tile s = tile s0 ->
  Forall (fun r => r < List.length (heap s)) (particle_refs (tile s0)) ->
  nth_error l k = Some ijk ->
  nth_error (particle_refs (tile s0)) p = Some a ->
  pos (deref (heap (fold_left place l s)) (List.length (heap s) + k * P + p))
  = vadd (pos (deref (heap s) a))
         (np_multiply ijk (lengths (the_box (tile s0))))
  /\ port_particle
       (deref (heap (fold_left place l s)) (List.length (heap s) + k * P + p))
     = port_particle (deref (heap s) a).
Proof.
  revert s k. induction l as [|ijk0 l IH]; intros s k Ht Hwf Hk Hp.
  - destruct k; discriminate.
  - assert (Hplt : p < P) by (apply nth_error_Some; congruence).
    destruct k as [|k]; simpl in *.
    + injection Hk as ->.
      destruct (keeps_places l (place s ijk)) as [_ K].
      destruct (K (List.length (heap s) + 0 + p)) as [A B].
      { rewrite heap_place, length_app, length_block, Ht. lia. }
      rewrite A, B, heap_place.
      replace (List.length (heap s) + 0 + p) with (List.length (heap s) + p)
        by lia.
      rewrite deref_app_new.
      rewrite (@deref_block s ijk p a) by (now rewrite Ht).
      rewrite Ht. auto.
    + assert (Ha : a < List.length (heap s)).
      { rewrite Forall_forall in Hwf. apply Hwf.
        eapply nth_error_In, Hp. }
      assert (Hwf' : Forall (fun r => r < List.length (heap (place s ijk0)))
                            (particle_refs (tile s0))).
      { eapply Forall_impl; [|exact Hwf]. intros r Hr. cbv beta in *.
        rewrite heap_place, length_app. lia. }
      destruct (IH (place s ijk0) k (eq_trans (tile_place s ijk0) Ht)
                   Hwf' Hk Hp) as [A B].
      assert (HL : List.length (heap (place s ijk0))
                   = List.length (heap s) + P).
      { now rewrite heap_place, length_app, length_block, Ht. }
      assert (HD : deref (heap (place s ijk0)) a = deref (heap s) a).
      { rewrite heap_place. now apply deref_app_old. }
      rewrite HL, HD in A, B.
      replace (List.length (heap s) + (P + k * P) + p)
        with (List.length (heap s) + P + k * P + p) by lia.
      exact (conj A B).
Qed.

End Replication.

(* ------------------------------------------------------------------ *)
(** ** The cutoff and the periodic bond set *)
(* ------------------------------------------------------------------ *)

Lemma np_min_spec (l : list ext) :
  match np_min l with
  | Inf => Forall (fun e => e = Inf) l
  | Fin m => In (Fin m) l
             /\ Forall (fun e => match e with
                                 | Inf => True
                                 | Fin x => (m <= x)%Q
                                 end) l
  end.
Proof.
  induction l as [|e l IH]; simpl; [constructor|].
  destruct e as [x|], (np_min l) as [m|]; simpl.
  - destruct IH as [Hin Hall]. destruct (Qle_bool x m) eqn:E.
    + split; [now left|]. constructor; [apply Qle_refl|].
      apply Qle_bool_iff in E. eapply Forall_impl; [|exact Hall].
      intros [y|]; [|trivial]. intro Hy. eapply Qle_trans; eassumption.
    + split; [now right|]. constructor; [|assumption].
      now apply Qle_bool_false.
  - split; [now left|]. constructor; [apply Qle_refl|].
    eapply Forall_impl; [|exact IH]. now intros e ->.
  - destruct IH as [Hin Hall]. split; [now right|]. now constructor.
  - now constructor.
Qed.

Lemma index_eqb_eq (a b : option nat) : index_eqb a b = true <-> a = b.
Proof.
  destruct a as [x|], b as [y|]; simpl; try (split; congruence).
  rewrite Nat.eqb_eq. split; congruence.
Qed.

Lemma index_pair_eqb_eq (a b : option nat * option nat) :
  index_pair_eqb a b = true <-> a = b.
Proof.
  destruct a, b. unfold index_pair_eqb. simpl.
  rewrite andb_true_iff, !index_eqb_eq. split.
  - intros [-> ->]. reflexivity.
  - intro H. injection H as -> ->. auto.
Qed.

Lemma In_periodic_bonds_from (h : Store) (thresh : ext) (l : list bond)
  (acc : list (option nat * option nat)) (ij : option nat * option nat) :
  In ij (fold_left
           (fun acc b =>
              let particle1 := deref h (fst b) in
              let particle2 := deref h (snd b) in
              if dist_gt (np_linalg_norm
                            (vsub (pos particle1) (pos particle2))) thresh
              then set_add index_pair_eqb
                           (index particle1, index particle2) acc
              else acc) l acc)
  <-> In ij acc
      \/ exists b, In b l /\ ij = index_pair h b
                   /\ dist_gt (raw_length h b) thresh = true.
Proof.
  revert acc. induction l as [|b l IH]; intro acc; simpl.
  - split; [auto|]. intros [H|(b & [] & _)]. exact H.
  - rewrite IH. fold (raw_length h b).
    destruct (dist_gt (raw_length h b) thresh) eqn:E.
    + rewrite In_set_add by (intros x y; apply index_pair_eqb_eq).
      fold (index_pair h b). split.
      * intros [[-> | H]|(b' & Hb & Hi)]; eauto 6.
      * intros [H|(b' & [<- | Hb] & Hi & Hd)]; eauto 6.
    + split.
      * intros [H|(b' & Hb & Hi)]; eauto 6.
      * intros [H|(b' & [<- | Hb] & Hi & Hd)]; eauto 6. congruence.
Qed.

Lemma euclidean_norm (p q : vec3) :
  euclidean p q = sqrt (Q2R (radicand (np_linalg_norm (vsub p q)))).
Proof.
  destruct p as [[x y] z], q as [[u v] w].
  unfold euclidean, np_linalg_norm, vsub, sum_sq. cbn [radicand].
  f_equal. rewrite !Q2R_plus, !Q2R_mult, !Q2R_minus. reflexivity.
Qed.

(** The test of line 89 is the comparison of the real distance with the
    cutoff. *)
Lemma dist_gt_exceeds (p q : vec3) (t : ext) :
  dist_gt (np_linalg_norm (vsub p q)) t = true
  <-> exceeds (euclidean p q) t.
Proof.
  rewrite euclidean_norm. destruct t as [thr|].
  - unfold np_linalg_norm. cbn [radicand exceeds].
    apply dist_gt_sqrt. apply sum_sq_nonneg.
  - simpl. split; [discriminate|tauto].
Qed.


(* ------------------------------------------------------------------ *)
(** ** What the constructor leaves behind *)
(* ------------------------------------------------------------------ *)

Lemma ensure_box_fields (h : Store) (t : Compound) :
  name (ensure_box h t) = name t
  /\ particle_refs (ensure_box h t) = particle_refs t
  /\ bond_graph (ensure_box h t) = bond_graph t
  /\ ports (ensure_box h t) = ports t
  /\ periodicity (ensure_box h t) = periodicity t
  /\ labels (ensure_box h t) = labels t
  /\ particle_kdtree (ensure_box h t) = particle_kdtree t
  /\ box (ensure_box h t)
     = match box t with
       | Some b => Some b
       | None => Some (get_boundingbox h t)
       end.
Proof.
  unfold ensure_box. destruct (box t) eqn:E; simpl; rewrite ?E;
    repeat split; reflexivity.
Qed.

(** The three ways [prepare] ends. *)
Lemma prepare_cases (h : Store) (t : Compound) (n_tiles : int3)
  (nm : option string) :
  (all_positive n_tiles = false
   /\ prepare h t n_tiles nm
      = mkOutcome (mkState h t Compound_init)
          (Some (ValueError "Number of tiles must be positive.")))
  \/ (all_positive n_tiles = true
      /\ periodic_where_tiled n_tiles (periodicity t) = false
      /\ prepare h t n_tiles nm
         = mkOutcome (mkState h (ensure_box h t) Compound_init)
             (Some (ValueError
        "Tile not periodic in at least one of the specified dimensions.")))
  \/ (all_positive n_tiles = true
      /\ periodic_where_tiled n_tiles (periodicity t) = true
      /\ raised (prepare h t n_tiles nm) = None
      /\ heap (final (prepare h t n_tiles nm)) = h
      /\ tile (final (prepare h t n_tiles nm)) = ensure_box h t
      /\ particle_refs (self (final (prepare h t n_tiles nm))) = []
      /\ particle_kdtree (self (final (prepare h t n_tiles nm))) = None).
Proof.
  unfold prepare. destruct (all_positive n_tiles); simpl; [|now left].
  right. rewrite (proj1 (proj2 (proj2 (proj2 (proj2
            (ensure_box_fields h t)))))).
  destruct (periodic_where_tiled n_tiles (periodicity t)); simpl.
  - right. repeat split.
  - left. repeat split.
Qed.

Lemma tile_repair (s : State) (kwargs : list (string * nat)) :
  tile (final (repair s kwargs)) = tile s.
Proof.
  rewrite repair_scanned.
  destruct (scanned (indexed s) kwargs) as [e|[rem adds]]; reflexivity.
Qed.

Lemma keeps_repair (s : State) (kwargs : list (string * nat)) :
  keeps (heap s) (heap (final (repair s kwargs))).
Proof.
  rewrite repair_scanned.
  destruct (scanned (indexed s) kwargs) as [e|[rem adds]]; simpl.
  - apply keeps_refl.
  - apply keeps_clear_indices.
Qed.

Lemma tile_replicate (s : State) (n_tiles : int3) :
  tile (replicate s n_tiles) = tile s.
Proof. unfold replicate. now rewrite tile_places. Qed.

Lemma keeps_replicate (s : State) (n_tiles : int3) :
  keeps (heap s) (heap (replicate s n_tiles)).
Proof.
  unfold replicate. eapply keeps_trans; [|apply keeps_places]. simpl.
  apply keeps_assign_indices.
Qed.

(** The state of every run, by the way it ends. *)
Lemma init_cases (h : Store) (t : Compound) (n_tiles : int3)
  (nm : option string) (kwargs : list (string * nat)) :
  (raised (prepare h t n_tiles nm) <> None
   /\ TiledCompound_init h t n_tiles nm kwargs = prepare h t n_tiles nm)
  \/ (raised (prepare h t n_tiles nm) = None /\ all_ones n_tiles = true
      /\ TiledCompound_init h t n_tiles nm kwargs
         = mkOutcome
             (mkState h (ensure_box h t)
                (_hoist_ports
                   (_add_tile (self (final (prepare h t n_tiles nm)))
                              (ensure_box h t) (0, 0, 0)%Z)
                   (ensure_box h t)))
             None)
  \/ (raised (prepare h t n_tiles nm) = None /\ all_ones n_tiles = false
      /\ TiledCompound_init h t n_tiles nm kwargs
         = repair (replicated h t n_tiles nm) kwargs).
Proof.
  destruct (prepare_cases h t n_tiles nm)
    as [[_ E]|[(_ & _ & E)|(_ & _ & R & H & T & _)]].
  - left. unfold TiledCompound_init. rewrite E. simpl. split; congruence.
  - left. unfold TiledCompound_init. rewrite E. simpl. split; congruence.
  - right. destruct (all_ones n_tiles) eqn:Ho.
    + left. split; [exact R|]. split; [reflexivity|].
      unfold TiledCompound_init. rewrite R, Ho, H, T. reflexivity.
    + right. split; [exact R|]. split; [reflexivity|].
      now apply init_repairs.
Qed.

(** C2, as the code has it: whatever the outcome, the call leaves every
    particle of the store where it was and with its port flag, and leaves
    the name, the particles, the bonds, the ports, the periodicity and the
    labels of the tile as they were; a box the tile has is kept, and a tile
    without a box is given its bounding box once the counts are found
    positive. *)
Theorem template_geometry_and_bonds_kept (h : Store) (t : Compound)
  (n_tiles : int3) (nm : option string) (kwargs : list (string * nat)) :
  keeps h (heap (final (TiledCompound_init h t n_tiles nm kwargs)))
  /\ name (tile (final (TiledCompound_init h t n_tiles nm kwargs)))
     = name t
  /\ particle_refs (tile (final (TiledCompound_init h t n_tiles nm kwargs)))
     = particle_refs t
  /\ bond_graph (tile (final (TiledCompound_init h t n_tiles nm kwargs)))
     = bond_graph t
  /\ ports (tile (final (TiledCompound_init h t n_tiles nm kwargs)))
     = ports t
  /\ periodicity (tile (final (TiledCompound_init h t n_tiles nm kwargs)))
     = periodicity t
  /\ labels (tile (final (TiledCompound_init h t n_tiles nm kwargs)))
     = labels t
  /\ box (tile (final (TiledCompound_init h t n_tiles nm kwargs)))
     = match box t with
       | Some b => Some b
       | None => if all_positive n_tiles
                 then Some (get_boundingbox h t) else None
       end.
Proof.
  assert (T : keeps h (heap (final
                (TiledCompound_init h t n_tiles nm kwargs)))
              /\ tile (final (TiledCompound_init h t n_tiles nm kwargs))
                 = if all_positive n_tiles then ensure_box h t else t).
  { destruct (init_cases h t n_tiles nm kwargs)
      as [[R E]|[(R & _ & E)|(R & _ & E)]]; rewrite E.
    - destruct (prepare_cases h t n_tiles nm)
        as [[P E']|[(P & _ & E')|(P & _ & R' & _)]].
      + rewrite E', P. simpl. split; [apply keeps_refl|reflexivity].
      + rewrite E', P. simpl. split; [apply keeps_refl|reflexivity].
      + contradiction.
    - destruct (prepare_cases h t n_tiles nm)
        as [[_ E']|[(_ & _ & E')|(P & _)]];
        try (rewrite E' in R; discriminate).
      rewrite P. simpl. split; [apply keeps_refl|reflexivity].
    - destruct (prepare_cases h t n_tiles nm)
        as [[_ E']|[(_ & _ & E')|(P & _ & _ & H & T & _)]];
        try (rewrite E' in R; discriminate).
      rewrite P, tile_repair. unfold replicated.
      rewrite tile_replicate, T. split; [|reflexivity].
      eapply keeps_trans; [|apply keeps_repair].
      rewrite <- H at 1. apply keeps_replicate. }
  destruct T as [K ->]. split; [exact K|].
  destruct (ensure_box_fields h t) as (A & B & C & D & E & F & _ & G).
  destruct (all_positive n_tiles).
  - rewrite A, B, C, D, E, F, G. destruct (box t); repeat split.
  - destruct (box t); repeat split.
Qed.

(** C5, as the code has it: a count that is not positive, or a count above
    one along an axis where the tile is not periodic, makes the constructor
    raise a ValueError and hand nothing to the caller, with the store
    untouched and nothing added to the new structure.  The first error
    leaves the tile untouched; before the second, a tile without a box has
    been given its bounding box.  A tile periodic along no axis is refused
    for the counts (2, 1, 1). *)
Theorem invalid_counts_rejected (h : Store) (t : Compound)
  (nm : option string) (kwargs : list (string * nat)) :
  (forall x y z,
     (x <= 0 \/ y <= 0 \/ z <= 0)%Z ->
     TiledCompound_init h t (x, y, z) nm kwargs
     = mkOutcome (mkState h t Compound_init)
         (Some (ValueError "Number of tiles must be positive."))
     /\ result (TiledCompound_init h t (x, y, z) nm kwargs) = None)
  /\ (forall x y z,
        (0 < x /\ 0 < y /\ 0 < z)%Z ->
        (1 < x)%Z /\ fst (fst (periodicity t)) = false
        \/ (1 < y)%Z /\ snd (fst (periodicity t)) = false
        \/ (1 < z)%Z /\ snd (periodicity t) = false ->
        TiledCompound_init h t (x, y, z) nm kwargs
        = mkOutcome (mkState h (ensure_box h t) Compound_init)
            (Some (ValueError
        "Tile not periodic in at least one of the specified dimensions."))
        /\ result (TiledCompound_init h t (x, y, z) nm kwargs) = None)
  /\ (periodicity t = (false, false, false) ->
      raised (TiledCompound_init h t (2, 1, 1)%Z nm kwargs)
      = Some (ValueError
        "Tile not periodic in at least one of the specified dimensions.")
      /\ result (TiledCompound_init h t (2, 1, 1)%Z nm kwargs) = None).
Proof.
  assert (Second : forall x y z,
            (0 < x /\ 0 < y /\ 0 < z)%Z ->
            (1 < x)%Z /\ fst (fst (periodicity t)) = false
            \/ (1 < y)%Z /\ snd (fst (periodicity t)) = false
            \/ (1 < z)%Z /\ snd (periodicity t) = false ->
            TiledCompound_init h t (x, y, z) nm kwargs
            = mkOutcome (mkState h (ensure_box h t) Compound_init)
                (Some (ValueError
        "Tile not periodic in at least one of the specified dimensions."))).
  { intros x y z (Hx & Hy & Hz) Hbad.
    destruct (prepare_cases h t (x, y, z) nm)
      as [[P _]|[(_ & _ & E)|(_ & P & _)]].
    - exfalso. simpl in P.
      apply Z.ltb_lt in Hx, Hy, Hz. now rewrite Hx, Hy, Hz in P.
    - unfold TiledCompound_init. now rewrite E.
    - exfalso. destruct (periodicity t) as [[px py] pz]. simpl in *.
      apply andb_true_iff in P. destruct P as [P Pz].
      apply andb_true_iff in P. destruct P as [Px Py].
      destruct Hbad as [[H1 ->]|[[H1 ->]|[H1 ->]]];
        [rewrite orb_false_r in Px; apply Z.eqb_eq in Px
        |rewrite orb_false_r in Py; apply Z.eqb_eq in Py
        |rewrite orb_false_r in Pz; apply Z.eqb_eq in Pz]; lia. }
  split; [|split].
  - intros x y z Hbad.
    destruct (prepare_cases h t (x, y, z) nm)
      as [[_ E]|[(P & _)|(P & _)]].
    + unfold TiledCompound_init, result. rewrite E. simpl. auto.
    + exfalso. simpl in P. rewrite !andb_true_iff, !Z.ltb_lt in P. lia.
    + exfalso. simpl in P. rewrite !andb_true_iff, !Z.ltb_lt in P. lia.
  - intros x y z Hpos Hbad. unfold result.
    rewrite (Second x y z Hpos Hbad). simpl. auto.
  - intro Hper. unfold result. rewrite (Second 2 1 1)%Z.
    + simpl. auto.
    + lia.
    + left. rewrite Hper. simpl. split; [lia|reflexivity].
Qed.

(** C9, as the code has it: when the constructor returns, the new
    structure holds no tree, and after a tiling with some count above one
    every particle of the new structure has its template index cleared. *)
Theorem scratch_state_cleared_on_return (h : Store) (t : Compound)
  (n_tiles : int3) (nm : option string) (kwargs : list (string * nat)) :
  raised (TiledCompound_init h t n_tiles nm kwargs) = None ->
  particle_kdtree (self (final (TiledCompound_init h t n_tiles nm kwargs)))
  = None
  /\ (all_ones n_tiles = false ->
      forall a,
        In a (particles true
                (heap (final (TiledCompound_init h t n_tiles nm kwargs)))
                (self (final (TiledCompound_init h t n_tiles nm kwargs)))) ->
        index (deref
                 (heap (final (TiledCompound_init h t n_tiles nm kwargs))) a)
        = None).
Proof.
  destruct (init_cases h t n_tiles nm kwargs)
    as [[R E]|[(R & Ho & E)|(R & Ho & E)]]; rewrite E.
  - intro C. contradiction.
  - intros _. simpl. split; [|congruence].
    rewrite (proj1 (proj2 (proj2 (proj2 (hoist_ports_fields _ _))))).
    simpl.
    destruct (prepare_cases h t n_tiles nm)
      as [[_ E']|[(_ & _ & E')|(_ & _ & _ & _ & _ & _ & K)]];
      try (rewrite E' in R; discriminate).
    exact K.
  - rewrite repair_scanned.
    destruct (scanned (indexed (replicated h t n_tiles nm)) kwargs)
      as [e|[rem adds]]; simpl; [discriminate|].
    intros _. split; [reflexivity|]. intros _ a Ha.
    apply clear_indices_cleared. left. exact Ha.
Qed.

(* ------------------------------------------------------------------ *)
(** ** The grid *)
(* ------------------------------------------------------------------ *)

Lemma In_range (i n : Z) : In i (range n) <-> (0 <= i < n)%Z.
Proof.
  unfold range. rewrite in_map_iff. split.
  - intros (m & <- & Hm). apply in_seq in Hm. lia.
  - intro H. exists (Z.to_nat i). split; [lia|]. apply in_seq. lia.
Qed.

Lemma NoDup_map_injective {A B : Type} (f : A -> B) (l : list A) :
  (forall x y, f x = f y -> x = y) -> NoDup l -> NoDup (map f l).
Proof.
  intros Hf. induction 1 as [|x l Hx Hl IH]; simpl; constructor;
    [|assumption].
  rewrite in_map_iff. intros (y & E & Hy). apply Hf in E. now subst.
Qed.

Lemma NoDup_range (n : Z) : NoDup (range n).
Proof.
  unfold range. apply NoDup_map_injective; [|apply seq_NoDup].
  intros x y. lia.
Qed.

Lemma NoDup_flat_map {A B : Type} (f : A -> list B) (l : list A) :
  NoDup l -> (forall a, In a l -> NoDup (f a)) ->
  (forall a a' b, In b (f a) -> In b (f a') -> a = a') ->
  NoDup (flat_map f l).
Proof.
  intros Hl Hf Hd. induction Hl as [|x l Hx Hl IH]; simpl; [constructor|].
  apply NoDup_app.
  - apply Hf. now left.
  - apply IH. intros a Ha. apply Hf. now right.
  - intros b Hb Hb'. apply in_flat_map in Hb'.
    destruct Hb' as (a' & Ha' & Hb'). rewrite (Hd x a' b Hb Hb') in Hx.
    contradiction.
Qed.

Lemma In_product (n : int3) (i j k : Z) :
  In (i, j, k) (product n)
  <-> (0 <= i < fst (fst n) /\ 0 <= j < snd (fst n) /\ 0 <= k < snd n)%Z.
Proof.
  destruct n as [[x y] z]. unfold product. simpl.
  rewrite in_flat_map. split.
  - intros (i' & Hi & H). apply in_flat_map in H.
    destruct H as (j' & Hj & H). apply in_map_iff in H.
    destruct H as (k' & E & Hk). injection E as -> -> ->.
    now rewrite <- !In_range.
  - intros (Hi & Hj & Hk). rewrite <- In_range in Hi, Hj, Hk.
    exists i. split; [assumption|]. apply in_flat_map.
    exists j. split; [assumption|]. apply in_map_iff. eauto.
Qed.

Lemma NoDup_product (n : int3) : NoDup (product n).
Proof.
  destruct n as [[x y] z]. unfold product.
  apply NoDup_flat_map; [apply NoDup_range| |].
  - intros i _. apply NoDup_flat_map; [apply NoDup_range| |].
    + intros j _. apply NoDup_map_injective; [|apply NoDup_range].
      intros a b E. now injection E.
    + intros j j' b Hb Hb'. apply in_map_iff in Hb, Hb'.
      destruct Hb as (k & <- & _), Hb' as (k' & E & _). now injection E.
  - intros i i' b Hb Hb'. apply in_flat_map in Hb, Hb'.
    destruct Hb as (j & _ & Hb), Hb' as (j' & _ & Hb').
    apply in_map_iff in Hb, Hb'.
    destruct Hb as (k & <- & _), Hb' as (k' & E & _). now injection E.
Qed.

Lemma length_range (n : Z) : List.length (range n) = Z.to_nat n.
Proof. unfold range. now rewrite length_map, length_seq. Qed.

Lemma length_product (x y z : Z) :
  List.length (product (x, y, z)) = Z.to_nat x * (Z.to_nat y * Z.to_nat z).
Proof.
  unfold product.
  rewrite (flat_map_constant_length (c := Z.to_nat y * Z.to_nat z)).
  - now rewrite length_range.
  - intros i _.
    rewrite (flat_map_constant_length (c := Z.to_nat z)).
    + now rewrite length_range.
    + intros j _. now rewrite length_map, length_range.
Qed.

Lemma labels_remove_all (rem : list bond) (c : Compound) :
  labels (fold_left remove_bond rem c) = labels c
  /\ name (fold_left remove_bond rem c) = name c.
Proof.
  revert c. induction rem as [|x rem IH]; intro c; simpl; [auto|].
  destruct (IH (remove_bond c x)) as [-> ->]. auto.
Qed.

Lemma labels_add_all (adds : list bond) (c : Compound) :
  labels (fold_left add_bond adds c) = labels c
  /\ name (fold_left add_bond adds c) = name c.
Proof.
  revert c. induction adds as [|x adds IH]; intro c; simpl; [auto|].
  destruct (IH (add_bond c x)) as [-> ->]. auto.
Qed.

Lemma self_repair (s : State) (kwargs : list (string * nat)) :
  particle_refs (self (final (repair s kwargs))) = particle_refs (self s)
  /\ labels (self (final (repair s kwargs))) = labels (self s)
  /\ name (self (final (repair s kwargs))) = name (self s).
Proof.
  rewrite repair_scanned.
  destruct (scanned (indexed s) kwargs) as [e|[rem adds]]; simpl; [auto|].
  rewrite particle_refs_add_all, particle_refs_remove_all,
    (proj1 (labels_add_all _ _)), (proj2 (labels_add_all _ _)),
    (proj1 (labels_remove_all _ _)), (proj2 (labels_remove_all _ _)).
  auto.
Qed.

(** C3, as the code has it.  For counts that pass the checks, on a tile
    whose particles are in the store: the grid coordinates are the triples
    below the counts, each once.  When some count is above one, the new
    structure holds for each of them, under its label, a block of cells
    that did not exist before the call, and the cells of the block are the
    particles of the tile moved by the box lengths times the coordinate.
    When every count is one, the new structure holds the particles of the
    tile themselves.  In both cases it has as many particles as the tile
    times the product of the counts. *)
Theorem tiles_are_translated_copies (h : Store) (t : Compound)
  (n_tiles : int3) (nm : option string) (kwargs : list (string * nat)) :
  Forall (fun a => a < List.length h) (particle_refs t) ->
  raised (prepare h t n_tiles nm) = None ->
  (forall i j k,
     In (i, j, k) (product n_tiles)
     <-> (0 <= i < fst (fst n_tiles) /\ 0 <= j < snd (fst n_tiles)
          /\ 0 <= k < snd n_tiles)%Z)
  /\ NoDup (product n_tiles)
  /\ Z.of_nat (List.length
       (particle_refs
          (self (final (TiledCompound_init h t n_tiles nm kwargs)))))
     = (fst (fst n_tiles) * snd (fst n_tiles) * snd n_tiles
        * Z.of_nat (List.length (particle_refs t)))%Z
  /\ (all_ones n_tiles = true ->
      particle_refs
        (self (final (TiledCompound_init h t n_tiles nm kwargs)))
      = particle_refs t
      /\ heap (final (TiledCompound_init h t n_tiles nm kwargs)) = h)
  /\ (all_ones n_tiles = false ->
      particle_refs
        (self (final (TiledCompound_init h t n_tiles nm kwargs)))
      = seq (List.length h)
            (List.length (product n_tiles)
             * List.length (particle_refs t))
      /\ forall c ijk,
           nth_error (product n_tiles) c = Some ijk ->
           In (tile_label
                 (name (self (final
                    (TiledCompound_init h t n_tiles nm kwargs)))) ijk,
               seq (List.length h + c * List.length (particle_refs t))
                   (List.length (particle_refs t)))
              (labels (self (final
                 (TiledCompound_init h t n_tiles nm kwargs))))
           /\ forall p a,
                nth_error (particle_refs t) p = Some a ->
                pos (deref
                       (heap (final
                          (TiledCompound_init h t n_tiles nm kwargs)))
                       (List.length h
                        + c * List.length (particle_refs t) + p))
                = vadd (pos (deref h a))
                       (np_multiply ijk
                          (lengths (the_box (ensure_box h t))))
                /\ port_particle
                     (deref
                        (heap (final
                           (TiledCompound_init h t n_tiles nm kwargs)))
                        (List.length h
                         + c * List.length (particle_refs t) + p))
                   = port_particle (deref h a)).
Proof.
  intros Hwf Hp.
  split; [intros i j k; apply In_product|].
  split; [apply NoDup_product|].
  destruct (prepare_cases h t n_tiles nm)
    as [[_ E']|[(_ & _ & E')|(Hpos & _ & _ & Hh & Ht & Hr & _)]];
    try (rewrite E' in Hp; discriminate).
  set (s := final (prepare h t n_tiles nm)) in *.
  set (s1 := mkState (assign_indices (heap s)
                        (particles true (heap s) (tile s)))
                     (tile s) (self s)).
  assert (HP : List.length (particle_refs (tile s1))
               = List.length (particle_refs t)).
  { simpl. rewrite Ht.
    now rewrite (proj1 (proj2 (ensure_box_fields h t))). }
  assert (HL : List.length (heap s1) = List.length h).
  { simpl. now rewrite length_assign_indices, Hh. }
  assert (Refs : all_ones n_tiles = false ->
            particle_refs
              (self (final (TiledCompound_init h t n_tiles nm kwargs)))
            = seq (List.length h)
                  (List.length (product n_tiles)
                   * List.length (particle_refs t))).
  { intro Ho. rewrite (init_repairs h t n_tiles nm kwargs Hp Ho).
    rewrite (proj1 (self_repair _ _)). unfold replicated, replicate.
    fold s s1. rewrite (refs_places s1 (product n_tiles) s1 eq_refl).
    rewrite HP, HL. simpl. now rewrite Hr. }
  assert (Alias : all_ones n_tiles = true ->
            particle_refs
              (self (final (TiledCompound_init h t n_tiles nm kwargs)))
            = particle_refs t
            /\ heap (final (TiledCompound_init h t n_tiles nm kwargs)) = h).
  { intro Ho. unfold TiledCompound_init. rewrite Hp, Ho. simpl. fold s.
    rewrite (proj1 (hoist_ports_fields _ _)). simpl.
    rewrite Hr, Ht, Hh. simpl.
    now rewrite (proj1 (proj2 (ensure_box_fields h t))). }
  split; [|split; [exact Alias|]].
  - destruct n_tiles as [[x y] z]. simpl in Hpos.
    rewrite !andb_true_iff, !Z.ltb_lt in Hpos.
    destruct (all_ones (x, y, z)) eqn:Ho.
    + rewrite (proj1 (Alias eq_refl)). simpl in Ho.
      rewrite !andb_true_iff, !Z.eqb_eq in Ho. simpl.
      destruct Ho as [[-> ->] ->]. lia.
    + rewrite (Refs eq_refl), length_seq, length_product. simpl.
      rewrite !Nat2Z.inj_mul, !Z2Nat.id by lia. ring.
  - intro Ho. split; [exact (Refs Ho)|]. intros c ijk Hc.
    rewrite (init_repairs h t n_tiles nm kwargs Hp Ho).
    destruct (self_repair (replicated h t n_tiles nm) kwargs)
      as (_ & -> & ->).
    unfold replicated, replicate. fold s s1. split.
    + pose proof (@labels_places s1 (product n_tiles) s1 c ijk eq_refl Hc)
        as L.
      rewrite name_places. rewrite HP, HL in L. exact L.
    + intros p a Ha.
      assert (Hwf1 : Forall (fun r => r < List.length (heap s1))
                            (particle_refs (tile s1))).
      { rewrite HL. simpl. rewrite Ht.
        now rewrite (proj1 (proj2 (ensure_box_fields h t))). }
      assert (Ha1 : nth_error (particle_refs (tile s1)) p = Some a).
      { simpl. rewrite Ht.
        now rewrite (proj1 (proj2 (ensure_box_fields h t))). }
      destruct (@cells_places s1 (product n_tiles) s1 c p ijk a eq_refl
                  Hwf1 Hc Ha1) as [A B].
      rewrite HP, HL in A, B.
      destruct (keeps_repair (fold_left place (product n_tiles) s1) kwargs)
        as [_ K].
      destruct (K (List.length h + c * List.length (particle_refs t) + p))
        as [A' B'].
      { rewrite (length_heap_places s1 (product n_tiles) s1 eq_refl).
        rewrite HP, HL.
        assert (c < List.length (product n_tiles))
          by (apply nth_error_Some; congruence).
        assert (p < List.length (particle_refs t))
          by (apply nth_error_Some; congruence).
        nia. }
      rewrite A', B', A, B.
      destruct (assign_indices_geometry
                  (particles true (heap s) (tile s)) (heap s) a) as [G1 G2].
      change (heap s1)
        with (assign_indices (heap s) (particles true (heap s) (tile s))).
      change (tile s1) with (tile s).
      rewrite G1, G2, Hh, Ht. auto.
Qed.

(* ------------------------------------------------------------------ *)
(** ** Runs on the small tiles *)
(* ------------------------------------------------------------------ *)

Import Example.

(** The bond across the face: both copies are rewired to the neighbouring
    copy. *)
Example across_is_stitched :
  raised (TiledCompound_init across periodic twice None narrow) = None
  /\ bonds (self (final (TiledCompound_init across periodic twice None
                           narrow)))
     = [(2, 5); (3, 4)].
Proof. vm_compute. split; reflexivity. Qed.

(** The width of the search is the caller's: with one neighbour the image
    is not found, with two it is. *)
Example width_is_not_enlarged :
  find_image scene single 2 3 = inl stitching_error
  /\ find_image scene narrow 2 3 = inr 5.
Proof. vm_compute. split; reflexivity. Qed.


(** C2 fails.  A tiling with a count above one leaves the template indices
    on the particles of the tile, and a tiling of a tile without a box, here
    with the counts (1, 1, 1), leaves the tile with a box. *)
Lemma tile_is_written :
  raised (TiledCompound_init across periodic twice None narrow) = None
  /\ map index across = [None; None]
  /\ map (fun a =>
            index (deref
              (heap (final
                 (TiledCompound_init across periodic twice None narrow)))
              a))
         (particle_refs periodic)
     = [Some 0; Some 1]
  /\ raised (TiledCompound_init slanted boxless once None narrow) = None
  /\ box boxless = None
  /\ box (tile (final (TiledCompound_init slanted boxless once None narrow)))
     = Some (mkBox (8, 4, 2)%Q (90, 90, 90)%Q).
Proof. vm_compute. repeat split; reflexivity. Qed.

(** C3 fails for the counts (1, 1, 1): the new structure holds the two
    particles of the tile themselves, in a store that has no other cell. *)
Lemma single_tile_is_the_template :
  raised (TiledCompound_init across periodic once None narrow) = None
  /\ particle_refs
       (self (final (TiledCompound_init across periodic once None narrow)))
     = particle_refs periodic
  /\ heap (final (TiledCompound_init across periodic once None narrow))
     = across.
Proof. vm_compute. repeat split; reflexivity. Qed.

(** C5 fails on a tile without a box that is periodic along no axis: the
    call raises the ValueError, and the tile has been given a box. *)
Lemma rejected_tile_is_written :
  raised (TiledCompound_init slanted boxless twice None narrow)
  = Some (ValueError
      "Tile not periodic in at least one of the specified dimensions.")
  /\ box boxless = None
  /\ box (tile (final
        (TiledCompound_init slanted boxless twice None narrow)))
     = Some (mkBox (8, 4, 2)%Q (90, 90, 90)%Q).
Proof. vm_compute. repeat split; reflexivity. Qed.

(** C9 fails when the stitching fails: the structure the constructor was
    building still holds the tree, and its particles their template
    indices.  It fails on a return as well: once a tile has been tiled
    twice, its own particles keep their template indices, and tiling it
    once more with the counts (1, 1, 1) returns a structure made of these
    particles. *)
Lemma failed_stitching_keeps_scratch :
  raised (TiledCompound_init across periodic twice None single)
  = Some stitching_error
  /\ particle_kdtree
       (self (final (TiledCompound_init across periodic twice None single)))
     = Some (mkTree [(1, 0, 0); (9, 0, 0); (11, 0, 0); (19, 0, 0)]%Q
                    (20, 10, 10)%Q (true, true, true))
  /\ map (fun a =>
            index (deref
              (heap (final
                 (TiledCompound_init across periodic twice None single)))
              a))
         (particles true
            (heap (final
               (TiledCompound_init across periodic twice None single)))
            (self (final
               (TiledCompound_init across periodic twice None single))))
     = [Some 0; Some 1; Some 0; Some 1]
  /\ raised (TiledCompound_init
               (heap (final
                  (TiledCompound_init across periodic twice None narrow)))
               (tile (final
                  (TiledCompound_init across periodic twice None narrow)))
               once None narrow) = None
  /\ map (fun a =>
            index (deref
              (heap (final (TiledCompound_init
                 (heap (final
                    (TiledCompound_init across periodic twice None narrow)))
                 (tile (final
                    (TiledCompound_init across periodic twice None narrow)))
                 once None narrow))) a))
         (particle_refs
            (self (final (TiledCompound_init
               (heap (final
                  (TiledCompound_init across periodic twice None narrow)))
               (tile (final
                  (TiledCompound_init across periodic twice None narrow)))
               once None narrow))))
     = [Some 0; Some 1].
Proof. vm_compute. repeat split; reflexivity. Qed.

(** The image of particle 3 sought from particle 2 is particle 5, the
    nearest of the two particles with the template index of 3. *)
Lemma find_image_returns_nearest_witness :
  exists neighbors pre post,
    retrieved scene_tree (heap scene) 2 scene_particles narrow
    = Some neighbors
    /\ StronglySorted (fun a b => dist_le a b = true)
         (map (tree_distance scene_tree (heap scene)
                 (pos (deref (heap scene) 2))) neighbors)
    /\ neighbors = pre ++ 5 :: post
    /\ Forall (fun a => matches (heap scene) 3 a = false) pre
    /\ matches (heap scene) 3 5 = true
    /\ forall a, In a scene_particles -> matches (heap scene) 3 a = true ->
         dist_le (tree_distance scene_tree (heap scene)
                    (pos (deref (heap scene) 2)) 5)
                 (tree_distance scene_tree (heap scene)
                    (pos (deref (heap scene) 2)) a) = true.
Proof.
  apply (@find_image_returns_nearest (heap scene) (self scene) scene_tree
           2 3 scene_particles narrow 5);
    vm_compute; reflexivity.
Defined.

Lemma bonds_change_only_after_scan_witness :
  raised (TiledCompound_init across periodic twice None narrow) = None
  /\ bonds (self (final
        (TiledCompound_init across periodic twice None narrow)))
     = fold_left add_edge [(2, 5); (3, 4)]
         (fold_left remove_edge [(2, 3); (4, 5)]
            (bonds (self (replicated across periodic twice None)))).
Proof.
  apply (proj1 (@bonds_change_only_after_scan across periodic twice None
                  narrow
                  ltac:(vm_compute; reflexivity)
                  ltac:(vm_compute; reflexivity))).
Defined.

Lemma only_long_periodic_bonds_rewired_witness :
  In (2, 3) (bonds (self (replicated across periodic twice None)))
  /\ candidate scene (2, 3) = true
  /\ stretched scene (2, 3) = true.
Proof.
  apply (proj1 (@only_long_periodic_bonds_rewired across periodic twice
                  None narrow [(2, 3); (4, 5)] [(2, 5); (3, 4)]
                  ltac:(vm_compute; reflexivity)
                  ltac:(vm_compute; reflexivity)
                  ltac:(vm_compute; reflexivity))).
  vm_compute. auto.
Defined.

Lemma tiles_are_translated_copies_witness :
  Z.of_nat (List.length
    (particle_refs
       (self (final (TiledCompound_init across periodic twice None narrow)))))
  = (2 * 1 * 1 * Z.of_nat (List.length (particle_refs periodic)))%Z
  /\ pos (deref (heap (final
            (TiledCompound_init across periodic twice None narrow)))
          (List.length across + 1 * List.length (particle_refs periodic) + 1))
     = vadd (pos (deref across 1))
            (np_multiply (1, 0, 0)%Z
               (lengths (the_box (ensure_box across periodic)))).
Proof.
  pose proof (@tiles_are_translated_copies across periodic twice None narrow
                ltac:(vm_compute; repeat constructor)
                ltac:(vm_compute; reflexivity)) as (_ & _ & Count & _ & Far).
  split; [exact Count|].
  apply (proj2 (proj2 (Far eq_refl) 1 (1, 0, 0)%Z eq_refl) 1 1 eq_refl).
Defined.

Lemma scratch_state_cleared_on_return_witness :
  particle_kdtree
    (self (final (TiledCompound_init across periodic twice None narrow)))
  = None
  /\ index (deref
       (heap (final (TiledCompound_init across periodic twice None narrow)))
       2)
     = None.
Proof.
  pose proof (@scratch_state_cleared_on_return across periodic twice None
                narrow ltac:(vm_compute; reflexivity)) as [Tree Idx].
  split; [exact Tree|]. apply (Idx eq_refl). vm_compute. auto.
Defined.

(* ------------------------------------------------------------------ *)
(** ** The attributes of the new structure *)
(* ------------------------------------------------------------------ *)

Lemma hoist_ports_frame (slf new_tile : Compound) :
  box (_hoist_ports slf new_tile) = box slf
  /\ periodicity (_hoist_ports slf new_tile) = periodicity slf
  /\ ports (_hoist_ports slf new_tile) = ports slf.
Proof.
  unfold _hoist_ports. generalize (ports new_tile). intro l. revert slf.
  induction l as [|p l IH]; intro slf; simpl; [auto|].
  destruct (IH (add_reference slf p)) as (-> & -> & ->). auto.
Qed.

Lemma frame_place (s : State) (ijk : int3) :
  box (self (place s ijk)) = box (self s)
  /\ periodicity (self (place s ijk)) = periodicity (self s)
  /\ ports (self (place s ijk)) = ports (self s).
Proof.
  unfold place, clone. simpl.
  rewrite (proj1 (hoist_ports_frame _ _)),
    (proj1 (proj2 (hoist_ports_frame _ _))),
    (proj2 (proj2 (hoist_ports_frame _ _))).
  auto.
Qed.

Lemma frame_places (l : list int3) (s : State) :
  box (self (fold_left place l s)) = box (self s)
  /\ periodicity (self (fold_left place l s)) = periodicity (self s)
  /\ ports (self (fold_left place l s)) = ports (self s).
Proof.
  revert s. induction l as [|ijk l IH]; intro s; simpl; [auto|].
  destruct (IH (place s ijk)) as (-> & -> & ->). apply frame_place.
Qed.

Lemma frame_remove_all (rem : list bond) (c : Compound) :
  box (fold_left remove_bond rem c) = box c
  /\ periodicity (fold_left remove_bond rem c) = periodicity c
  /\ ports (fold_left remove_bond rem c) = ports c.
Proof.
  revert c. induction rem as [|x rem IH]; intro c; simpl; [auto|].
  destruct (IH (remove_bond c x)) as (-> & -> & ->). auto.
Qed.

Lemma frame_add_all (adds : list bond) (c : Compound) :
  box (fold_left add_bond adds c) = box c
  /\ periodicity (fold_left add_bond adds c) = periodicity c
  /\ ports (fold_left add_bond adds c) = ports c.
Proof.
  revert c. induction adds as [|x adds IH]; intro c; simpl; [auto|].
  destruct (IH (add_bond c x)) as (-> & -> & ->). auto.
Qed.

Lemma frame_repair (s : State) (kwargs : list (string * nat)) :
  box (self (final (repair s kwargs))) = box (self s)
  /\ periodicity (self (final (repair s kwargs))) = periodicity (self s)
  /\ ports (self (final (repair s kwargs))) = ports (self s).
Proof.
  rewrite repair_scanned.
  destruct (scanned (indexed s) kwargs) as [e|[rem adds]]; simpl; [auto|].
  rewrite (proj1 (frame_add_all _ _)), (proj1 (frame_remove_all _ _)),
    (proj1 (proj2 (frame_add_all _ _))),
    (proj1 (proj2 (frame_remove_all _ _))),
    (proj2 (proj2 (frame_add_all _ _))),
    (proj2 (proj2 (frame_remove_all _ _))).
  auto.
Qed.

Lemma prepare_self (h : Store) (t : Compound) (n_tiles : int3)
  (nm : option string) :
  raised (prepare h t n_tiles nm) = None ->
  self (final (prepare h t n_tiles nm))
  = mkCompound
      (match nm with Some s => s | None => default_name t n_tiles end)
      [] [] [] (periodicity t)
      (Some (mkBox (np_multiply n_tiles (lengths (the_box (ensure_box h t))))
                   (angles (the_box (ensure_box h t)))))
      [] None.
Proof.
  unfold prepare. destruct (all_positive n_tiles); simpl; [|discriminate].
  destruct (periodic_where_tiled n_tiles (periodicity (ensure_box h t)));
    simpl; [|discriminate].
  intros _. destruct (ensure_box_fields h t) as (-> & _ & _ & _ & -> & _).
  unfold default_name. destruct nm, n_tiles as [[x y] z]; reflexivity.
Qed.

(** X1: whenever the checks pass, the new structure has the box of the
    tile with its lengths multiplied by the counts and its angles kept, the
    periodicity of the tile, no Port of its own, and the name given or else
    the name of the tile followed by the counts joined by dashes; the
    replication and the repair leave these as the constructor set them. *)
Theorem new_structure_attributes (h : Store) (t : Compound)
  (n_tiles : int3) (nm : option string) (kwargs : list (string * nat)) :
  raised (prepare h t n_tiles nm) = None ->
  box (self (final (TiledCompound_init h t n_tiles nm kwargs)))
  = Some (mkBox (np_multiply n_tiles (lengths (the_box (ensure_box h t))))
                (angles (the_box (ensure_box h t))))
  /\ periodicity (self (final (TiledCompound_init h t n_tiles nm kwargs)))
     = periodicity t
  /\ ports (self (final (TiledCompound_init h t n_tiles nm kwargs))) = []
  /\ name (self (final (TiledCompound_init h t n_tiles nm kwargs)))
     = match nm with Some s => s | None => default_name t n_tiles end.
Proof.
  intro Hp. pose proof (prepare_self h t n_tiles nm Hp) as Hs.
  destruct (init_cases h t n_tiles nm kwargs)
    as [[R _]|[(_ & _ & E)|(_ & _ & E)]]; [contradiction| |]; rewrite E.
  - simpl. rewrite (proj1 (hoist_ports_frame _ _)),
      (proj1 (proj2 (hoist_ports_frame _ _))),
      (proj2 (proj2 (hoist_ports_frame _ _))),
      (proj1 (proj2 (proj2 (hoist_ports_fields _ _)))).
    simpl. rewrite Hs. simpl. auto.
  - destruct (frame_repair (replicated h t n_tiles nm) kwargs)
      as (-> & -> & ->).
    rewrite (proj2 (proj2 (self_repair _ _))).
    unfold replicated, replicate. rewrite name_places.
    destruct (frame_places (product n_tiles)
                (mkState
                   (assign_indices (heap (final (prepare h t n_tiles nm)))
                      (particles true (heap (final (prepare h t n_tiles nm)))
                         (tile (final (prepare h t n_tiles nm)))))
                   (tile (final (prepare h t n_tiles nm)))
                   (self (final (prepare h t n_tiles nm)))))
      as (-> & -> & ->).
    simpl. rewrite Hs. simpl. auto.
Qed.

(* ------------------------------------------------------------------ *)
(** ** The template indices of the replicas *)
(* ------------------------------------------------------------------ *)

Lemma heap_places_prefix (l : list int3) (s : State) :
  exists ext, heap (fold_left place l s) = heap s ++ ext.
Proof.
  revert s. induction l as [|ijk l IH]; intro s; simpl.
  - exists []. now rewrite app_nil_r.
  - destruct (IH (place s ijk)) as [ext E]. rewrite E, heap_place.
    exists (block s ijk ++ ext). now rewrite app_assoc.
Qed.

Lemma deref_places_old (l : list int3) (s : State) (a : addr) :
  a < List.length (heap s) ->
  deref (heap (fold_left place l s)) a = deref (heap s) a.
Proof.
  intro H. destruct (heap_places_prefix l s) as [ext ->].
  now apply deref_app_old.
Qed.

Lemma cells_places_exact (l : list int3) (s : State) (c p : nat)
  (ijk : int3) (a : addr) :
  Forall (fun r => r < List.length (heap s)) (particle_refs (tile s)) ->
  nth_error l c = Some ijk ->
  nth_error (particle_refs (tile s)) p = Some a ->
  deref (heap (fold_left place l s))
        (List.length (heap s) + c * List.length (particle_refs (tile s)) + p)
  = moved (np_multiply ijk (lengths (the_box (tile s)))) (deref (heap s) a).
Proof.
  revert s c. induction l as [|ijk0 l IH]; intros s c Hwf Hc Hp.
  - destruct c; discriminate.
  - assert (Hplt : p < List.length (particle_refs (tile s)))
      by (apply nth_error_Some; congruence).
    assert (HL : List.length (heap (place s ijk0))
                 = List.length (heap s)
                   + List.length (particle_refs (tile s))).
    { now rewrite heap_place, length_app, length_block. }
    destruct c as [|c]; simpl in Hc |- *.
    + injection Hc as ->.
      rewrite deref_places_old by (rewrite HL; lia).
      rewrite heap_place.
      replace (List.length (heap s) + 0 + p) with (List.length (heap s) + p)
        by lia.
      rewrite deref_app_new. now apply deref_block.
    + assert (Ha : a < List.length (heap s)).
      { rewrite Forall_forall in Hwf. apply Hwf. eapply nth_error_In, Hp. }
      assert (Hwf' : Forall (fun r => r < List.length (heap (place s ijk0)))
                            (particle_refs (tile (place s ijk0)))).
      { rewrite tile_place. eapply Forall_impl; [|exact Hwf].
        intros r Hr. cbv beta in *. rewrite HL. lia. }
      specialize (IH (place s ijk0) c Hwf' Hc).
      rewrite tile_place, HL in IH.
      replace (List.length (heap s)
               + (List.length (particle_refs (tile s))
                  + c * List.length (particle_refs (tile s))) + p)
        with (List.length (heap s) + List.length (particle_refs (tile s))
              + c * List.length (particle_refs (tile s)) + p) by lia.
      rewrite (IH Hp), heap_place. now rewrite deref_app_old.
Qed.

Lemma deref_assign_other (l : list (nat * addr)) (h : Store) (a : addr) :
  ~ In a (map snd l) ->
  deref (fold_left (fun h' e => update h' (snd e) (set_index (Some (fst e))))
                   l h) a
  = deref h a.
Proof.
  revert h. induction l as [|[i r] l IH]; intros h Hn; simpl; [reflexivity|].
  rewrite IH by (intro C; apply Hn; now right).
  rewrite deref_update.
  destruct (r =? a) eqn:E; [|reflexivity].
  apply Nat.eqb_eq in E. exfalso. apply Hn. now left.
Qed.

Lemma index_assign (l : list (nat * addr)) (h : Store) (i : nat) (a : addr) :
  NoDup (map snd l) ->
  Forall (fun e => snd e < List.length h) l ->
  In (i, a) l ->
  index (deref (fold_left
                  (fun h' e => update h' (snd e) (set_index (Some (fst e))))
                  l h) a)
  = Some i.
Proof.
  revert h. induction l as [|[j r] l IH]; intros h Hnd Hr Hin; [contradiction|].
  simpl in *. inversion Hnd as [|? ? Hnot Hnd']; subst.
  inversion Hr as [|? ? Hlt Hr']; subst. simpl in Hlt.
  destruct Hin as [E|Hin].
  - injection E as -> ->. rewrite deref_assign_other by exact Hnot.
    rewrite deref_update, Nat.eqb_refl.
    apply Nat.ltb_lt in Hlt. now rewrite Hlt.
  - apply IH; [exact Hnd'| |exact Hin].
    eapply Forall_impl; [|exact Hr']. intros e He. cbv beta in *.
    now rewrite length_update.
Qed.

Lemma map_snd_combine_seq {A : Type} (l : list A) (k : nat) :
  map snd (combine (seq k (List.length l)) l) = l.
Proof.
  revert k. induction l as [|x l IH]; intro k; simpl; [reflexivity|].
  now rewrite IH.
Qed.

Lemma assign_indices_index (refs : list addr) (h : Store) (p : nat)
  (a : addr) :
  NoDup refs -> Forall (fun r => r < List.length h) refs ->
  nth_error refs p = Some a ->
  index (deref (assign_indices h refs) a) = Some p.
Proof.
  intros Hnd Hr Hp. unfold assign_indices. apply index_assign.
  - now rewrite map_snd_combine_seq.
  - rewrite Forall_forall in *. intros [i r] Hin. simpl.
    apply Hr. eapply in_combine_r, Hin.
  - assert (G : forall k, In (k + p, a)
                            (combine (seq k (List.length refs)) refs)).
    { clear Hnd Hr. revert p Hp.
      induction refs as [|r refs IH]; intros p Hp k.
      - destruct p; discriminate.
      - destruct p as [|p]; simpl in *.
        + injection Hp as ->. left. f_equal. lia.
        + right. replace (k + S p) with (S k + p) by lia. now apply IH. }
    exact (G 0).
Qed.

(** The state the replication loop starts from. *)
Lemma replicated_unfold (h : Store) (t : Compound) (n_tiles : int3)
  (nm : option string) :
  raised (prepare h t n_tiles nm) = None ->
  replicated h t n_tiles nm
  = fold_left place (product n_tiles)
      (mkState (assign_indices h (particle_refs t)) (ensure_box h t)
               (self (final (prepare h t n_tiles nm)))).
Proof.
  intro Hp. unfold replicated, replicate.
  destruct (prepare_cases h t n_tiles nm)
    as [[_ E]|[(_ & _ & E)|(_ & _ & _ & -> & -> & _)]];
    try (rewrite E in Hp; discriminate).
  unfold particles.
  now rewrite (proj1 (proj2 (ensure_box_fields h t))).
Qed.

(** The id of the copy of a particle, when the bonds are scanned. *)
Lemma copy_index (h : Store) (t : Compound) (n_tiles : int3)
  (nm : option string) (c p : nat) (a : addr) :
  well_formed h t ->
  raised (prepare h t n_tiles nm) = None ->
  c < List.length (product n_tiles) ->
  nth_error (particle_refs t) p = Some a ->
  index (deref (heap (stitching h t n_tiles nm)) (block_base h t c + p))
  = Some p.
Proof.
  intros (Hnd & Hr & _) Hp Hc Ha. unfold stitching, indexed. simpl.
  rewrite (replicated_unfold h t n_tiles nm Hp).
  set (s1 := mkState (assign_indices h (particle_refs t)) (ensure_box h t)
                     (self (final (prepare h t n_tiles nm)))).
  assert (HR : particle_refs (tile s1) = particle_refs t).
  { simpl. apply (proj1 (proj2 (ensure_box_fields h t))). }
  assert (HL : List.length (heap s1) = List.length h).
  { simpl. apply length_assign_indices. }
  destruct (nth_error (product n_tiles) c) as [ijk|] eqn:Hijk;
    [|apply nth_error_None in Hijk; lia].
  unfold block_base. rewrite <- HL, <- HR.
  rewrite (@cells_places_exact (product n_tiles) s1 c p ijk a).
  - simpl. now apply assign_indices_index.
  - rewrite HR, HL. exact Hr.
  - exact Hijk.
  - rewrite HR. exact Ha.
Qed.

(** X2: the temporary ids are shared by every replica.  For a tile whose
    particles are distinct cells of the store, particle number [p] of the
    tile carries the id [p] when the bonds are scanned, and so does its
    copy in every replica; the store has then grown by one cell for each
    particle of each replica. *)
Theorem template_indices_shared (h : Store) (t : Compound)
  (n_tiles : int3) (nm : option string) :
  well_formed h t ->
  raised (prepare h t n_tiles nm) = None ->
  List.length (heap (stitching h t n_tiles nm))
  = List.length h
    + List.length (product n_tiles) * List.length (particle_refs t)
  /\ forall p a,
       nth_error (particle_refs t) p = Some a ->
       index (deref (heap (stitching h t n_tiles nm)) a) = Some p
       /\ forall c,
            c < List.length (product n_tiles) ->
            index (deref (heap (stitching h t n_tiles nm))
                         (block_base h t c + p))
            = Some p.
Proof.
  intros Hwf Hp. split.
  - unfold stitching, indexed. simpl.
    rewrite (replicated_unfold h t n_tiles nm Hp).
    rewrite (length_heap_places
               (mkState (assign_indices h (particle_refs t))
                        (ensure_box h t)
                        (self (final (prepare h t n_tiles nm))))
               (product n_tiles) _ eq_refl).
    simpl.
    now rewrite length_assign_indices,
      (proj1 (proj2 (ensure_box_fields h t))).
  - intros p a Ha. split.
    + destruct Hwf as (Hnd & Hr & _). unfold stitching, indexed. simpl.
      rewrite (replicated_unfold h t n_tiles nm Hp).
      rewrite deref_places_old.
      * simpl. now apply assign_indices_index.
      * simpl. rewrite length_assign_indices.
        rewrite Forall_forall in Hr. apply Hr. eapply nth_error_In, Ha.
    + intros c Hc. eapply copy_index; eassumption.
Qed.

(* ------------------------------------------------------------------ *)
(** ** The bonds of the replicas *)
(* ------------------------------------------------------------------ *)

Lemma relocate_position (refs : list addr) (base p : nat) (a : addr) :
  NoDup refs -> nth_error refs p = Some a ->
  relocate refs base a = base + p.
Proof.
  unfold relocate, rename. revert base p.
  induction refs as [|r refs IH]; intros base p Hnd Hp.
  - destruct p; discriminate.
  - inversion Hnd as [|? ? Hnot Hnd']; subst. simpl.
    destruct p as [|p]; simpl in Hp.
    + injection Hp as ->. rewrite Nat.eqb_refl. simpl. lia.
    + destruct (r =? a) eqn:E.
      * apply Nat.eqb_eq in E. subst. exfalso. apply Hnot.
        eapply nth_error_In, Hp.
      * rewrite (IH (S base) p Hnd' Hp). lia.
Qed.

Lemma bonds_place (s : State) (ijk : int3) :
  bond_graph (self (place s ijk))
  = compose (bond_graph (self s))
      (map (fun b =>
              (relocate (particle_refs (tile s)) (List.length (heap s))
                        (fst b),
               relocate (particle_refs (tile s)) (List.length (heap s))
                        (snd b)))
           (bond_graph (tile s))).
Proof.
  unfold place, clone. simpl.
  now rewrite (proj1 (proj2 (hoist_ports_fields _ _))).
Qed.

Lemma has_edge_compose (g1 g2 : list bond) (x : bond) :
  has_edge g1 x = true \/ has_edge g2 x = true ->
  has_edge (compose g1 g2) x = true.
Proof.
  unfold compose. intros [H|H].
  - now apply has_edge_add_all_mono.
  - now apply has_edge_add_all.
Qed.

Lemma bonds_places (l : list int3) (s : State) :
  let P := List.length (particle_refs (tile s)) in
  let copy c b :=
    (relocate (particle_refs (tile s)) (List.length (heap s) + c * P)
              (fst b),
     relocate (particle_refs (tile s)) (List.length (heap s) + c * P)
              (snd b)) in
  (forall x, In x (bond_graph (self (fold_left place l s))) ->
     In x (bond_graph (self s))
     \/ exists c b, c < List.length l /\ In b (bond_graph (tile s))
                    /\ x = copy c b)
  /\ (forall x, has_edge (bond_graph (self s)) x = true ->
        has_edge (bond_graph (self (fold_left place l s))) x = true)
  /\ (forall c b, c < List.length l -> In b (bond_graph (tile s)) ->
        has_edge (bond_graph (self (fold_left place l s))) (copy c b)
        = true).
Proof.
  revert s. induction l as [|ijk l IH]; intro s; simpl.
  - split; [auto|]. split; [auto|]. intros c b Hc. lia.
  - destruct (IH (place s ijk)) as (A & B & C).
    rewrite tile_place in A, C.
    assert (HL : List.length (heap (place s ijk))
                 = List.length (heap s)
                   + List.length (particle_refs (tile s))).
    { now rewrite heap_place, length_app, length_block. }
    rewrite HL in A, C. split; [|split].
    + intros x Hx. destruct (A x Hx) as [H|(c & b & Hc & Hb & ->)].
      * rewrite bonds_place in H. unfold compose in H.
        apply In_add_all in H. destruct H as [H|H]; [now left|].
        apply in_map_iff in H. destruct H as (b & <- & Hb).
        right. exists 0, b. split; [lia|]. split; [exact Hb|].
        now rewrite Nat.add_0_r.
      * right. exists (S c), b. split; [lia|]. split; [exact Hb|].
        simpl. now rewrite Nat.add_assoc.
    + intros x Hx. apply B. rewrite bonds_place.
      apply has_edge_compose. now left.
    + intros [|c] b Hc Hb.
      * apply B. rewrite bonds_place. apply has_edge_compose. right.
        apply has_edge_In. apply in_map_iff. exists b.
        split; [|exact Hb]. simpl. now rewrite Nat.add_0_r.
      * specialize (C c b ltac:(lia) Hb). simpl.
        now rewrite Nat.add_assoc.
Qed.

(** The bonds the replication leaves, in terms of the bonds of the tile. *)
Lemma replicated_bonds (h : Store) (t : Compound) (n_tiles : int3)
  (nm : option string) :
  raised (prepare h t n_tiles nm) = None ->
  (forall x,
     In x (bonds (self (replicated h t n_tiles nm))) ->
     exists c b,
       c < List.length (product n_tiles) /\ In b (bonds t)
       /\ x = (relocate (particle_refs t) (block_base h t c) (fst b),
               relocate (particle_refs t) (block_base h t c) (snd b)))
  /\ (forall c b,
        c < List.length (product n_tiles) -> In b (bonds t) ->
        has_edge (bonds (self (replicated h t n_tiles nm)))
          (relocate (particle_refs t) (block_base h t c) (fst b),
           relocate (particle_refs t) (block_base h t c) (snd b))
        = true).
Proof.
  intro Hp. rewrite (replicated_unfold h t n_tiles nm Hp).
  set (s1 := mkState (assign_indices h (particle_refs t)) (ensure_box h t)
                     (self (final (prepare h t n_tiles nm)))).
  destruct (bonds_places (product n_tiles) s1) as (A & _ & C).
  destruct (ensure_box_fields h t) as (_ & HR & HB & _).
  simpl in A, C. rewrite HR, HB, length_assign_indices in A, C.
  split; [|exact C].
  intros x Hx. destruct (A x Hx) as [H|H]; [|exact H].
  rewrite (prepare_self h t n_tiles nm Hp) in H. destruct H.
Qed.

(** X3: before the repair, the bonds of the new structure are the bonds of
    the tile, copied into every replica: each of them joins the copies, in
    one replica, of the two ends of a bond of the tile, and every bond of
    the tile has such a copy in every replica.  For a tile whose bonds
    join its own, distinct particles, the copy of the bond between
    particles number [p] and [q] joins cells number [p] and [q] of the
    block of the replica. *)
Theorem replicas_carry_the_bonds (h : Store) (t : Compound)
  (n_tiles : int3) (nm : option string) :
  well_formed h t ->
  raised (prepare h t n_tiles nm) = None ->
  (forall x,
     In x (bonds (self (replicated h t n_tiles nm))) ->
     exists c p q,
       c < List.length (product n_tiles)
       /\ In (nth p (particle_refs t) 0, nth q (particle_refs t) 0) (bonds t)
       /\ p < List.length (particle_refs t)
       /\ q < List.length (particle_refs t)
       /\ x = (block_base h t c + p, block_base h t c + q))
  /\ (forall c p q,
        c < List.length (product n_tiles) ->
        p < List.length (particle_refs t) ->
        q < List.length (particle_refs t) ->
        In (nth p (particle_refs t) 0, nth q (particle_refs t) 0)
           (bonds t) ->
        has_edge (bonds (self (replicated h t n_tiles nm)))
                 (block_base h t c + p, block_base h t c + q)
        = true).
Proof.
  intros (Hnd & _ & Hb) Hp.
  destruct (replicated_bonds h t n_tiles nm Hp) as [A C]. split.
  - intros x Hx. destruct (A x Hx) as (c & b & Hc & Hin & ->).
    rewrite Forall_forall in Hb. destruct (Hb b Hin) as [H1 H2].
    apply In_nth_error in H1, H2. destruct H1 as [p H1], H2 as [q H2].
    exists c, p, q. split; [exact Hc|].
    assert (E1 : nth p (particle_refs t) 0 = fst b)
      by (now apply nth_error_nth).
    assert (E2 : nth q (particle_refs t) 0 = snd b)
      by (now apply nth_error_nth).
    rewrite E1, E2.
    split; [now rewrite <- surjective_pairing|].
    split; [apply nth_error_Some; congruence|].
    split; [apply nth_error_Some; congruence|].
    now rewrite (@relocate_position (particle_refs t) (block_base h t c) p
                   (fst b) Hnd H1),
      (@relocate_position (particle_refs t) (block_base h t c) q
         (snd b) Hnd H2).
  - intros c p q Hc Hlp Hlq Hin.
    specialize (C c _ Hc Hin). cbn [fst snd] in C.
    assert (E1 : relocate (particle_refs t) (block_base h t c)
                   (nth p (particle_refs t) 0) = block_base h t c + p)
      by (apply relocate_position;
          [exact Hnd|now apply nth_error_nth']).
    assert (E2 : relocate (particle_refs t) (block_base h t c)
                   (nth q (particle_refs t) 0) = block_base h t c + q)
      by (apply relocate_position;
          [exact Hnd|now apply nth_error_nth']).
    now rewrite E1, E2 in C.
Qed.

(* ------------------------------------------------------------------ *)
(** ** Where the bonds of the result come from *)
(* ------------------------------------------------------------------ *)

Lemma matches_index (h : Store) (m p : addr) :
  matches h m p = true -> index (deref h p) = index (deref h m).
Proof. unfold matches. apply index_eqb_eq. Qed.

(** Every bond of the result stems from a bond the replication left: it is
    that bond, or it joins one of its ends to the image found for the
    other. *)
Lemma final_bond_origin (s : State) (kwargs : list (string * nat))
  (x : bond) :
  In x (bonds (self (final (repair s kwargs)))) ->
  exists b,
    In b (bonds (self s))
    /\ (x = b
        \/ (fst x = fst b
            /\ find_image (indexed s) kwargs (fst b) (snd b) = inr (snd x))
        \/ (fst x = snd b
            /\ find_image (indexed s) kwargs (snd b) (fst b)
               = inr (snd x))).
Proof.
  rewrite repair_scanned.
  destruct (scanned (indexed s) kwargs) as [e|[rem adds]] eqn:Hs.
  - simpl. intro H. exists x. auto.
  - simpl. unfold bonds.
    rewrite bond_graph_add_all, bond_graph_remove_all. intro H.
    apply In_add_all in H. destruct H as [H|H].
    + apply In_remove_all in H. exists x. tauto.
    + destruct (scan_queues _ _ _ _ _ _ _ _ _ Hs) as (_ & _ & _ & O).
      destruct (O x H) as [[]|(b & Hb & _ & Hi)].
      exists b. split; [exact Hb|]. right.
      destruct Hi as [[A B]|[A B]]; [left|right]; auto.
Qed.

(** X4: for a tile whose bonds join its own particles, every bond of the
    result joins two particles of the result, whether the repair completed
    or raised; the image an end is rewired to is a particle of the result
    that is not a port particle. *)
Theorem bonds_stay_inside (h : Store) (t : Compound)
  (n_tiles : int3) (nm : option string) (kwargs : list (string * nat)) :
  well_formed h t ->
  raised (prepare h t n_tiles nm) = None ->
  all_ones n_tiles = false ->
  (forall x,
     In x (bonds (self (final (TiledCompound_init h t n_tiles nm kwargs)))) ->
     In (fst x)
        (particle_refs
           (self (final (TiledCompound_init h t n_tiles nm kwargs))))
     /\ In (snd x)
          (particle_refs
             (self (final (TiledCompound_init h t n_tiles nm kwargs)))))
  /\ (forall q m p,
        find_image (stitching h t n_tiles nm) kwargs q m = inr p ->
        In p (particle_refs
                (self (final (TiledCompound_init h t n_tiles nm kwargs))))
        /\ port_particle (deref (heap (stitching h t n_tiles nm)) p)
           = false).
Proof.
  intros (Hnd & Hr & Hb) Hp Ho.
  rewrite (init_repairs h t n_tiles nm kwargs Hp Ho).
  rewrite (proj1 (self_repair _ _)).
  assert (Img : forall q m p,
            find_image (stitching h t n_tiles nm) kwargs q m = inr p ->
            In p (particle_refs (self (replicated h t n_tiles nm)))
            /\ port_particle (deref (heap (stitching h t n_tiles nm)) p)
               = false).
  { intros q m p H. apply find_image_matches in H. destruct H as [_ H].
    unfold particles in H. apply filter_In in H. destruct H as [H1 H2].
    split; [exact H1|]. now apply negb_true_iff in H2. }
  split; [|exact Img].
  assert (Rep : forall b, In b (bonds (self (replicated h t n_tiles nm))) ->
            In (fst b) (particle_refs (self (replicated h t n_tiles nm)))
            /\ In (snd b) (particle_refs (self (replicated h t n_tiles nm)))).
  { intros b Hin.
    destruct (replicated_bonds h t n_tiles nm Hp) as (A & _).
    destruct (A b Hin) as (c & b0 & Hc & Hb0 & ->). simpl.
    rewrite Forall_forall in Hb. destruct (Hb b0 Hb0) as [H1 H2].
    apply In_nth_error in H1, H2.
    destruct H1 as [p Hp1], H2 as [q Hq].
    rewrite (@relocate_position (particle_refs t) (block_base h t c) p
               (fst b0) Hnd Hp1),
      (@relocate_position (particle_refs t) (block_base h t c) q
         (snd b0) Hnd Hq).
    rewrite (replicated_unfold h t n_tiles nm Hp).
    rewrite (refs_places
               (mkState (assign_indices h (particle_refs t))
                        (ensure_box h t)
                        (self (final (prepare h t n_tiles nm))))
               (product n_tiles) _ eq_refl).
    simpl. rewrite (prepare_self h t n_tiles nm Hp). simpl.
    rewrite (proj1 (proj2 (ensure_box_fields h t))), length_assign_indices.
    assert (p < List.length (particle_refs t))
      by (apply nth_error_Some; congruence).
    assert (q < List.length (particle_refs t))
      by (apply nth_error_Some; congruence).
    unfold block_base. split; apply in_seq; nia. }
  intros x Hx. apply final_bond_origin in Hx.
  destruct Hx as (b & Hin & [-> |[[E F]|[E F]]]).
  - now apply Rep.
  - rewrite E. split; [apply (Rep b Hin)|]. apply (Img _ _ _ F).
  - rewrite E. split; [apply (Rep b Hin)|]. apply (Img _ _ _ F).
Qed.

(** X5: the repair never joins copies of particles that are not bonded in
    the tile.  For a tile whose bonds join its own, distinct particles,
    every bond of the result joins a particle with the id [p] and one with
    the id [q], in one order or the other, for a bond of the tile between
    its particles number [p] and [q]. *)
Theorem bonds_join_bonded_template_particles (h : Store) (t : Compound)
  (n_tiles : int3) (nm : option string) (kwargs : list (string * nat)) :
  well_formed h t ->
  raised (prepare h t n_tiles nm) = None ->
  all_ones n_tiles = false ->
  forall x,
    In x (bonds (self (final (TiledCompound_init h t n_tiles nm kwargs)))) ->
    exists p q,
      p < List.length (particle_refs t)
      /\ q < List.length (particle_refs t)
      /\ In (nth p (particle_refs t) 0, nth q (particle_refs t) 0) (bonds t)
      /\ same_index_pair
           (index_pair (heap (stitching h t n_tiles nm)) x)
           (Some p, Some q).
Proof.
  intros Hwf Hp Ho x.
  rewrite (init_repairs h t n_tiles nm kwargs Hp Ho). intro Hx.
  apply final_bond_origin in Hx. destruct Hx as (b & Hin & Hx).
  destruct (replicated_bonds h t n_tiles nm Hp) as [A _].
  destruct (A b Hin) as (c & b0 & Hc & Hb0 & ->).
  destruct Hwf as (Hnd & Hr & Hb).
  rewrite Forall_forall in Hb. destruct (Hb b0 Hb0) as [H1 H2].
  apply In_nth_error in H1, H2. destruct H1 as [p H1], H2 as [q H2].
  assert (E1 : nth p (particle_refs t) 0 = fst b0)
    by (now apply nth_error_nth).
  assert (E2 : nth q (particle_refs t) 0 = snd b0)
    by (now apply nth_error_nth).
  rewrite (@relocate_position (particle_refs t) (block_base h t c) p
             (fst b0) Hnd H1),
    (@relocate_position (particle_refs t) (block_base h t c) q
       (snd b0) Hnd H2) in Hx.
  assert (Wf : well_formed h t).
  { split; [exact Hnd|]. split; [exact Hr|]. now apply Forall_forall. }
  pose proof (@copy_index h t n_tiles nm c p (fst b0) Wf Hp Hc H1) as I1.
  pose proof (@copy_index h t n_tiles nm c q (snd b0) Wf Hp Hc H2) as I2.
  exists p, q.
  split; [apply nth_error_Some; congruence|].
  split; [apply nth_error_Some; congruence|].
  split; [rewrite E1, E2; now rewrite <- surjective_pairing|].
  unfold same_index_pair, index_pair. cbn [fst snd] in *.
  fold (stitching h t n_tiles nm) in Hx.
  destruct Hx as [-> |[[E F]|[E F]]].
  - left. cbn [fst snd]. now rewrite I1, I2.
  - left. apply find_image_matches in F. destruct F as [F _].
    apply matches_index in F. rewrite E, F.
    change (heap (stitching h t n_tiles nm))
      with (heap (indexed (replicated h t n_tiles nm))) in *.
    now rewrite I1, I2.
  - right. apply find_image_matches in F. destruct F as [F _].
    apply matches_index in F. rewrite E, F.
    change (heap (stitching h t n_tiles nm))
      with (heap (indexed (replicated h t n_tiles nm))) in *.
    now rewrite I1, I2.
Qed.

(* ------------------------------------------------------------------ *)
(** ** Tilings that need no repair *)
(* ------------------------------------------------------------------ *)

Lemma scan_idle (h : Store) (slf : Compound)
  (pbs : list (option nat * option nat)) (thresh : ext)
  (all_particles : list addr) (kwargs : list (string * nat))
  (todo rem adds : list bond) :
  (forall b, In b todo ->
     in_periodic_bonds h pbs b = false \/ too_long h slf thresh b = false) ->
  scan h slf pbs thresh all_particles kwargs todo rem adds
  = inr (rem, adds).
Proof.
  induction todo as [|[p1 p2] todo IH]; intro H; simpl; [reflexivity|].
  destruct (H (p1, p2) (or_introl eq_refl)) as [-> | E]; simpl.
  - apply IH. intros b Hb. apply H. now right.
  - destruct (in_periodic_bonds h pbs (p1, p2)); simpl; rewrite ?E;
      apply IH; intros b Hb; apply H; now right.
Qed.

Lemma raw_length_kept (h h' : Store) (b : bond) :
  keeps h h' -> fst b < List.length h -> snd b < List.length h ->
  raw_length h' b = raw_length h b.
Proof.
  intros [_ K] H1 H2. unfold raw_length.
  now rewrite (proj1 (K _ H1)), (proj1 (K _ H2)).
Qed.

Lemma stitching_frame (h : Store) (t : Compound) (n_tiles : int3)
  (nm : option string) :
  raised (prepare h t n_tiles nm) = None ->
  tile (stitching h t n_tiles nm) = ensure_box h t
  /\ keeps h (heap (stitching h t n_tiles nm)).
Proof.
  intro Hp. unfold stitching, indexed, replicated. simpl.
  destruct (prepare_cases h t n_tiles nm)
    as [[_ E]|[(_ & _ & E)|(_ & _ & _ & H & T & _)]];
    try (rewrite E in Hp; discriminate).
  rewrite tile_replicate, T. split; [reflexivity|].
  rewrite <- H at 1. apply keeps_replicate.
Qed.

(** X6: a tile without a long bond needs no repair.  If no bond of the
    tile is longer than the cutoff, the periodic bond set is empty, the
    constructor raises nothing whatever the width of the search, and the
    bonds of the result are the bonds the replication left. *)
Theorem short_bonds_need_no_repair (h : Store) (t : Compound)
  (n_tiles : int3) (nm : option string) (kwargs : list (string * nat)) :
  well_formed h t ->
  raised (prepare h t n_tiles nm) = None ->
  all_ones n_tiles = false ->
  (forall b, In b (bonds t) ->
     dist_gt (raw_length h b) (dist_thresh (ensure_box h t)) = false) ->
  bond_set (stitching h t n_tiles nm) = []
  /\ raised (TiledCompound_init h t n_tiles nm kwargs) = None
  /\ bonds (self (final (TiledCompound_init h t n_tiles nm kwargs)))
     = bonds (self (replicated h t n_tiles nm)).
Proof.
  intros (_ & Hr & Hb) Hp Ho Hshort.
  destruct (stitching_frame h t n_tiles nm Hp) as [T K].
  assert (Empty : bond_set (stitching h t n_tiles nm) = []).
  { destruct (bond_set (stitching h t n_tiles nm)) as [|ij l] eqn:E;
      [reflexivity|exfalso].
    assert (Hin : In ij (bond_set (stitching h t n_tiles nm)))
      by (rewrite E; now left).
    unfold bond_set, periodic_bonds in Hin.
    apply In_periodic_bonds_from in Hin.
    destruct Hin as [[]|(b & Hin & _ & Hd)].
    unfold cutoff in Hd. rewrite T in Hin, Hd.
    unfold bonds in Hin.
    rewrite (proj1 (proj2 (proj2 (ensure_box_fields h t)))) in Hin.
    rewrite Forall_forall in Hb, Hr. destruct (Hb b Hin) as [H1 H2].
    rewrite (raw_length_kept b K (Hr _ H1) (Hr _ H2)) in Hd.
    rewrite (Hshort b Hin) in Hd. discriminate. }
  split; [exact Empty|].
  rewrite (init_repairs h t n_tiles nm kwargs Hp Ho).
  assert (Hs : scanned (indexed (replicated h t n_tiles nm)) kwargs
               = inr ([], [])).
  { unfold scanned. apply scan_idle. intros b _. left.
    fold (stitching h t n_tiles nm). rewrite Empty. reflexivity. }
  destruct (final_bonds _ _ Hs) as [R B]. split; [exact R|].
  rewrite B. reflexivity.
Qed.

Lemma hoist_ports_labels (slf new_tile : Compound) :
  labels (_hoist_ports slf new_tile)
  = labels slf ++ map (fun p => ("Port[$]"%string, p)) (ports new_tile).
Proof.
  unfold _hoist_ports. generalize (ports new_tile). intro l. revert slf.
  induction l as [|p l IH]; intro slf; simpl.
  - now rewrite app_nil_r.
  - rewrite IH. simpl. now rewrite <- app_assoc.
Qed.

Lemma all_ones_passes (n_tiles : int3) (per : flags3) :
  all_ones n_tiles = true ->
  all_positive n_tiles = true /\ periodic_where_tiled n_tiles per = true.
Proof.
  destruct n_tiles as [[x y] z], per as [[px py] pz]. simpl.
  rewrite !andb_true_iff, !Z.eqb_eq. intros [[-> ->] ->]. auto.
Qed.

(** X7: the counts (1, 1, 1) are accepted for every tile, and the
    constructor then neither raises nor looks at the width of the search:
    it leaves the store as it was, takes the particles of the tile
    themselves under the label of the coordinate (0, 0, 0), labels each
    port of the tile after it, and its bond graph has exactly the edges of
    the tile. *)
Theorem identity_tiling (h : Store) (t : Compound) (n_tiles : int3)
  (nm : option string) (kwargs : list (string * nat)) :
  all_ones n_tiles = true ->
  raised (TiledCompound_init h t n_tiles nm kwargs) = None
  /\ heap (final (TiledCompound_init h t n_tiles nm kwargs)) = h
  /\ particle_refs (self (final (TiledCompound_init h t n_tiles nm kwargs)))
     = particle_refs t
  /\ map snd
       (labels (self (final (TiledCompound_init h t n_tiles nm kwargs))))
     = particle_refs t :: ports t
  /\ option_map fst
       (hd_error
          (labels (self (final
             (TiledCompound_init h t n_tiles nm kwargs)))))
     = Some (tile_label
               (match nm with Some s => s | None => default_name t n_tiles
                end)
               (0, 0, 0)%Z)
  /\ (forall x,
        In x (bonds (self (final
                (TiledCompound_init h t n_tiles nm kwargs)))) ->
        In x (bonds t))
  /\ (forall x,
        has_edge (bonds t) x = true ->
        has_edge (bonds (self (final
                    (TiledCompound_init h t n_tiles nm kwargs)))) x
        = true).
Proof.
  intro Ho.
  destruct (all_ones_passes n_tiles (periodicity t) Ho) as [P1 P2].
  assert (Hp : raised (prepare h t n_tiles nm) = None).
  { destruct (prepare_cases h t n_tiles nm)
      as [[C _]|[(_ & C & _)|(_ & _ & R & _)]]; congruence. }
  destruct (init_cases h t n_tiles nm kwargs)
    as [[R _]|[(_ & _ & E)|(_ & C & _)]]; [contradiction| |congruence].
  rewrite E. simpl.
  destruct (ensure_box_fields h t) as (_ & HR & HB & HP & _).
  rewrite (proj1 (hoist_ports_fields _ _)),
    (proj1 (proj2 (hoist_ports_fields _ _))), hoist_ports_labels.
  unfold _add_tile, add. simpl.
  rewrite (prepare_self h t n_tiles nm Hp). simpl. rewrite HR, HB, HP.
  split; [reflexivity|]. split; [reflexivity|]. split; [reflexivity|].
  split; [simpl; f_equal; rewrite map_map; simpl; apply map_id|].
  split; [reflexivity|]. split.
  - intros x Hx. unfold compose in Hx. apply In_add_all in Hx.
    destruct Hx as [[]|Hx]. exact Hx.
  - intros x Hx. apply has_edge_compose. now right.
Qed.

(* ------------------------------------------------------------------ *)
(** ** The queue of additions *)
(* ------------------------------------------------------------------ *)

Lemma one_way_step (adds : list bond) (p i : addr) :
  one_way adds ->
  one_way (if negb (set_mem bond_eqb (i, p) adds)
           then set_add bond_eqb (p, i) adds else adds).
Proof.
  intro Inv. destruct (set_mem bond_eqb (i, p) adds) eqn:E; simpl;
    [exact Inv|].
  assert (Hn : ~ In (i, p) adds).
  { intro C. apply set_mem_bond in C. congruence. }
  intros a b Hab Hne Hba.
  apply In_set_add_bond in Hab, Hba.
  destruct Hab as [Hab|Hab], Hba as [Hba|Hba].
  - injection Hab as -> ->. injection Hba as Hba _. congruence.
  - injection Hab as -> ->. contradiction.
  - injection Hba as -> ->. contradiction.
  - exact (Inv a b Hab Hne Hba).
Qed.

Lemma scan_one_way (h : Store) (slf : Compound)
  (pbs : list (option nat * option nat)) (thresh : ext)
  (all_particles : list addr) (kwargs : list (string * nat))
  (todo rem adds rem' adds' : list bond) :
  scan h slf pbs thresh all_particles kwargs todo rem adds
  = inr (rem', adds') ->
  one_way adds -> one_way adds'.
Proof.
  revert rem adds. induction todo as [|[p1 p2] todo IH]; intros rem adds;
    simpl.
  - intro H. injection H as _ <-. auto.
  - destruct (in_periodic_bonds h pbs (p1, p2)); simpl; [|apply IH].
    destruct (too_long h slf thresh (p1, p2)); [|apply IH].
    destruct (_find_particle_image h slf p1 p2 all_particles kwargs)
      as [e|i2]; [discriminate|].
    destruct (_find_particle_image h slf p2 p1 all_particles kwargs)
      as [e|i1]; [discriminate|].
    intros H Inv. apply (IH _ _ H). now do 2 apply one_way_step.
Qed.

(** X9: when the scan completes, no bond is queued for addition in both
    orientations. *)
Theorem additions_queued_one_way (s : State) (kwargs : list (string * nat))
  (bonds_to_remove bonds_to_add : list bond) :
  scanned s kwargs = inr (bonds_to_remove, bonds_to_add) ->
  one_way bonds_to_add.
Proof.
  intro H. unfold scanned in H. eapply scan_one_way; [exact H|].
  intros a b [].
Qed.

(* ------------------------------------------------------------------ *)
(** ** The grid and its labels *)
(* ------------------------------------------------------------------ *)

Lemma nth_error_flat_map_blocks {A B : Type} (f : A -> list B)
  (l : list A) (c i r : nat) (a : A) :
  (forall x, List.length (f x) = c) ->
  nth_error l i = Some a -> r < c ->
  nth_error (flat_map f l) (i * c + r) = nth_error (f a) r.
Proof.
  intros Hc. revert i. induction l as [|x l IH]; intros i Hi Hr.
  - destruct i; discriminate.
  - destruct i as [|i]; simpl in *.
    + injection Hi as ->. apply nth_error_app1. now rewrite Hc.
    + rewrite nth_error_app2 by (rewrite Hc; lia).
      rewrite Hc. replace (c + i * c + r - c) with (i * c + r) by lia.
      now apply IH.
Qed.

Lemma nth_error_range (n : Z) (i : nat) :
  i < Z.to_nat n -> nth_error (range n) i = Some (Z.of_nat i).
Proof.
  intro H. unfold range. rewrite nth_error_map.
  rewrite (nth_error_nth' _ 0) by (now rewrite length_seq).
  now rewrite seq_nth.
Qed.

Lemma nth_error_product (x y z : Z) (i j k : nat) :
  i < Z.to_nat x -> j < Z.to_nat y -> k < Z.to_nat z ->
  nth_error (product (x, y, z)) ((i * Z.to_nat y + j) * Z.to_nat z + k)
  = Some (Z.of_nat i, Z.of_nat j, Z.of_nat k).
Proof.
  intros Hi Hj Hk. unfold product.
  replace ((i * Z.to_nat y + j) * Z.to_nat z + k)
    with (i * (Z.to_nat y * Z.to_nat z) + (j * Z.to_nat z + k)) by lia.
  rewrite (@nth_error_flat_map_blocks _ _ _ (range x)
             (Z.to_nat y * Z.to_nat z) i (j * Z.to_nat z + k) (Z.of_nat i)).
  - rewrite (@nth_error_flat_map_blocks _ _ _ (range y) (Z.to_nat z) j k
               (Z.of_nat j)).
    + now rewrite nth_error_map, nth_error_range.
    + intro b. now rewrite length_map, length_range.
    + now apply nth_error_range.
    + exact Hk.
  - intro a. rewrite (flat_map_constant_length (c := Z.to_nat z)).
    + now rewrite length_range.
    + intros b _. now rewrite length_map, length_range.
  - now apply nth_error_range.
  - nia.
Qed.

(** X10: the replicas lie in the store in the order of the grid, last axis
    fastest.  For a tile whose particles are distinct cells of the store,
    the replica of the coordinate (i, j, k) is block number
    (i * n_y + j) * n_z + k, and when the bonds are scanned its cell number
    [p] holds particle number [p] of the tile moved by the box lengths
    times the coordinate, with the id [p] and the port flag of that
    particle. *)
Theorem replica_of_coordinate (h : Store) (t : Compound) (x y z : Z)
  (nm : option string) (i j k : nat) :
  well_formed h t ->
  raised (prepare h t (x, y, z) nm) = None ->
  i < Z.to_nat x -> j < Z.to_nat y -> k < Z.to_nat z ->
  nth_error (product (x, y, z)) ((i * Z.to_nat y + j) * Z.to_nat z + k)
  = Some (Z.of_nat i, Z.of_nat j, Z.of_nat k)
  /\ forall p a,
       nth_error (particle_refs t) p = Some a ->
       deref (heap (stitching h t (x, y, z) nm))
             (block_base h t ((i * Z.to_nat y + j) * Z.to_nat z + k) + p)
       = mkParticle
           (vadd (pos (deref h a))
                 (np_multiply (Z.of_nat i, Z.of_nat j, Z.of_nat k)
                    (lengths (the_box (ensure_box h t)))))
           (Some p)
           (port_particle (deref h a)).
Proof.
  intros (Hnd & Hr & _) Hp Hi Hj Hk.
  pose proof (nth_error_product x y z Hi Hj Hk) as Hc.
  split; [exact Hc|]. intros p a Ha.
  unfold stitching, indexed. simpl.
  rewrite (replicated_unfold h t (x, y, z) nm Hp).
  set (s1 := mkState (assign_indices h (particle_refs t)) (ensure_box h t)
                     (self (final (prepare h t (x, y, z) nm)))).
  assert (HR : particle_refs (tile s1) = particle_refs t).
  { simpl. apply (proj1 (proj2 (ensure_box_fields h t))). }
  assert (HL : List.length (heap s1) = List.length h).
  { simpl. apply length_assign_indices. }
  unfold block_base. rewrite <- HL, <- HR.
  rewrite (@cells_places_exact (product (x, y, z)) s1
             ((i * Z.to_nat y + j) * Z.to_nat z + k) p
             (Z.of_nat i, Z.of_nat j, Z.of_nat k) a).
  - unfold moved, set_pos. simpl.
    destruct (assign_indices_geometry (particle_refs t) h a) as [-> ->].
    now rewrite (@assign_indices_index (particle_refs t) h p a Hnd Hr Ha).
  - rewrite HR, HL. exact Hr.
  - exact Hc.
  - rewrite HR. exact Ha.
Qed.

Lemma append_inj_l (s a b : string) :
  (s ++ a)%string = (s ++ b)%string -> a = b.
Proof.
  induction s as [|c s IH]; simpl; [auto|]. intro H. injection H as H.
  auto.
Qed.

Lemma no_dash_uint (d : Decimal.uint) :
  no_dash (NilEmpty.string_of_uint d).
Proof.
  induction d; simpl; try exact I; (split; [discriminate|assumption]).
Qed.

Lemma str_no_dash (n : Z) : (0 <= n)%Z -> no_dash (str n).
Proof.
  unfold str. destruct n as [|p|p]; intro H; [| |lia].
  - simpl. split; [discriminate|exact I].
  - simpl. unfold NilZero.string_of_uint.
    destruct (Pos.to_uint p) eqn:E; try apply no_dash_uint.
    simpl. split; [discriminate|exact I].
Qed.

Lemma split_at_dash (u u' r r' : string) :
  no_dash u -> no_dash u' ->
  (u ++ "-" ++ r)%string = (u' ++ "-" ++ r')%string ->
  u = u' /\ r = r'.
Proof.
  revert u'. induction u as [|c u IH]; intros [|c' u'] Hu Hu' H;
    simpl in *.
  - injection H as ->. auto.
  - injection H as <- _. destruct Hu' as [C _]. now contradiction C.
  - injection H as -> _. destruct Hu as [C _]. now contradiction C.
  - injection H as -> H. destruct Hu as [_ Hu], Hu' as [_ Hu'].
    destruct (IH u' Hu Hu' H) as [-> ->]. auto.
Qed.

Lemma str_inj (a b : Z) : str a = str b -> a = b.
Proof.
  unfold str. intro H.
  assert (N : forall n, Z.to_int n <> Decimal.Pos Decimal.Nil
                        /\ Z.to_int n <> Decimal.Neg Decimal.Nil).
  { intros [|p|p]; simpl; split; try discriminate;
      intro C; injection C as C; exact (Unsigned.to_uint_nonnil p C). }
  assert (E : Some (Z.to_int a) = Some (Z.to_int b)).
  { rewrite <- (NilZero.isi (Z.to_int a)), <- (NilZero.isi (Z.to_int b));
      try apply N. now rewrite H. }
  injection E as E.
  rewrite <- (DecimalZ.of_to a), <- (DecimalZ.of_to b). now rewrite E.
Qed.

(** X11: the labels of the replicas tell them apart: two coordinates of
    the grid with the same label are the same coordinate. *)
Theorem tile_labels_distinct (nm : string) (n_tiles : int3)
  (ijk ijk' : int3) :
  In ijk (product n_tiles) -> In ijk' (product n_tiles) ->
  tile_label nm ijk = tile_label nm ijk' -> ijk = ijk'.
Proof.
  destruct ijk as [[i j] k], ijk' as [[i' j'] k'].
  intros H H' E. apply In_product in H, H'.
  unfold tile_label in E.
  apply append_inj_l in E. apply (append_inj_l "_") in E.
  apply split_at_dash in E; try (apply str_no_dash; lia).
  destruct E as [Ei E].
  apply split_at_dash in E; try (apply str_no_dash; lia).
  destruct E as [Ej Ek].
  apply str_inj in Ei, Ej, Ek. now subst.
Qed.

(* ------------------------------------------------------------------ *)
(** ** The short bonds of the tile *)
(* ------------------------------------------------------------------ *)

Lemma original_index (h : Store) (t : Compound) (n_tiles : int3)
  (nm : option string) (p : nat) (a : addr) :
  well_formed h t ->
  raised (prepare h t n_tiles nm) = None ->
  nth_error (particle_refs t) p = Some a ->
  index (deref (heap (stitching h t n_tiles nm)) a) = Some p.
Proof.
  intros (Hnd & Hr & _) Hp Ha. unfold stitching, indexed. simpl.
  rewrite (replicated_unfold h t n_tiles nm Hp).
  rewrite deref_places_old.
  - simpl. now apply assign_indices_index.
  - simpl. rewrite length_assign_indices.
    rewrite Forall_forall in Hr. apply Hr. eapply nth_error_In, Ha.
Qed.

Lemma kept_bond (s : State) (kwargs : list (string * nat)) (b : bond) :
  In b (bonds (self s)) ->
  candidate (indexed s) b = false \/ stretched (indexed s) b = false ->
  In b (bonds (self (final (repair s kwargs)))).
Proof.
  intros Hin Hfail. rewrite repair_scanned.
  destruct (scanned (indexed s) kwargs) as [e|[rem adds]] eqn:Hs;
    [exact Hin|].
  simpl. unfold bonds. rewrite bond_graph_add_all, bond_graph_remove_all.
  apply add_all_keeps. apply In_remove_all. split; [exact Hin|].
  intros r Hr. destruct (same_bond r b) eqn:E; [|reflexivity].
  destruct (scan_queues _ _ _ _ _ _ _ _ _ Hs) as (R & _).
  apply R in Hr. destruct Hr as [[]|[_ [Hc Hl]]].
  destruct (tests_same_bond (heap (indexed s)) (self (indexed s))
              (bond_set (indexed s)) (cutoff (indexed s)) r b E)
    as [E1 E2].
  unfold candidate, stretched in Hfail. destruct Hfail; congruence.
Qed.

Lemma nth_error_inj (refs : list addr) (p q : nat) (a : addr) :
  NoDup refs -> nth_error refs p = Some a -> nth_error refs q = Some a ->
  p = q.
Proof.
  intros Hnd Hp Hq.
  apply (proj1 (NoDup_nth_error refs) Hnd).
  - apply nth_error_Some. congruence.
  - congruence.
Qed.

Lemma raw_length_swap (h : Store) (a b : addr) :
  raw_length h (b, a) = raw_length h (a, b).
Proof. unfold raw_length. simpl. apply norm_sub_sym. Qed.

(** The ids of a pair of the periodic bond set are the positions of the
    ends of a long bond of the tile. *)
Lemma bond_set_member (h : Store) (t : Compound) (n_tiles : int3)
  (nm : option string) (ij : option nat * option nat) :
  well_formed h t ->
  raised (prepare h t n_tiles nm) = None ->
  In ij (bond_set (stitching h t n_tiles nm)) ->
  exists b p q,
    In b (bonds t)
    /\ nth_error (particle_refs t) p = Some (fst b)
    /\ nth_error (particle_refs t) q = Some (snd b)
    /\ ij = (Some p, Some q)
    /\ dist_gt (raw_length h b) (dist_thresh (ensure_box h t)) = true.
Proof.
  intros Hwf Hp Hin.
  destruct (stitching_frame h t n_tiles nm Hp) as [T K].
  unfold bond_set, periodic_bonds in Hin.
  apply In_periodic_bonds_from in Hin.
  destruct Hin as [[]|(b & Hin & -> & Hd)].
  unfold cutoff in Hd. rewrite T in Hin, Hd. unfold bonds in Hin.
  rewrite (proj1 (proj2 (proj2 (ensure_box_fields h t)))) in Hin.
  pose proof Hwf as (Hnd & Hr & Hb).
  rewrite Forall_forall in Hb, Hr. destruct (Hb b Hin) as [H1 H2].
  rewrite (raw_length_kept b K (Hr _ H1) (Hr _ H2)) in Hd.
  apply In_nth_error in H1, H2. destruct H1 as [p H1], H2 as [q H2].
  exists b, p, q. split; [exact Hin|]. split; [exact H1|].
  split; [exact H2|]. split; [|exact Hd].
  unfold index_pair.
  now rewrite (@original_index h t n_tiles nm p (fst b) Hwf Hp H1),
    (@original_index h t n_tiles nm q (snd b) Hwf Hp H2).
Qed.

(** X12: the short bonds of the tile are in every replica of the result.
    For a tile whose bonds join its own, distinct particles, a bond of the
    tile that is not longer than the cutoff joins, in every replica, the
    copies of its two ends, whether the repair completed or raised. *)
Theorem short_bonds_in_every_replica (h : Store) (t : Compound)
  (n_tiles : int3) (nm : option string) (kwargs : list (string * nat))
  (p q c : nat) :
  well_formed h t ->
  raised (prepare h t n_tiles nm) = None ->
  all_ones n_tiles = false ->
  p < List.length (particle_refs t) ->
  q < List.length (particle_refs t) ->
  In (nth p (particle_refs t) 0, nth q (particle_refs t) 0) (bonds t) ->
  dist_gt (raw_length h (nth p (particle_refs t) 0,
                         nth q (particle_refs t) 0))
          (dist_thresh (ensure_box h t)) = false ->
  c < List.length (product n_tiles) ->
  has_edge (bonds (self (final (TiledCompound_init h t n_tiles nm kwargs))))
           (block_base h t c + p, block_base h t c + q)
  = true.
Proof.
  intros Hwf Hp Ho Hlp Hlq Hin Hshort Hc.
  pose proof Hwf as (Hnd & Hr & Hb).
  set (a1 := nth p (particle_refs t) 0) in *.
  set (a2 := nth q (particle_refs t) 0) in *.
  assert (H1 : nth_error (particle_refs t) p = Some a1)
    by (now apply nth_error_nth').
  assert (H2 : nth_error (particle_refs t) q = Some a2)
    by (now apply nth_error_nth').
  rewrite (init_repairs h t n_tiles nm kwargs Hp Ho).
  (* neither order of the ids is in the periodic bond set *)
  assert (Out : forall ij,
            ij = (Some p, Some q) \/ ij = (Some q, Some p) ->
            set_mem index_pair_eqb ij (bond_set (stitching h t n_tiles nm))
            = false).
  { intros ij Hij.
    destruct (set_mem index_pair_eqb ij
                (bond_set (stitching h t n_tiles nm))) eqn:E;
      [exfalso|reflexivity].
    unfold set_mem in E. apply existsb_exists in E.
    destruct E as (ij' & Hmem & Heq). apply index_pair_eqb_eq in Heq.
    subst ij'.
    destruct (@bond_set_member h t n_tiles nm ij Hwf Hp Hmem)
      as (b & p' & q' & Hbin & Hp' & Hq' & -> & Hd).
    destruct b as [b1 b2]. simpl in Hp', Hq'.
    destruct Hij as [Hij|Hij]; injection Hij as -> ->.
    - assert (b1 = a1) by congruence. assert (b2 = a2) by congruence.
      subst. congruence.
    - assert (b1 = a2) by congruence. assert (b2 = a1) by congruence.
      subst. rewrite raw_length_swap in Hd. congruence. }
  destruct (replicated_bonds h t n_tiles nm Hp) as [_ C].
  specialize (C c (a1, a2) Hc Hin). cbn [fst snd] in C.
  rewrite (@relocate_position (particle_refs t) (block_base h t c) p a1
             Hnd H1),
    (@relocate_position (particle_refs t) (block_base h t c) q a2 Hnd H2)
    in C.
  unfold has_edge in C. apply existsb_exists in C.
  destruct C as (e & He & Hsame).
  apply existsb_exists. exists e. split; [|exact Hsame].
  apply kept_bond; [exact He|]. left.
  fold (stitching h t n_tiles nm).
  pose proof (@copy_index h t n_tiles nm c p a1 Hwf Hp Hc H1) as I1.
  pose proof (@copy_index h t n_tiles nm c q a2 Hwf Hp Hc H2) as I2.
  apply same_bond_cases in Hsame.
  unfold candidate, in_periodic_bonds.
  destruct Hsame as [E|E]; cbn [fst snd] in E.
  - rewrite <- E. cbn [fst snd]. rewrite I1, I2.
    rewrite (Out (Some p, Some q)), (Out (Some q, Some p)); auto.
  - destruct e as [e1 e2]. cbn [fst snd] in *. injection E as <- <-.
    rewrite I1, I2.
    rewrite (Out (Some p, Some q)), (Out (Some q, Some p)); auto.
Qed.

(* ------------------------------------------------------------------ *)
(** ** The minimum image *)
(* ------------------------------------------------------------------ *)

Lemma qmin_cases (a b : Q) :
  (qmin a b = a /\ (a <= b)%Q) \/ (qmin a b = b /\ (b <= a)%Q).
Proof.
  unfold qmin. destruct (Qle_bool a b) eqn:E.
  - left. split; [reflexivity|]. now apply Qle_bool_iff.
  - right. split; [reflexivity|]. now apply Qle_bool_false.
Qed.

(** The remainder of a length by a period above zero. *)
Lemma remainder_bounds (d L : Q) :
  (0 < L)%Q -> (0 <= d)%Q ->
  (0 <= inject_Z (Qfloor (d / L)))%Q
  /\ (0 <= d - inject_Z (Qfloor (d / L)) * L)%Q
  /\ (d - inject_Z (Qfloor (d / L)) * L < L)%Q.
Proof.
  intros HL Hd.
  pose proof (Qfloor_le (d / L)) as H1.
  pose proof (Qlt_floor (d / L)) as H2.
  rewrite inject_Z_plus in H2. change (inject_Z 1) with 1%Q in H2.
  assert (E : (d == (d / L) * L)%Q).
  { field. intro C. rewrite C in HL. inversion HL. }
  assert (H0 : (0 <= Qfloor (d / L))%Z).
  { change 0%Z with (Qfloor 0). apply Qfloor_resp_le.
    apply Qle_shift_div_l; [exact HL|]. Lqa.lra. }
  rewrite Zle_Qle in H0. change (inject_Z 0) with 0%Q in H0.
  set (f := inject_Z (Qfloor (d / L))) in *.
  set (q := (d / L)%Q) in *.
  split; [exact H0|]. split.
  - rewrite E. Lqa.nra.
  - rewrite E. Lqa.nra.
Qed.

(** A coordinate of the minimum image is not negative and not above the
    plain difference. *)
Lemma image_delta_bounds (periodic : bool) (L a b : Q) :
  (0 <= image_delta periodic L a b)%Q
  /\ (image_delta periodic L a b <= Qabs (a - b))%Q.
Proof.
  unfold image_delta. pose proof (Qabs_nonneg (a - b)) as Hd.
  destruct (periodic && Qlt_bool 0 L) eqn:E.
  - apply andb_true_iff in E. destruct E as [_ HL].
    apply Qlt_bool_iff in HL.
    destruct (remainder_bounds HL Hd) as (F & R0 & R1).
    set (d := Qabs (a - b)) in *.
    set (f := inject_Z (Qfloor (d / L))) in *.
    destruct (qmin_cases (d - f * L) (L - (d - f * L))) as [[-> M]|[-> M]];
      split; Lqa.nra.
  - split; [exact Hd|apply Qle_refl].
Qed.

(** Along a periodic axis it is the distance to one of the images ... *)
Lemma image_delta_image (L a b : Q) :
  (0 < L)%Q ->
  exists n : Z, (image_delta true L a b == Qabs (a - b - inject_Z n * L))%Q.
Proof.
  intro HL. unfold image_delta.
  assert (HLb : Qlt_bool 0 L = true) by now apply Qlt_bool_iff.
  rewrite HLb. cbn [andb]. cbv zeta.
  pose proof (Qabs_nonneg (a - b)) as Hd.
  destruct (remainder_bounds HL Hd) as (F & R0 & R1).
  set (k := Qfloor (Qabs (a - b) / L)) in *.
  assert (S1 : (inject_Z (k + 1) == inject_Z k + 1)%Q)
    by (rewrite inject_Z_plus; reflexivity).
  assert (O1 : forall z, (inject_Z (- z) == - inject_Z z)%Q)
    by (intro z; rewrite inject_Z_opp; reflexivity).
  destruct (Qlt_le_dec (a - b) 0) as [Hs|Hs].
  - assert (Ed : (Qabs (a - b) == - (a - b))%Q)
      by (apply Qabs_neg; Lqa.lra).
    destruct (qmin_cases (Qabs (a - b) - inject_Z k * L)
                         (L - (Qabs (a - b) - inject_Z k * L)))
      as [[-> M]|[-> M]].
    + exists (- k)%Z. rewrite O1.
      rewrite (Qabs_neg (a - b - - inject_Z k * L)) by Lqa.nra.
      rewrite Ed. ring.
    + exists (- (k + 1))%Z. rewrite O1, S1.
      rewrite (Qabs_pos (a - b - - (inject_Z k + 1) * L)) by Lqa.nra.
      rewrite Ed. ring.
  - assert (Ed : (Qabs (a - b) == a - b)%Q) by now apply Qabs_pos.
    destruct (qmin_cases (Qabs (a - b) - inject_Z k * L)
                         (L - (Qabs (a - b) - inject_Z k * L)))
      as [[-> M]|[-> M]].
    + exists k.
      rewrite (Qabs_pos (a - b - inject_Z k * L)) by Lqa.nra.
      rewrite Ed. ring.
    + exists (k + 1)%Z. rewrite S1.
      rewrite (Qabs_neg (a - b - (inject_Z k + 1) * L)) by Lqa.nra.
      rewrite Ed. ring.
Qed.

(** ... and no image is nearer. *)
Lemma image_delta_least (L a b : Q) (n : Z) :
  (0 < L)%Q ->
  (image_delta true L a b <= Qabs (a - b - inject_Z n * L))%Q.
Proof.
  intro HL. unfold image_delta.
  assert (HLb : Qlt_bool 0 L = true) by now apply Qlt_bool_iff.
  rewrite HLb. cbn [andb]. cbv zeta.
  pose proof (Qabs_nonneg (a - b)) as Hd.
  destruct (remainder_bounds HL Hd) as (F & R0 & R1).
  set (k := Qfloor (Qabs (a - b) / L)) in *.
  pose proof (Qle_Qabs (a - b - inject_Z n * L)) as U1.
  pose proof (Qle_Qabs (- (a - b - inject_Z n * L))) as U2.
  rewrite Qabs_opp in U2.
  assert (Int : forall x y : Z, (x <= y)%Z \/ (y + 1 <= x)%Z)
    by (intros; lia).
  assert (Inj : forall x y : Z, (x <= y)%Z -> (inject_Z x <= inject_Z y)%Q)
    by (intros x y H; rewrite <- Zle_Qle; exact H).
  assert (S1 : forall z, (inject_Z (z + 1) == inject_Z z + 1)%Q)
    by (intro z; rewrite inject_Z_plus; reflexivity).
  assert (O1 : (inject_Z (- n) == - inject_Z n)%Q)
    by (rewrite inject_Z_opp; reflexivity).
  set (m := Qabs (a - b - inject_Z n * L)) in *.
  set (r := (Qabs (a - b) - inject_Z k * L)%Q) in *.
  assert (Hmin : (qmin r (L - r) <= r /\ qmin r (L - r) <= L - r)%Q).
  { destruct (qmin_cases r (L - r)) as [[-> M]|[-> M]]; split; Lqa.lra. }
  destruct Hmin as [M1 M2]. unfold r in *. clear r.
  destruct (Qlt_le_dec (a - b) 0) as [Hs|Hs].
  - assert (Ed : (Qabs (a - b) == - (a - b))%Q)
      by (apply Qabs_neg; Lqa.lra).
    rewrite Ed in *.
    destruct (Int (- n)%Z k) as [C|C]; apply Inj in C.
    + rewrite O1 in C. Lqa.nra.
    + rewrite S1, O1 in C. Lqa.nra.
  - assert (Ed : (Qabs (a - b) == a - b)%Q) by now apply Qabs_pos.
    rewrite Ed in *.
    destruct (Int n k) as [C|C]; apply Inj in C.
    + Lqa.nra.
    + rewrite S1 in C. Lqa.nra.
Qed.

(** Two points moved by the same vector: the square of a coordinate of
    their minimum image is not above that of their plain difference. *)
Lemma image_delta_square (periodic : bool) (L x u s : Q) :
  (image_delta periodic L (x + s) (u + s)
   * image_delta periodic L (x + s) (u + s)
   <= (x - u) * (x - u))%Q.
Proof.
  destruct (image_delta_bounds periodic L (x + s) (u + s)) as [H0 H1].
  assert (E : (Qabs (x + s - (u + s)) == Qabs (x - u))%Q).
  { apply Qabs_wd. ring. }
  rewrite E in H1. clear E.
  set (d := image_delta periodic L (x + s) (u + s)) in *.
  destruct (Qlt_le_dec (x - u) 0) as [Hs|Hs].
  - rewrite (Qabs_neg (x - u)) in H1 by Lqa.lra. Lqa.nra.
  - rewrite (Qabs_pos (x - u)) in H1 by exact Hs. Lqa.nra.
Qed.

(** The minimum-image distance of two points moved by the same vector is
    not above their plain distance. *)
Lemma min_image_le_raw (c : Compound) (p q s : vec3) :
  (radicand (min_periodic_distance c (vadd p s) (vadd q s))
   <= radicand (np_linalg_norm (vsub p q)))%Q.
Proof.
  destruct p as [[x y] z], q as [[u v] w], s as [[s1 s2] s3].
  unfold min_periodic_distance, np_linalg_norm, vsub, vadd.
  destruct (box c) as [bx|].
  - unfold periodic_distance.
    destruct (periodicity c) as [[px py] pz],
      (lengths bx) as [[lx ly] lz].
    unfold sum_sq. cbn [radicand].
    pose proof (image_delta_square px lx x u s1).
    pose proof (image_delta_square py ly y v s2).
    pose proof (image_delta_square pz lz z w s3).
    Lqa.lra.
  - unfold sum_sq. cbn [radicand]. Lqa.nra.
Qed.

Lemma dist_gt_mono (a b : dist) (t : ext) :
  (radicand a <= radicand b)%Q ->
  dist_gt a t = true -> dist_gt b t = true.
Proof.
  destruct t as [thr|]; simpl; [|discriminate].
  rewrite !orb_true_iff, !Qlt_bool_iff. intros H [H1|H1]; [now left|].
  right. eapply Qlt_le_trans; eassumption.
Qed.

(* ------------------------------------------------------------------ *)
(** ** The repaired bonds and the cutoff *)
(* ------------------------------------------------------------------ *)

Lemma matches_refl (h : Store) (a : addr) : matches h a a = true.
Proof. unfold matches. now apply index_eqb_eq. Qed.

Lemma in_periodic_bonds_index (h : Store)
  (pbs : list (option nat * option nat)) (p q a : addr) :
  index (deref h a) = index (deref h q) ->
  in_periodic_bonds h pbs (p, a) = in_periodic_bonds h pbs (p, q).
Proof. unfold in_periodic_bonds. simpl. now intros ->. Qed.

(** The first retrieved neighbour with the index sought is the nearest
    particle with that index. *)
Lemma first_match_nearest (h : Store) (slf : Compound)
  (t : PeriodicKDTree) (q m : addr) (all_particles : list addr)
  (kwargs : list (string * nat)) (p a : addr) :
  particle_kdtree slf = Some t ->
  data t = map (fun a => pos (deref h a)) all_particles ->
  _find_particle_image h slf q m all_particles kwargs = inr p ->
  In a all_particles -> matches h m a = true ->
  dist_le (tree_distance t h (pos (deref h q)) p)
          (tree_distance t h (pos (deref h q)) a) = true.
Proof.
  intros Ht Hd Hf Ha Hm.
  rewrite (find_particle_image_cases h slf q m all_particles kwargs Ht
             (retrieved_k_nearest h t all_particles Hd q kwargs)) in Hf.
  destruct (find (matches h m) (k_nearest t h q all_particles kwargs))
    as [p'|] eqn:Hfind; [|discriminate].
  injection Hf as ->. unfold k_nearest in Hfind.
  set (x := pos (deref h q)) in *. rewrite map_map in Hfind.
  apply find_map_inv in Hfind. destruct Hfind as (e & He & Hge).
  apply find_firstn in He.
  destruct (particle_ranked h t all_particles Hd x a Ha) as (j & Hj & Hin).
  assert (Hn : nearer e (tree_distance t h x a, j)).
  { eapply find_sorted_least; [apply ranked_sorted|exact He|exact Hin|].
    simpl. now rewrite Hj. }
  apply find_some in He. destruct He as [He _].
  apply (ranked_entry h t all_particles Hd) in He. destruct He as [He _].
  unfold nearer in Hn. simpl in Hn. rewrite He, Hge in Hn. exact Hn.
Qed.

(** The box of the new structure, when the bonds are scanned. *)
Lemma stitching_box (h : Store) (t : Compound) (n_tiles : int3)
  (nm : option string) :
  raised (prepare h t n_tiles nm) = None ->
  box (self (stitching h t n_tiles nm))
  = Some (mkBox (np_multiply n_tiles (lengths (the_box (ensure_box h t))))
                (angles (the_box (ensure_box h t)))).
Proof.
  intro Hp. unfold stitching, indexed. simpl.
  rewrite (replicated_unfold h t n_tiles nm Hp).
  rewrite (proj1 (frame_places _ _)). simpl.
  now rewrite (prepare_self h t n_tiles nm Hp).
Qed.

(** When the image found for an end is beyond the cutoff, so is every
    particle with the index sought. *)
Lemma image_no_farther (s : State) (kwargs : list (string * nat))
  (p q a a' : addr) :
  box (self s) <> None ->
  find_image (indexed s) kwargs p q = inr a ->
  In a' (particles false (heap s) (self s)) ->
  matches (heap s) q a' = true ->
  stretched (indexed s) (p, a) = true ->
  stretched (indexed s) (p, a') = true.
Proof.
  intros Hbox Hf Ha' Hm.
  pose proof (@first_match_nearest (heap s) (self (indexed s))
                (from_compound (heap s) (self s)) p q
                (particles false (heap s) (self s)) kwargs a a'
                eq_refl eq_refl Hf Ha' Hm) as Hn.
  unfold stretched, too_long, min_periodic_distance. simpl.
  unfold tree_distance, from_compound in Hn. simpl in Hn.
  destruct (box (self s)) as [bx|]; [|contradiction].
  apply dist_gt_mono. unfold dist_le in Hn. now apply Qle_bool_iff.
Qed.

(** Where the copy of a particle lies, when the bonds are scanned. *)
Lemma copy_position (h : Store) (t : Compound) (n_tiles : int3)
  (nm : option string) (c p : nat) (a : addr) (ijk : int3) :
  well_formed h t ->
  raised (prepare h t n_tiles nm) = None ->
  nth_error (product n_tiles) c = Some ijk ->
  nth_error (particle_refs t) p = Some a ->
  pos (deref (heap (stitching h t n_tiles nm)) (block_base h t c + p))
  = vadd (pos (deref h a))
         (np_multiply ijk (lengths (the_box (ensure_box h t)))).
Proof.
  intros (Hnd & Hr & _) Hp Hc Ha. unfold stitching, indexed. simpl.
  rewrite (replicated_unfold h t n_tiles nm Hp).
  set (s1 := mkState (assign_indices h (particle_refs t)) (ensure_box h t)
                     (self (final (prepare h t n_tiles nm)))).
  assert (HR : particle_refs (tile s1) = particle_refs t).
  { simpl. apply (proj1 (proj2 (ensure_box_fields h t))). }
  assert (HL : List.length (heap s1) = List.length h).
  { simpl. apply length_assign_indices. }
  unfold block_base. rewrite <- HL, <- HR.
  rewrite (@cells_places_exact (product n_tiles) s1 c p ijk a).
  - unfold moved, set_pos. simpl.
    now rewrite (proj1 (assign_indices_geometry (particle_refs t) h a)).
  - rewrite HR, HL. exact Hr.
  - exact Hc.
  - rewrite HR. exact Ha.
Qed.

(** A replicated bond whose template indices are not in the periodic bond
    set is the copy of a bond of the tile that is not longer than the
    cutoff, and is no longer under the minimum image. *)
Lemma unlisted_bond_short (h : Store) (t : Compound) (n_tiles : int3)
  (nm : option string) (x : bond) :
  well_formed h t ->
  raised (prepare h t n_tiles nm) = None ->
  In x (bonds (self (replicated h t n_tiles nm))) ->
  candidate (stitching h t n_tiles nm) x = false ->
  stretched (stitching h t n_tiles nm) x = false.
Proof.
  intros Hwf Hp Hin Hc. pose proof Hwf as (Hnd & Hr & Hb).
  destruct (replicated_bonds h t n_tiles nm Hp) as [A _].
  destruct (A x Hin) as (c & b0 & Hlt & Hb0 & ->).
  rewrite Forall_forall in Hb, Hr. destruct (Hb b0 Hb0) as [H1 H2].
  pose proof (Hr _ H1) as L1. pose proof (Hr _ H2) as L2.
  apply In_nth_error in H1, H2. destruct H1 as [p H1], H2 as [q H2].
  rewrite (@relocate_position (particle_refs t) (block_base h t c) p
             (fst b0) Hnd H1),
    (@relocate_position (particle_refs t) (block_base h t c) q
       (snd b0) Hnd H2) in *.
  destruct (nth_error (product n_tiles) c) as [ijk|] eqn:Hijk;
    [|apply nth_error_None in Hijk; lia].
  pose proof (@copy_index h t n_tiles nm c p (fst b0) Hwf Hp Hlt H1) as I1.
  pose proof (@copy_index h t n_tiles nm c q (snd b0) Hwf Hp Hlt H2) as I2.
  pose proof (@copy_position h t n_tiles nm c p (fst b0) ijk Hwf Hp Hijk H1)
    as P1.
  pose proof (@copy_position h t n_tiles nm c q (snd b0) ijk Hwf Hp Hijk H2)
    as P2.
  destruct (stitching_frame h t n_tiles nm Hp) as [T K].
  (* the bond of the tile is not longer than the cutoff *)
  assert (Short : dist_gt (raw_length h b0)
                          (cutoff (stitching h t n_tiles nm)) = false).
  { destruct (dist_gt (raw_length h b0)
                      (cutoff (stitching h t n_tiles nm))) eqn:E;
      [exfalso|reflexivity].
    assert (Hmem : In (Some p, Some q)
                      (bond_set (stitching h t n_tiles nm))).
    { unfold bond_set, periodic_bonds. apply In_periodic_bonds_from.
      right. exists b0. split; [|split].
      - rewrite T. unfold bonds.
        now rewrite (proj1 (proj2 (proj2 (ensure_box_fields h t)))).
      - unfold index_pair.
        now rewrite (@original_index h t n_tiles nm p (fst b0) Hwf Hp H1),
          (@original_index h t n_tiles nm q (snd b0) Hwf Hp H2).
      - now rewrite (raw_length_kept b0 K L1 L2). }
    unfold candidate, in_periodic_bonds in Hc. cbn [fst snd] in Hc.
    rewrite I1, I2 in Hc. apply orb_false_iff in Hc. destruct Hc as [Hc _].
    unfold set_mem in Hc.
    assert (Ht : existsb (index_pair_eqb (Some p, Some q))
                   (bond_set (stitching h t n_tiles nm)) = true).
    { apply existsb_exists. exists (Some p, Some q).
      split; [exact Hmem|]. now apply index_pair_eqb_eq. }
    congruence. }
  destruct (stretched (stitching h t n_tiles nm)
              (block_base h t c + p, block_base h t c + q)) eqn:E;
    [exfalso|exact E].
  unfold stretched, too_long in E. cbn [fst snd] in E.
  rewrite P1, P2 in E.
  apply (dist_gt_mono _ (raw_length h b0)) in E.
  - unfold cutoff in Short, E. congruence.
  - apply min_image_le_raw.
Qed.

(** The test of line 110 is the comparison of the real minimum-image
    distance with the cutoff. *)
Lemma too_long_exceeds (h : Store) (slf : Compound) (thresh : ext)
  (b : bond) :
  too_long h slf thresh b = true
  <-> exceeds (sqrt (Q2R (radicand
                 (min_periodic_distance slf (pos (deref h (fst b)))
                                        (pos (deref h (snd b)))))))
              thresh.
Proof.
  destruct thresh as [thr|]; [apply too_long_gt|].
  unfold too_long. simpl. split; [discriminate|tauto].
Qed.

(** The repair moves no particle and keeps the box: the test gives the
    same in the structure it leaves as when the bonds are scanned. *)
Lemma too_long_final (s : State) (kwargs : list (string * nat))
  (thresh : ext) (b : bond) :
  too_long (heap (final (repair s kwargs))) (self (final (repair s kwargs)))
           thresh b
  = too_long (heap (indexed s)) (self (indexed s)) thresh b.
Proof.
  unfold too_long, min_periodic_distance.
  rewrite (proj1 (frame_repair s kwargs)),
    (proj1 (proj2 (frame_repair s kwargs))).
  assert (P : forall a, pos (deref (heap (final (repair s kwargs))) a)
                        = pos (deref (heap s) a)).
  { intro a. rewrite repair_scanned.
    destruct (scanned (indexed s) kwargs) as [e|[rem adds]]; simpl;
      [reflexivity|]. apply clear_indices_geometry. }
  rewrite !P. reflexivity.
Qed.


(* ------------------------------------------------------------------ *)
(** ** More runs on the small tiles *)
(* ------------------------------------------------------------------ *)

Lemma dimer_well_formed (a b : vec3) (per : flags3) (bx : option Box) :
  well_formed (two a b) (dimer per bx).
Proof.
  unfold well_formed, two, dimer. simpl. split; [|split].
  - constructor; [simpl; intros [H|[]]; discriminate|].
    constructor; [intros []|constructor].
  - constructor; [lia|]. constructor; [lia|constructor].
  - constructor; [|constructor]. simpl. auto.
Qed.


Lemma new_structure_attributes_witness :
  box (self (final (TiledCompound_init across periodic twice None narrow)))
  = Some (mkBox (np_multiply twice
                   (lengths (the_box (ensure_box across periodic))))
                (angles (the_box (ensure_box across periodic))))
  /\ periodicity
       (self (final (TiledCompound_init across periodic twice None narrow)))
     = periodicity periodic
  /\ ports
       (self (final (TiledCompound_init across periodic twice None narrow)))
     = []
  /\ name
       (self (final (TiledCompound_init across periodic twice None narrow)))
     = default_name periodic twice.
Proof.
  apply (@new_structure_attributes across periodic twice None narrow).
  vm_compute. reflexivity.
Defined.

Lemma template_indices_shared_witness :
  index (deref (heap scene) 1) = Some 1
  /\ index (deref (heap scene) (block_base across periodic 1 + 1)) = Some 1.
Proof.
  pose proof (proj2 (@template_indices_shared across periodic twice None
                       (dimer_well_formed _ _ _ _)
                       ltac:(vm_compute; reflexivity)) 1 1 eq_refl)
    as [Own Copy].
  split; [exact Own|]. apply Copy. vm_compute. lia.
Defined.

Lemma replicas_carry_the_bonds_witness :
  has_edge (bonds (self (replicated across periodic twice None)))
           (block_base across periodic 1 + 0, block_base across periodic 1 + 1)
  = true.
Proof.
  apply (proj2 (@replicas_carry_the_bonds across periodic twice None
                  (dimer_well_formed _ _ _ _)
                  ltac:(vm_compute; reflexivity)));
    vm_compute; auto; lia.
Defined.

Lemma bonds_stay_inside_witness :
  In 2 (particle_refs
          (self (final (TiledCompound_init across periodic twice None
                          narrow))))
  /\ In 5 (particle_refs
             (self (final (TiledCompound_init across periodic twice None
                             narrow)))).
Proof.
  apply (proj1 (@bonds_stay_inside across periodic twice None narrow
                  (dimer_well_formed _ _ _ _)
                  ltac:(vm_compute; reflexivity)
                  ltac:(vm_compute; reflexivity)) (2, 5)).
  vm_compute. auto.
Defined.

Lemma bonds_join_bonded_template_particles_witness :
  exists p q,
    p < List.length (particle_refs periodic)
    /\ q < List.length (particle_refs periodic)
    /\ In (nth p (particle_refs periodic) 0, nth q (particle_refs periodic) 0)
          (bonds periodic)
    /\ same_index_pair (index_pair (heap scene) (2, 5)) (Some p, Some q).
Proof.
  apply (@bonds_join_bonded_template_particles across periodic twice None
           narrow (dimer_well_formed _ _ _ _)
           ltac:(vm_compute; reflexivity)
           ltac:(vm_compute; reflexivity) (2, 5)).
  vm_compute. auto.
Defined.

Lemma short_bonds_need_no_repair_witness :
  bond_set (stitching inside periodic twice None) = []
  /\ raised (TiledCompound_init inside periodic twice None single) = None
  /\ bonds (self (final (TiledCompound_init inside periodic twice None
                           single)))
     = bonds (self (replicated inside periodic twice None)).
Proof.
  apply (@short_bonds_need_no_repair inside periodic twice None single
           (dimer_well_formed _ _ _ _)
           ltac:(vm_compute; reflexivity)
           ltac:(vm_compute; reflexivity)).
  intros b [<-|[]]. vm_compute. reflexivity.
Defined.

Lemma identity_tiling_witness :
  raised (TiledCompound_init across periodic once None narrow) = None
  /\ heap (final (TiledCompound_init across periodic once None narrow))
     = across
  /\ has_edge
       (bonds (self (final
          (TiledCompound_init across periodic once None narrow))))
       (1, 0)
     = true.
Proof.
  pose proof (@identity_tiling across periodic once None narrow
                ltac:(vm_compute; reflexivity))
    as (R & H & _ & _ & _ & _ & E).
  split; [exact R|]. split; [exact H|]. apply E. vm_compute. reflexivity.
Defined.

Lemma additions_queued_one_way_witness :
  In (2, 5) [(2, 5); (3, 4)] /\ ~ In (5, 2) [(2, 5); (3, 4)].
Proof.
  split; [now left|].
  apply (@additions_queued_one_way scene narrow [(2, 3); (4, 5)]
           [(2, 5); (3, 4)] ltac:(vm_compute; reflexivity) 2 5).
  - now left.
  - discriminate.
Defined.

Lemma replica_of_coordinate_witness :
  nth_error (product twice) ((1 * Z.to_nat 1 + 0) * Z.to_nat 1 + 0)
  = Some (Z.of_nat 1, Z.of_nat 0, Z.of_nat 0)
  /\ deref (heap scene)
           (block_base across periodic
              ((1 * Z.to_nat 1 + 0) * Z.to_nat 1 + 0) + 1)
     = mkParticle
         (vadd (pos (deref across 1))
               (np_multiply (Z.of_nat 1, Z.of_nat 0, Z.of_nat 0)
                  (lengths (the_box (ensure_box across periodic)))))
         (Some 1)
         (port_particle (deref across 1)).
Proof.
  pose proof (@replica_of_coordinate across periodic 2 1 1 None 1 0 0
                (dimer_well_formed _ _ _ _)
                ltac:(vm_compute; reflexivity)
                ltac:(vm_compute; lia) ltac:(vm_compute; lia)
                ltac:(vm_compute; lia)) as [Order Cell].
  split; [exact Order|]. exact (Cell 1 1 eq_refl).
Defined.

Lemma tile_labels_distinct_witness :
  In (0, 0, 0)%Z (product twice) /\ In (1, 0, 0)%Z (product twice)
  /\ ~ tile_label "T" (0, 0, 0)%Z = tile_label "T" (1, 0, 0)%Z.
Proof.
  assert (H0 : In (0, 0, 0)%Z (product twice)) by (vm_compute; auto).
  assert (H1 : In (1, 0, 0)%Z (product twice)) by (vm_compute; auto).
  split; [exact H0|]. split; [exact H1|]. intro E.
  pose proof (@tile_labels_distinct "T" twice (0, 0, 0)%Z (1, 0, 0)%Z
                H0 H1 E) as C.
  discriminate C.
Defined.

Lemma short_bonds_in_every_replica_witness :
  has_edge
    (bonds (self (final (TiledCompound_init inside periodic twice None
                           single))))
    (block_base inside periodic 1 + 0, block_base inside periodic 1 + 1)
  = true.
Proof.
  apply (@short_bonds_in_every_replica inside periodic twice None single
           0 1 1 (dimer_well_formed _ _ _ _));
    vm_compute; auto; lia.
Defined.
